(** * FABRIC feedback-guided generation: attention caching and re-injection

    A shallow embedding of [src/fabric/generator.py] and the properties its
    specification states about it.

    Conventions of the embedding.
    - A torch float is a real number ([R]).  Where torch produces a value
      that is not a finite number (a division by zero, the logarithm of a
      negative number) the embedding says so explicitly: the attention
      functions return [option], and [None] reads "the result holds inf or
      nan entries".  [log 0 = -inf] is kept as a value ([NegInf]) because
      the fused kernel turns it back into the finite probability [0].
    - A tensor of shape (batch, sequence, features) is a list of matrices,
      a matrix a list of rows.  torch tensors are rectangular and torch
      raises when dimensions disagree; the embedding is total on lists, and
      the theorems name the shape assumptions they rely on.
    - An equality of reals between two outputs stands for agreement of the
      floats up to rounding.  Rounding also takes a small positive number
      to exactly 0: [Tensor.softmax] is strictly positive where float
      softmax underflows, so the statement about the renormalisation of
      lines 107-108 takes the probabilities as given.
    - Library code that the file calls (diffusers' attention module, the
      xformers kernel, PIL, the scheduler) is written after its documented
      behaviour or passed in as a record of functions. *)

From Stdlib Require Import Reals Lra Lia ZArith QArith Qround String.
From stdpp Require Import gmap strings list.

(** ** Tensors over the reals *)

Module Tensor.
Local Open Scope R_scope.

Abbreviation vec := (list R).
Abbreviation mat := (list (list R)).
Abbreviation tensor := (list (list (list R))).

Definition rsum (l : list R) : R := foldr Rplus 0 l.
Definition dot (u v : vec) : R := rsum (zip_with Rmult u v).
Definition vadd (u v : vec) : vec := zip_with Rplus u v.
Definition vscale (c : R) (u : vec) : vec := map (Rmult c) u.

(** [shape[0]] and [shape[1]] of a tensor. *)
Definition size0 (t : tensor) : nat := length t.
Definition size1 (t : tensor) : nat := match t with [] => 0%nat | m :: _ => length m end.

Definition rectangular (t : tensor) : Prop := Forall (λ m, length m = size1 t) t.

(** A layer acting on the last dimension ([nn.Linear], dropout, LoRA). *)
Definition linear (f : vec → vec) (t : tensor) : tensor := map (map f) t.
Definition tadd (s t : tensor) : tensor := zip_with (zip_with vadd) s t.
Definition tscale (c : R) (t : tensor) : tensor := map (map (vscale c)) t.

(** [torch.cat([s, t], dim=1)] and [torch.cat([s, t], dim=0)]. *)
Definition cat1 (s t : tensor) : tensor := zip_with app s t.
Definition cat0 (s t : tensor) : tensor := s ++ t.

(** [x.repeat_interleave(n, dim=0)]. *)
Definition repeat_interleave {A} (n : nat) (x : list A) : list A :=
  concat (map (replicate n) x).

(** [softmax(dim=-1)] of one row of logits. *)
Definition softmax (row : list R) : list R :=
  let e := map exp row in map (λ x, x / rsum e) e.

(** [row / row.sum(dim=-1, keepdim=True)]: the quotient by a zero sum is
    not a finite number. *)
Definition renormalize (row : list R) : option (list R) :=
  let s := rsum row in
  if Req_dec_T s 0 then None else Some (map (λ x, x / s) row).

(** [torch.bmm(p, v)] on one batch entry: every row of [p] combines the rows
    of [v]. *)
Definition rowmat (p : list R) (v : mat) : vec :=
  foldr (λ '(pj, vj) acc, vadd (vscale pj vj) acc)
        (replicate (match v with [] => 0%nat | r :: _ => length r end) 0)
        (zip p v).
Definition bmm (p v : list mat) : list mat :=
  zip_with (λ pb vb, map (λ prow, rowmat prow vb) pb) p v.

(** Values an additive attention bias can take: [log] of a weight is
    [-inf] at [0] and [nan] below. *)
Inductive xreal := NegInf | Fin (x : R) | NaN.

Definition torch_log (w : R) : xreal :=
  if Rlt_dec w 0 then NaN else if Req_dec_T w 0 then NegInf else Fin (ln w).

Definition xadd (m : R) (b : xreal) : xreal :=
  match b with Fin x => Fin (m + x) | NegInf => NegInf | NaN => NaN end.

Definition xexp (a : xreal) : option R :=
  match a with NegInf => Some 0 | Fin x => Some (exp x) | NaN => None end.

End Tensor.

(** ** [attn_with_weights] *)

Module Attn.
Import Tensor.
Local Open Scope R_scope.

(** [attn.processor] when it is a [LoRACrossAttnProcessor]. *)
Record LoRA := {
  to_q_lora : vec → vec;
  to_k_lora : vec → vec;
  to_v_lora : vec → vec;
  to_out_lora : vec → vec }.

(** The attention module [attn] as [attn_with_weights] uses it. *)
Record Attention := {
  heads : nat;
  scale : R;
  to_q : vec → vec;
  to_k : vec → vec;
  to_v : vec → vec;
  to_out_0 : vec → vec;
  to_out_1 : vec → vec;
  processor : option LoRA;
  norm_cross : bool;
  norm_encoder_hidden_states : tensor → tensor;
  pad_attention_mask : tensor → nat → nat → tensor }.

(** diffusers: [prepare_attention_mask] returns [None] for [None] and pads
    and repeats a given mask. *)
Definition prepare_attention_mask (attn : Attention) (attention_mask : option tensor)
    (target_length batch_size : nat) : option tensor :=
  match attention_mask with
  | None => None
  | Some m => Some (pad_attention_mask attn m target_length batch_size)
  end.

(** diffusers: [reshape(B, S, H, D).permute(0, 2, 1, 3).reshape(B * H, S, D)]. *)
Definition slice_head (H h : nat) (row : vec) : vec :=
  take (length row / H) (drop (h * (length row / H)) row).
Definition head_to_batch_dim (attn : Attention) (t : tensor) : list mat :=
  concat (map (λ m, map (λ h, map (slice_head (heads attn) h) m) (seq 0 (heads attn))) t).

(** diffusers: [reshape(B // H, H, S, D).permute(0, 2, 1, 3).reshape(B // H, S, D * H)]. *)
Fixpoint merge_heads (g : list mat) : mat :=
  match g with
  | [] => []
  | [m] => m
  | m :: g' => zip_with app m (merge_heads g')
  end.
Definition batch_to_head_dim (attn : Attention) (t : list mat) : tensor :=
  map (λ b, merge_heads (take (heads attn) (drop (b * heads attn) t)))
      (seq 0 (length t / heads attn)).

(** [torch.baddbmm(mask, query, key.transpose(-1, -2), beta, alpha)]; without
    a mask [beta] is [0]. *)
Definition baddbmm (mask : option (list mat)) (query key : list mat) (alpha : R) : list mat :=
  match mask with
  | None =>
      zip_with (λ q k, map (λ qrow, map (λ krow, alpha * dot qrow krow) k) q) query key
  | Some ms =>
      zip_with (λ m '(q, k),
                 zip_with (λ mrow qrow, zip_with (λ mij krow, mij + alpha * dot qrow krow) mrow k) m q)
               ms (zip query key)
  end.

(** diffusers: [get_attention_scores]. *)
Definition get_attention_scores (attn : Attention) (query key : list mat)
    (attention_mask : option (list mat)) : list mat :=
  map (map softmax) (baddbmm attention_mask query key (scale attn)).

(** [attention_probs * weights[:, None]]: a weight tensor of batch size 1
    broadcasts over the batch. *)
Definition mul_weights (attention_probs : list mat) (weights : list (list R)) : list mat :=
  match weights with
  | [w] => map (map (λ prow, zip_with Rmult prow w)) attention_probs
  | _ => zip_with (λ p w, map (λ prow, zip_with Rmult prow w) p) attention_probs weights
  end.

(** Lines 104-108: the weighted and renormalised probabilities of the
    reference path. *)
Definition weighted_attention_probs (attn : Attention) (attention_probs : list mat)
    (weights : list (list R)) : option (list mat) :=
  let weights :=
    if decide (length weights ≠ 1%nat) then repeat_interleave (heads attn) weights
    else weights in
  let attention_probs := mul_weights attention_probs weights in
  mapM (mapM renormalize) attention_probs.

(** Lines 103-108: the attention distribution of the reference path. *)
Definition reference_probs (attn : Attention) (query key : list mat)
    (attention_mask : option (list mat)) (weights : option (list (list R))) : option (list mat) :=
  let attention_probs := get_attention_scores attn query key attention_mask in
  match weights with
  | Some w => weighted_attention_probs attn attention_probs w
  | None => Some attention_probs
  end.

(** Line 112: [weights.repeat_interleave(heads, 0).unsqueeze(1).expand(-1, q, -1).log()]. *)
Definition log_bias (attn : Attention) (weights : list (list R)) (q : nat) : list (list (list xreal)) :=
  map (λ w, replicate q (map torch_log w)) (repeat_interleave (heads attn) weights).

(** xformers: [memory_efficient_attention(query, key, value, attn_bias, scale)]
    is [softmax(query @ key^T * scale + attn_bias) @ value]. *)
Definition fused_row (scale : R) (qrow : vec) (k : mat) (brow : option (list xreal)) : option (list R) :=
  let logits :=
    match brow with
    | None => map (λ krow, Fin (dot qrow krow * scale)) k
    | Some b => zip_with (λ krow bij, xadd (dot qrow krow * scale) bij) k b
    end in
  mapM xexp logits ≫= renormalize.

Definition fused_probs (scale : R) (query key : list mat)
    (attn_bias : option (list (list (list xreal)))) : option (list mat) :=
  match attn_bias with
  | None => mapM (λ '(q, k), mapM (λ qrow, fused_row scale qrow k None) q) (zip query key)
  | Some bs =>
      mapM (λ '(b, (q, k)), mapM (λ '(brow, qrow), fused_row scale qrow k (Some brow)) (zip b q))
           (zip bs (zip query key))
  end.

Definition memory_efficient_attention (query key value : list mat)
    (attn_bias : option (list (list (list xreal)))) (scale : R) : option (list mat) :=
  p ← fused_probs scale query key attn_bias; Some (bmm p value).

(** Lines 111-116: the bias handed to the fused kernel. *)
Definition fused_bias (attn : Attention) (attention_mask : option tensor)
    (weights : option (list (list R))) (q : nat) : option (list (list (list xreal))) :=
  match weights with
  | Some w =>
      let bias := log_bias attn w q in
      match attention_mask with
      | None => Some bias
      | Some m => Some (zip_with (zip_with (zip_with xadd)) m bias)
      end
  | None => map (map (map Fin)) <$> attention_mask
  end.

Definition attn_with_weights (has_xformers : bool) (attn : Attention)
    (hidden_states : tensor) (encoder_hidden_states : option tensor)
    (attention_mask : option tensor) (weights : option (list (list R)))
    (lora_scale : R) : option tensor :=
  let batch_size := size0 (default hidden_states encoder_hidden_states) in
  let sequence_length := size1 (default hidden_states encoder_hidden_states) in
  let attention_mask := prepare_attention_mask attn attention_mask sequence_length batch_size in
  let query :=
    match processor attn with
    | Some p => tadd (linear (to_q attn) hidden_states)
                     (tscale lora_scale (linear (to_q_lora p) hidden_states))
    | None => linear (to_q attn) hidden_states
    end in
  let encoder_hidden_states :=
    match encoder_hidden_states with
    | None => hidden_states
    | Some e => if norm_cross attn then norm_encoder_hidden_states attn e else e
    end in
  let key :=
    match processor attn with
    | Some p => tadd (linear (to_k attn) encoder_hidden_states)
                     (tscale lora_scale (linear (to_k_lora p) encoder_hidden_states))
    | None => linear (to_k attn) encoder_hidden_states
    end in
  let value :=
    match processor attn with
    | Some p => tadd (linear (to_v attn) encoder_hidden_states)
                     (tscale lora_scale (linear (to_v_lora p) encoder_hidden_states))
    | None => linear (to_v attn) encoder_hidden_states
    end in
  let query := head_to_batch_dim attn query in
  let key := head_to_batch_dim attn key in
  let value := head_to_batch_dim attn value in
  hidden_states ←
    (if negb has_xformers then
       attention_probs ← reference_probs attn query key attention_mask weights;
       Some (bmm attention_probs value)
     else
       memory_efficient_attention query key value
         (fused_bias attn attention_mask weights (size1 query)) (scale attn));
  let hidden_states := batch_to_head_dim attn hidden_states in
  let hidden_states :=
    match processor attn with
    | Some p => tadd (linear (to_out_0 attn) hidden_states)
                     (tscale lora_scale (linear (to_out_lora p) hidden_states))
    | None => linear (to_out_0 attn) hidden_states
    end in
  Some (linear (to_out_1 attn) hidden_states).

(** Names for one batch entry of each path, used to compare them. *)
Definition scores (alpha : R) (q k : mat) : mat :=
  map (λ qrow, map (λ krow, alpha * dot qrow krow) k) q.

Definition fused_batch (alpha : R) (x : list (list xreal) * (mat * mat)) : option mat :=
  let '(b, (q, k)) := x in
  mapM (λ '(brow, qrow), fused_row alpha qrow k (Some brow)) (zip b q).

(** A row of weights that starts with a positive weight and has no negative
    one, as the rows built by an intercepted block do. *)
Definition leading_weight (w : list R) : Prop :=
  ∃ x r, w = x :: r ∧ 0 < x ∧ Forall (Rle 0) r.

(** A single-head attention module without LoRA whose projections are the
    identity, for concrete runs. *)
Definition plain_attention : Attention :=
  {| heads := 1; scale := 1;
     to_q := λ v, v; to_k := λ v, v; to_v := λ v, v;
     to_out_0 := λ v, v; to_out_1 := λ v, v;
     processor := None; norm_cross := false;
     norm_encoder_hidden_states := λ t, t;
     pad_attention_mask := λ m _ _, m |}.

End Attn.

(** ** Python outcomes and the state monad of the embedding *)

Module Py.

(** The exceptions the embedded code can raise. *)
Inductive exn :=
  | IndexError | ValueError | ZeroDivisionError | AttributeError
  | AssertionError | RecursionError | FileNotFoundError.

(** A call returns, raises, or (attention only) produces a tensor with inf
    or nan entries.  torch does not raise on those; the embedding stops at
    the first such tensor and claims nothing about what follows it. *)
Inductive outcome (A : Type) := Returns (a : A) | Raises (e : exn) | NonFinite.
Arguments Returns {A} a.
Arguments Raises {A} e.
Arguments NonFinite {A}.

(** Stateful code: a function of the state that gives an outcome and the
    state at that point. *)
Definition M (S A : Type) : Type := S → outcome A * S.

#[export] Instance M_ret {S} : MRet (M S) := λ A a st, (Returns a, st).
#[export] Instance M_bind {S} : MBind (M S) := λ A B f m st,
  match m st with
  | (Returns a, st') => f a st'
  | (Raises e, st') => (Raises e, st')
  | (NonFinite, st') => (NonFinite, st')
  end.

Definition raise {S A} (e : exn) : M S A := λ st, (Raises e, st).
Definition finite {S A} (o : option A) : M S A :=
  λ st, (match o with Some a => Returns a | None => NonFinite end, st).

(** [for x in l: f x]. *)
Fixpoint foreach {S A} (l : list A) (f : A → M S unit) : M S unit :=
  match l with
  | [] => mret ()
  | x :: l' => f x;; foreach l' f
  end.

End Py.

(** ** The feedback schedule (lines 263-273, 420-421, 437-442) *)

Module Schedule.
Local Open Scope R_scope.

(** Python's [round] of a float to an integer: the nearest integer, a tie
    goes to the even one.  Fractions of the schedule are rationals. *)
Definition py_round (x : Q) : Z :=
  let f := Qfloor x in
  match Qcompare (x - inject_Z f) (1 # 2) with
  | Lt => f
  | Gt => (f + 1)%Z
  | Eq => if Z.even f then f else (f + 1)%Z
  end.

(** [round(len(timesteps) * feedback_start)], [round(len(timesteps) * feedback_end)]. *)
Definition ref_idx (n_timesteps : nat) (fraction : Q) : Z :=
  py_round (inject_Z (Z.of_nat n_timesteps) * fraction).

(** Lines 437-440: the base weight of step [i]. *)
Definition step_weight (ref_start_idx ref_end_idx : Z) (i : nat)
    (min_weight max_weight : R) : R :=
  if ((ref_start_idx <=? Z.of_nat i)%Z && (Z.of_nat i <=? ref_end_idx)%Z)%bool
  then max_weight else min_weight.

(** Lines 441-442. *)
Definition pos_ws (weight pos_bottleneck_scale : R) : R * R :=
  (weight, weight * pos_bottleneck_scale).
Definition neg_ws (weight neg_scale neg_bottleneck_scale : R) : R * R :=
  (weight * neg_scale, weight * neg_scale * neg_bottleneck_scale).

(** [torch.linspace(a, b, steps)]. *)
Definition linspace (a b : R) (steps : nat) : list R :=
  match steps with
  | 0%nat => []
  | 1%nat => [a]
  | _ => map (λ i, a + INR i * ((b - a) / INR (steps - 1))) (seq 0 steps)
  end.

(** Lines 263-268: [torch.linspace] from [weights[0]] to [weights[1]] in
    [n_down + 1] steps, without its last entry. *)
Definition local_weights (weights : R * R) (n_down : nat) : list R :=
  let l := linspace weights.1 weights.2 (n_down + 1) in take (length l - 1) l.

(** [local + [weights[1]] + local[::-1]]: one weight per block, down
    blocks first, then the mid block, then the up blocks. *)
Definition block_weights (weights : R * R) (n_down : nat) : list R :=
  local_weights weights n_down ++ [weights.2] ++ reverse (local_weights weights n_down).

(** The linear ramp from [w.1] towards [w.2] over [n_down] blocks, at depth
    [k]; the theorems compare [block_weights] with it. *)
Definition ramp (w : R * R) (n_down k : nat) : R :=
  w.1 + INR k * ((w.2 - w.1) / INR n_down).

End Schedule.

(** ** [image_to_tensor] (lines 504-516) *)

Module Imaging.
Import Tensor Py.
Local Open Scope R_scope.

Abbreviation rgb := (Byte.byte * Byte.byte * Byte.byte)%type.

(** A PIL image: either of mode RGB, three 8-bit bands per pixel, or of
    another mode with its own raster. *)
Inductive image (raster : Type) :=
  | RGBImage (width height : nat) (px : nat → nat → rgb)
  | ModeImage (mode : string) (width height : nat) (data : raster).
Arguments RGBImage {raster} width height px.
Arguments ModeImage {raster} mode width height data.

(** What the file uses of PIL: [Image.open], [convert("RGB")] on an image
    of another mode, and [resize] on an RGB image. *)
Class PIL := {
  raster : Type;
  image_open : string → option (image raster);
  convert_rgb : string → nat → nat → raster → nat → nat → rgb;
  resize_rgb : nat → nat → (nat → nat → rgb) → nat * nat → nat → nat → rgb }.

Section ImageToTensor.
Context `{PIL}.

(** [image.convert("RGB")]. *)
Definition convert (im : image raster) : image raster :=
  match im with
  | RGBImage w h px => RGBImage w h px
  | ModeImage mode w h data => RGBImage w h (convert_rgb mode w h data)
  end.

Definition is_rgb (im : image raster) : bool :=
  match im with RGBImage _ _ _ => true | ModeImage _ _ _ _ => false end.

(** [image.resize(size)]; the file only resizes RGB images. *)
Definition resize (im : image raster) (size : nat * nat) : image raster :=
  match im with
  | RGBImage w h px => RGBImage size.1 size.2 (resize_rgb w h px size)
  | ModeImage mode w h data => ModeImage mode size.1 size.2 data
  end.

(** [np.array(image).astype(np.uint8)] of an RGB image: shape
    (height, width, 3). *)
Definition np_array (im : image raster) : list (list (list Byte.byte)) :=
  match im with
  | RGBImage w h px =>
      map (λ y, map (λ x, let '(r, g, b) := px x y in [r; g; b]) (seq 0 w)) (seq 0 h)
  | ModeImage _ _ _ _ => []
  end.

Definition uint8 (b : Byte.byte) : R := IZR (Z.of_N (Byte.to_N b)).

(** [permute(2, 0, 1)] of an array of shape (h, w, 3). *)
Definition permute_2_0_1 (a : tensor) : tensor :=
  map (λ c, map (map (λ pixel, nth c pixel 0)) a) (seq 0 3).

Definition image_to_tensor (image : string + image raster) : outcome tensor :=
  match (match image with
         | inl path => image_open path
         | inr im => Some im
         end) with
  | None => Raises FileNotFoundError
  | Some image =>
      let image := if negb (is_rgb image) then convert image else image in
      let image := resize image (512, 512)%nat in
      let image := np_array image in
      let image := map (map (map (λ v, uint8 v / 127.5 - 1.0))) image in
      Returns (permute_2_0_1 image)
  end.

(** The pixels of the image after [convert("RGB")] and [resize((512, 512))],
    one band of a pixel, and the tensor the specification describes. *)
Definition resized_rgb (im : image raster) : nat → nat → rgb :=
  match im with
  | RGBImage w h px => resize_rgb w h px (512, 512)%nat
  | ModeImage mode w h data => resize_rgb w h (convert_rgb mode w h data) (512, 512)%nat
  end.

Definition band (c : nat) (p : rgb) : Byte.byte :=
  let '(r, g, b) := p in match c with 0%nat => r | 1%nat => g | _ => b end.

Definition expected_tensor (im : image raster) : tensor :=
  map (λ c, map (λ y, map (λ x, uint8 (band c (resized_rgb im x y)) / 127.5 - 1.0)
                          (seq 0 512)) (seq 0 512)) (seq 0 3).

End ImageToTensor.
End Imaging.

(** ** The network and its instrumentation (lines 227-347) *)

Module Net.
Import Tensor Attn Py Schedule.
Local Open Scope R_scope.

(** A Python list object is a location of the heap. *)
Abbreviation loc := nat (only parsing).

(** What [module.attn1.forward] and [module.attn1.old_forward] can hold:
    the attention class's own [forward], or one of the two [new_forward]
    closures with the variables it captured. *)
Inductive callable :=
  | OrdinaryForward
  | CachingForward (cached_hidden_states : loc)
  | InjectingForward (cached_pos_hiddens cached_neg_hiddens : option loc)
      (pos_weight neg_weight : R).

(** One forward evaluation of the network, as far as this file sees it: it
    calls [attn1] of its transformer blocks, one after the other, on inputs
    that may depend on what the earlier calls returned, and ends with its
    output. *)
Inductive prog (A : Type) :=
  | Done (a : A)
  | CallAttn1 (m : nat) (hidden_states : tensor) (k : tensor → prog A).
Arguments Done {A} a.
Arguments CallAttn1 {A} m hidden_states k.

(** The network: its [BasicTransformerBlock]s, numbered, grouped as
    [block.modules()] finds them in [down_blocks], [mid_block] and
    [up_blocks] ([loose_blocks] are those of [unet.modules()] in none of
    the three), the attention module [attn1] of each, the class's own
    forward of that module, and the forward pass. *)
Record UNet := {
  down_blocks : list (list nat);
  mid_block : list nat;
  up_blocks : list (list nat);
  loose_blocks : list nat;
  attn1 : nat → Attention;
  attn1_forward : nat → tensor → tensor;
  unet_forward : mat → R → tensor → prog mat }.

(** The transformer blocks of [unet.modules()]. *)
Definition modules (unet : UNet) : list nat :=
  concat (down_blocks unet) ++ mid_block unet ++ concat (up_blocks unet)
  ++ loose_blocks unet.

(** The instance dictionaries of the [attn1] modules and the list objects. *)
Record state := {
  attrs : gmap nat (gmap string callable);
  heap : gmap loc (list tensor) }.

Definition instance_dict (m : nat) (st : state) : gmap string callable :=
  default ∅ (attrs st !! m).

(** [module.attn1.forward]: the instance attribute if there is one, the
    method of the class otherwise. *)
Definition forward_of (m : nat) (st : state) : callable :=
  default OrdinaryForward (instance_dict m st !! "forward").

Definition getattr_forward (m : nat) : M state callable :=
  λ st, (Returns (forward_of m st), st).

(** [module.attn1.old_forward] exists only as an instance attribute. *)
Definition getattr_old_forward (m : nat) : M state callable :=
  λ st, match instance_dict m st !! "old_forward" with
        | Some c => (Returns c, st)
        | None => (Raises AttributeError, st)
        end.

Definition setattr (m : nat) (name : string) (c : callable) : M state unit :=
  λ st, (Returns (),
         {| attrs := <[m := <[name := c]> (instance_dict m st)]> (attrs st);
            heap := heap st |}).

Definition delattr (m : nat) (name : string) : M state unit :=
  λ st, match instance_dict m st !! name with
        | Some _ =>
            (Returns (),
             {| attrs := <[m := delete name (instance_dict m st)]> (attrs st);
                heap := heap st |})
        | None => (Raises AttributeError, st)
        end.

(** List objects; a location that was never allocated reads as the empty
    list. *)
Definition list_at (l : loc) (st : state) : list tensor := default [] (heap st !! l).

Definition list_new (content : list tensor) : M state loc :=
  λ st, let l := fresh (dom (heap st)) in
        (Returns l, {| attrs := attrs st; heap := <[l := content]> (heap st) |}).

Definition list_append (l : loc) (x : tensor) : M state unit :=
  λ st, (Returns (),
         {| attrs := attrs st; heap := <[l := list_at l st ++ [x]]> (heap st) |}).

Definition list_read (l : loc) : M state (list tensor) :=
  λ st, (Returns (list_at l st), st).

(** [l.pop(0)]. *)
Definition list_pop0 (l : loc) : M state tensor :=
  λ st, match list_at l st with
        | [] => (Raises IndexError, st)
        | x :: rest =>
            (Returns x, {| attrs := attrs st; heap := <[l := rest]> (heap st) |})
        end.

(** [a, b = x.chunk(2, dim=0)]: chunks of [ceil(n / 2)] entries; a batch
    of one entry gives a single chunk and the unpacking fails. *)
Definition chunk2 {A S} (x : list A) : M S (list A * list A) :=
  if decide (length x = 1%nat) then raise ValueError
  else mret (take ((length x + 1) / 2) x, drop ((length x + 1) / 2) x).

(** Python's [a // b] on non-negative integers. *)
Definition floordiv {S} (a b : nat) : M S nat :=
  if decide (b = 0%nat) then raise ZeroDivisionError else mret (a / b)%nat.

(** [torch.ones(b, d)], [w.repeat(1, r)] and [w[:, d:] = x]. *)
Definition ones (b d : nat) : list (list R) := replicate b (replicate d 1).
Definition repeat_cols (r : nat) (w : list (list R)) : list (list R) :=
  map (λ row, concat (replicate r row)) w.
Definition fill_from (d : nat) (x : R) (w : list (list R)) : list (list R) :=
  map (λ row, take d row ++ replicate (length row - d) x) w.

Section Passes.
Variable has_xformers : bool.
Variable unet : UNet.
(** How many nested calls Python allows. *)
Variable recursion_limit : nat.

(** Lines 232-234. *)
Definition caching_new_forward (cached_hidden_states : loc)
    (old_forward : tensor → M state tensor) (hidden_states : tensor) : M state tensor :=
  list_append cached_hidden_states hidden_states;;
  old_forward hidden_states.

(** Lines 293-311 and 313-331: one half of the batch. *)
Definition inject_half (self : nat) (old_forward : tensor → M state tensor)
    (cached_hiddens : option loc) (hiddens : tensor) (weights : list (list R))
    (d_model : nat) (weight : R) : M state tensor :=
  match cached_hiddens with
  | Some l =>
      cached_hs ← list_pop0 l;
      let cat_hs := cat1 hiddens cached_hs in
      r ← floordiv (size1 cached_hs) d_model;
      let half_weights := fill_from d_model weight (repeat_cols (1 + r) weights) in
      finite (attn_with_weights has_xformers (attn1 unet self) hiddens (Some cat_hs)
                None (Some half_weights) 1)
  | None => old_forward hiddens
  end.

(** Lines 278-334. *)
Definition injecting_new_forward (cached_pos_hiddens cached_neg_hiddens : option loc)
    (self : nat) (old_forward : tensor → M state tensor) (hidden_states : tensor)
    (pos_weight neg_weight : R) : M state tensor :=
  '(cond_hiddens, uncond_hiddens) ← chunk2 hidden_states;
  let batch_size := size0 cond_hiddens in
  let d_model := size1 cond_hiddens in
  let weights := ones batch_size d_model in
  out_pos ← inject_half self old_forward cached_pos_hiddens cond_hiddens weights
              d_model pos_weight;
  out_neg ← inject_half self old_forward cached_neg_hiddens uncond_hiddens weights
              d_model neg_weight;
  mret (cat0 out_pos out_neg).

(** Calling what an attribute holds; [self.old_forward] is looked up when
    the closure reaches it. *)
Fixpoint call (depth : nat) (self : nat) (c : callable) (hidden_states : tensor)
    : M state tensor :=
  match depth with
  | 0%nat => raise RecursionError
  | S depth =>
      let old_forward x := c' ← getattr_old_forward self; call depth self c' x in
      match c with
      | OrdinaryForward => mret (attn1_forward unet self hidden_states)
      | CachingForward l => caching_new_forward l old_forward hidden_states
      | InjectingForward p n pos_weight neg_weight =>
          injecting_new_forward p n self old_forward hidden_states pos_weight neg_weight
      end
  end.

(** [self.unet(...)]: every [attn1] call goes through the [forward]
    attribute of its module. *)
Fixpoint run {A} (p : prog A) : M state A :=
  match p with
  | Done a => mret a
  | CallAttn1 m hidden_states k =>
      c ← getattr_forward m;
      r ← call recursion_limit m c hidden_states;
      run (k r)
  end.

(** Lines 236-237 and 336-337. *)
Definition patch (new_forward : callable) (m : nat) : M state unit :=
  old ← getattr_forward m;
  setattr m "old_forward" old;;
  setattr m "forward" new_forward.

(** Lines 245-246 and 344-345. *)
Definition restore (m : nat) : M state unit :=
  old ← getattr_old_forward m;
  setattr m "forward" old;;
  delattr m "old_forward".

Definition get_unet_hidden_states (z_all : mat) (t : R) (prompt_embd : tensor)
    : M state loc :=
  cached_hidden_states ← list_new [];
  foreach (modules unet) (patch (CachingForward cached_hidden_states));;
  _ ← run (unet_forward unet z_all t prompt_embd);
  foreach (modules unet) restore;;
  mret cached_hidden_states.

(** Lines 270-274: the blocks with the weights [zip] pairs them with. *)
Definition weighted_blocks (pos_weights neg_weights : R * R)
    : list (list nat * (R * R)) :=
  zip (down_blocks unet ++ [mid_block unet] ++ up_blocks unet)
      (zip (block_weights pos_weights (length (down_blocks unet)))
           (block_weights neg_weights (length (down_blocks unet)))).

Definition unet_forward_with_cached_hidden_states (z_all : mat) (t : R)
    (prompt_embd : tensor) (cached_pos_hiddens cached_neg_hiddens : option loc)
    (pos_weights neg_weights : R * R) : M state mat :=
  match cached_pos_hiddens, cached_neg_hiddens with
  | None, None => run (unet_forward unet z_all t prompt_embd)
  | _, _ =>
      foreach (weighted_blocks pos_weights neg_weights)
        (λ '(block, (pos_weight, neg_weight)),
           foreach block
             (patch (InjectingForward cached_pos_hiddens cached_neg_hiddens
                       pos_weight neg_weight)));;
      out ← run (unet_forward unet z_all t prompt_embd);
      foreach (modules unet) restore;;
      mret out
  end.

(** The forward pass with every [attn1] call answered by the class's own
    forward: the network without instrumentation. *)
Fixpoint plain_run {A} (p : prog A) : A :=
  match p with
  | Done a => a
  | CallAttn1 m hidden_states k => plain_run (k (attn1_forward unet m hidden_states))
  end.

End Passes.

(** [module.attn1.old_forward], if the attribute exists. *)
Definition old_forward_of (m : nat) (st : state) : option callable :=
  instance_dict m st !! "old_forward".

(** No pass is in progress: no module carries an [old_forward]. *)
Definition clean (st : state) : Prop := ∀ m, old_forward_of m st = None.

(** In the middle of a pass that started in [st0]: the modules of [P] keep
    their former [forward] in [old_forward], the others are untouched. *)
Definition patched_from (st0 : state) (P : list nat) (st : state) : Prop :=
  (∀ m, m ∈ P → old_forward_of m st = Some (forward_of m st0))
  ∧ (∀ m, m ∉ P → instance_dict m st = instance_dict m st0).

(** Every module's [forward] is what it was in [st], and no [old_forward]
    is left behind. *)
Definition restored (st st' : state) : Prop :=
  (∀ m, forward_of m st' = forward_of m st) ∧ clean st'.

End Net.

(** ** Small concrete instances for runs of the model *)

Module Toy.
Import Tensor Attn Py Net Imaging.
Local Open Scope R_scope.

(** One transformer block in each of a down block, the mid block and an up
    block; the forward pass visits block 0 with a batch of two, then blocks
    1 and 2 with what the block before returned. *)
Definition toy_unet : UNet :=
  {| down_blocks := [[0%nat]]; mid_block := [1%nat]; up_blocks := [[2%nat]];
     loose_blocks := [];
     attn1 := λ _, plain_attention;
     attn1_forward := λ _ h, h;
     unet_forward := λ z _ _,
       CallAttn1 0 [[[0]]; [[0]]] (λ r0,
       CallAttn1 1 r0 (λ r1,
       CallAttn1 2 r1 (λ _, Done z))) |}.

(** An interpreter state in which no module carries an attribute and the
    list object 0 is empty. *)
Definition fresh_state : state := {| attrs := ∅; heap := {[ 0%nat := [] ]} |}.

(** A state in which block 0 is patched for an injection pass. *)
Definition patched_state : state :=
  {| attrs := {[ 0%nat := {[ "old_forward" := OrdinaryForward ]} ]};
     heap := {[ 0%nat := [] ]} |}.

(** A state whose list objects 0 and 1 hold one cached tensor each. *)
Definition cached_state : state :=
  {| attrs := ∅; heap := {[ 0%nat := [[[[0]]]]; 1%nat := [[[[0]]]] ]} |}.

(** A PIL whose files do not exist, whose conversion gives black and whose
    resize samples the top-left pixel. *)
#[export] Instance toy_pil : PIL :=
  {| raster := unit;
     image_open := λ _, None;
     convert_rgb := λ _ _ _ _ _ _, (Byte.x00, Byte.x00, Byte.x00);
     resize_rgb := λ _ _ px _ _ _, px 0%nat 0%nat |}.

End Toy.

(** ** [generate] (lines 203-225, 349-502) *)

Module Generate.
Import Tensor Attn Py Schedule Imaging Net.
Local Open Scope R_scope.

(** Calls into torch and the pipeline that compute on tensors, in the
    order they happen. *)
Inductive event :=
  | EvManualSeed
  | EvRandn (batch : nat)
  | EvImageToTensor
  | EvVaeEncode (batch : nat)
  | EvTextEncode (batch : nat)
  | EvSetTimesteps
  | EvScaleModelInput
  | EvAddNoise
  | EvUNet
  | EvSchedulerStep
  | EvDecode.

(** The collaborators of [AttentionBasedGenerator]: torch's random
    generator, the VAE, the tokenizer and text encoder, the scheduler, the
    network and the decoder. *)
Class Pipeline := {
  pil :: PIL;
  rng : Type;
  scheduler : Type;
  token_ids : Type;
  token_mask : Type;
  ndarray : Type;
  has_xformers : bool;
  recursion_limit : nat;
  unet : UNet;
  manual_seed : Z → rng;
  randn : nat → nat → rng → mat * rng;
  vae_scaling_factor : R;
  vae_encode_sample : list tensor → rng → mat * rng;
  tokenizer : list string → token_ids * token_mask;
  use_attention_mask : option bool;
  text_encoder : token_ids → option token_mask → tensor;
  set_timesteps : nat → scheduler → scheduler;
  timesteps : scheduler → list R;
  init_noise_sigma : scheduler → R;
  order : scheduler → nat;
  sigma_t : scheduler → option (R → R);
  sigmas : scheduler → option (nat → R);
  is_euler_ancestral : bool;
  scale_model_input : mat → R → scheduler → mat * scheduler;
  add_noise : mat → mat → R → scheduler → mat;
  scheduler_step : mat → R → mat → scheduler → rng → mat * scheduler * rng;
  decode_latents : mat → ndarray;
  numpy_to_pil : ndarray → list (image raster) }.

(** [x < y] on floats, as a test. *)
Definition rltb (x y : R) : bool := if Rlt_dec x y then true else false.

(** Element-wise arithmetic on a batch of flattened latents. *)
Definition madd (a b : mat) : mat := zip_with vadd a b.
Definition msub (a b : mat) : mat := zip_with (zip_with Rminus) a b.
Definition mscale (c : R) (a : mat) : mat := map (vscale c) a.

Section WithPipeline.
Context `{Pipeline}.

(** The arguments of [generate]. *)
Record args := {
  prompt : string + list string;
  negative_prompt : string + list string;
  liked : list (string + image raster);
  disliked : list (string + image raster);
  seed : option Z;
  n_images : nat;
  guidance_scale : R;
  denoising_steps : nat;
  feedback_start : Q;
  feedback_end : Q;
  min_weight : R;
  max_weight : R;
  neg_scale : R;
  pos_bottleneck_scale : R;
  neg_bottleneck_scale : R }.

(** The state: the modules and list objects, torch's generator, the
    scheduler object, the progress bar, and the calls made so far. *)
Record gstate := {
  net : Net.state;
  gen : rng;
  sched : scheduler;
  pbar : nat;
  trace : list event }.

Definition log (e : event) (st : gstate) : gstate :=
  {| net := net st; gen := gen st; sched := sched st; pbar := pbar st;
     trace := trace st ++ [e] |}.

(** A computation on the modules and lists, inside [generate]. *)
Definition zoom {A} (m : M Net.state A) : M gstate A :=
  λ st, let '(o, s) := m (net st) in
        (o, {| net := s; gen := gen st; sched := sched st; pbar := pbar st;
               trace := trace st |}).

Definition torch_manual_seed (s : Z) : M gstate unit :=
  λ st, (Returns (),
         log EvManualSeed
           {| net := net st; gen := manual_seed s; sched := sched st; pbar := pbar st;
              trace := trace st |}).

Definition torch_randn (n d : nat) : M gstate mat :=
  λ st, let '(x, g) := randn n d (gen st) in
        (Returns x,
         log (EvRandn n)
           {| net := net st; gen := g; sched := sched st; pbar := pbar st;
              trace := trace st |}).

Definition with_sched {A} (e : event) (f : scheduler → A * scheduler) : M gstate A :=
  λ st, let '(x, s) := f (sched st) in
        (Returns x,
         log e {| net := net st; gen := gen st; sched := s; pbar := pbar st;
                  trace := trace st |}).

Definition read_sched {A} (f : scheduler → A) : M gstate A :=
  λ st, (Returns (f (sched st)), st).

Definition emit (e : event) : M gstate unit := λ st, (Returns (), log e st).

Definition pbar_update : M gstate unit :=
  λ st, (Returns (),
         {| net := net st; gen := gen st; sched := sched st; pbar := S (pbar st);
            trace := trace st |}).

Definition assert (b : bool) : M gstate unit :=
  if b then mret () else raise AssertionError.

(** [self.image_to_tensor(img)]. *)
Definition to_tensor (img : string + image raster) : M gstate tensor :=
  λ st, (image_to_tensor img, log EvImageToTensor st).

Fixpoint for_each {A B} (l : list A) (f : A → M gstate B) : M gstate (list B) :=
  match l with
  | [] => mret []
  | x :: l' => y ← f x; ys ← for_each l' f; mret (y :: ys)
  end.

(** [self.vae.encode(images).latent_dist.sample()]. *)
Definition vae_sample (tensors : list tensor) : M gstate mat :=
  λ st, let '(sample, g) := vae_encode_sample tensors (gen st) in
        (Returns sample,
         log (EvVaeEncode (length tensors))
           {| net := net st; gen := g; sched := sched st; pbar := pbar st;
              trace := trace st |}).

(** Lines 377-385 and 387-395: the latents of the reference images, the
    empty tensor when there are none. *)
Definition encode_references (images : list (string + image raster)) : M gstate mat :=
  match images with
  | [] => mret []
  | _ =>
      tensors ← for_each images to_tensor;
      sample ← vae_sample tensors;
      mret (mscale vae_scaling_factor sample)
  end.

(** Lines 203-225. *)
Definition initialize_prompts (prompts : list string) : M gstate tensor :=
  let prompt_tokens := tokenizer prompts in
  let attention_mask :=
    match use_attention_mask with
    | Some true => Some prompt_tokens.2
    | _ => None
    end in
  emit (EvTextEncode (length prompts));;
  mret (text_encoder prompt_tokens.1 attention_mask).

(** Lines 397-404, for [prompt] and for [negative_prompt]. *)
Definition prompt_list (p : string + list string) (n_images : nat) : M gstate (list string) :=
  match p with
  | inl s => mret (replicate n_images s)
  | inr l => assert (bool_decide (length l = n_images));; mret l
  end.

(** Lines 425-431. *)
Definition step_sigma (i : nat) (t : R) : M gstate R :=
  read_sched (λ s, match sigma_t s with
                   | Some f => f t
                   | None => match sigmas s with Some g => g i | None => 0 end
                   end).

(** Lines 445-475: noise the reference latents, cache their hidden states
    and arrange them per requested image. *)
Definition reference_caches (a : args) (t alpha_hat : R) (pos_latents neg_latents : mat)
    (null_prompt_emb : tensor) : M gstate (option nat * option nat) :=
  let z_ref := pos_latents ++ neg_latents in
  noise ← torch_randn (length z_ref) (match z_ref with [] => 0%nat | x :: _ => length x end);
  z_ref_noised ←
    (if is_euler_ancestral
     then mret (madd (mscale (sqrt alpha_hat) z_ref) (mscale (sqrt (1 - alpha_hat)) noise))
     else with_sched EvAddNoise (λ s, (add_noise z_ref noise t s, s)));
  let ref_prompt_embd :=
    concat (replicate (length pos_latents + length neg_latents) null_prompt_emb) in
  cached_hidden_states ←
    emit EvUNet;;
    zoom (get_unet_hidden_states has_xformers unet recursion_limit z_ref_noised t
            ref_prompt_embd);
  let n_pos := length pos_latents in
  let n_neg := length neg_latents in
  cached ← zoom (list_read cached_hidden_states);
  let cached_pos :=
    map (λ hs : tensor, replicate (n_images a) (concat (take n_pos hs))) cached in
  let cached_neg :=
    map (λ hs : tensor, replicate (n_images a) (concat (drop n_pos hs))) cached in
  cached_pos_hs ← zoom (list_new cached_pos);
  cached_neg_hs ← zoom (list_new cached_neg);
  mret (if decide (n_pos = 0%nat) then None else Some cached_pos_hs,
        if decide (n_neg = 0%nat) then None else Some cached_neg_hs).

(** [self.scheduler.step(noise_pred, t, z).prev_sample]. *)
Definition step_scheduler (noise_pred : mat) (t : R) (z : mat) : M gstate mat :=
  λ st, let '(z', s, g) := scheduler_step noise_pred t z (sched st) (gen st) in
        (Returns z',
         log EvSchedulerStep
           {| net := net st; gen := g; sched := s; pbar := pbar st; trace := trace st |}).

(** Lines 489-492: classifier-free guidance and the scheduler step. *)
Definition guide_and_step (a : args) (t : R) (z unet_out : mat) : M gstate mat :=
  '(noise_cond, noise_uncond) ← chunk2 unet_out;
  let guidance := msub noise_cond noise_uncond in
  let noise_pred := madd noise_uncond (mscale (guidance_scale a) guidance) in
  step_scheduler noise_pred t z.

(** Lines 494-497. *)
Definition report_progress (i n_timesteps : nat) (num_warmup_steps : Z) : M gstate unit :=
  if bool_decide (i = (n_timesteps - 1)%nat) then pbar_update
  else if bool_decide (num_warmup_steps < Z.of_nat (i + 1))%Z then
    o ← read_sched order;
    if bool_decide (o = 0%nat) then raise ZeroDivisionError
    else if bool_decide (((i + 1) mod o)%nat = 0%nat) then pbar_update else mret ()
  else mret ().

(** Lines 425-497: the body of the loop at step [i], timestep [t]. *)
Definition denoising_step (a : args) (n_timesteps : nat) (num_warmup_steps : Z)
    (ref_start_idx ref_end_idx : Z) (pos_latents neg_latents : mat)
    (batched_prompt_embd null_prompt_emb : tensor) (i : nat) (t : R) (z : mat)
    : M gstate mat :=
  sigma ← step_sigma i t;
  let alpha_hat := 1 / (sigma * sigma + 1) in
  z_single ← with_sched EvScaleModelInput (scale_model_input z t);
  let z_all := z_single ++ z_single in
  let z_ref := pos_latents ++ neg_latents in
  let weight := step_weight ref_start_idx ref_end_idx i (min_weight a) (max_weight a) in
  let pos_ws := pos_ws weight (pos_bottleneck_scale a) in
  let neg_ws := neg_ws weight (neg_scale a) (neg_bottleneck_scale a) in
  '(cached_pos_hs, cached_neg_hs) ←
    (if (bool_decide (0 < length z_ref)%nat && rltb 0 weight)%bool
     then reference_caches a t alpha_hat pos_latents neg_latents null_prompt_emb
     else mret (None, None));
  unet_out ←
    emit EvUNet;;
    zoom (unet_forward_with_cached_hidden_states has_xformers unet recursion_limit
            z_all t batched_prompt_embd cached_pos_hs cached_neg_hs pos_ws neg_ws);
  z ← guide_and_step a t z unet_out;
  report_progress i n_timesteps num_warmup_steps;;
  mret z.

(** [for i, t in enumerate(timesteps)] with the latents carried along. *)
Fixpoint enumerate_from (body : nat → R → mat → M gstate mat) (i : nat) (ts : list R)
    (z : mat) : M gstate mat :=
  match ts with
  | [] => mret z
  | t :: ts' => z' ← body i t z; enumerate_from body (S i) ts' z'
  end.

(** Lines 406-421 and the loop, shared by every way of sampling: encode
    the prompts, set up the scheduler, iterate [step], decode. *)
Definition sample_with (a : args) (z : mat) (prompt negative_prompt : list string)
    (step : nat → Z → Z → Z → tensor → tensor → nat → R → mat → M gstate mat)
    : M gstate (list (image raster)) :=
  embs ← initialize_prompts (prompt ++ negative_prompt ++ [""]);
  let cond_prompt_embs := take (n_images a) embs in
  let uncond_prompt_embs := take (n_images a) (drop (n_images a) embs) in
  let null_prompt_emb := take 1 (drop (n_images a + n_images a) embs) in
  let batched_prompt_embd := cond_prompt_embs ++ uncond_prompt_embs in
  with_sched EvSetTimesteps (λ s, ((), set_timesteps (denoising_steps a) s));;
  ts ← read_sched timesteps;
  sigma0 ← read_sched init_noise_sigma;
  let z := mscale sigma0 z in
  o ← read_sched order;
  let num_warmup_steps := (Z.of_nat (length ts) - Z.of_nat (denoising_steps a * o))%Z in
  let ref_start_idx := ref_idx (length ts) (feedback_start a) in
  let ref_end_idx := ref_idx (length ts) (feedback_end a) in
  z ← enumerate_from
         (step (length ts) num_warmup_steps ref_start_idx ref_end_idx
               batched_prompt_embd null_prompt_emb) 0 ts z;
  emit EvDecode;;
  mret (numpy_to_pil (decode_latents z)).

(** Lines 372-404: what happens before the prompts are encoded. *)
Definition seed_and_sample (a : args) : M gstate mat :=
  match seed a with Some s => torch_manual_seed s | None => mret () end;;
  torch_randn (n_images a) (4 * 64 * 64).

Definition generate (a : args) : M gstate (list (image raster)) :=
  z ← seed_and_sample a;
  pos_latents ← encode_references (liked a);
  neg_latents ← encode_references (disliked a);
  prompt ← prompt_list (prompt a) (n_images a);
  negative_prompt ← prompt_list (negative_prompt a) (n_images a);
  sample_with a z prompt negative_prompt
    (λ n_timesteps num_warmup_steps ref_start_idx ref_end_idx batched_prompt_embd
       null_prompt_emb,
       denoising_step a n_timesteps num_warmup_steps ref_start_idx ref_end_idx
         pos_latents neg_latents batched_prompt_embd null_prompt_emb).

(** *** The loop without its reference branch

    Lines 425-497 with the branch of line 445 left out: at every step the
    network is called directly on the doubled batch, the two halves of its
    output are combined by guidance, and the scheduler advances the
    latents. *)
Definition plain_cfg_step (a : args) (n_timesteps : nat) (num_warmup_steps : Z)
    (batched_prompt_embd : tensor) (i : nat) (t : R) (z : mat) : M gstate mat :=
  z_single ← with_sched EvScaleModelInput (scale_model_input z t);
  unet_out ←
    emit EvUNet;;
    zoom (run has_xformers unet recursion_limit
            (unet_forward unet (z_single ++ z_single) t batched_prompt_embd));
  z ← guide_and_step a t z unet_out;
  report_progress i n_timesteps num_warmup_steps;;
  mret z.

Definition plain_cfg_sampling (a : args) : M gstate (list (image raster)) :=
  z ← seed_and_sample a;
  prompt ← prompt_list (prompt a) (n_images a);
  negative_prompt ← prompt_list (negative_prompt a) (n_images a);
  sample_with a z prompt negative_prompt
    (λ n_timesteps num_warmup_steps _ _ batched_prompt_embd _,
       plain_cfg_step a n_timesteps num_warmup_steps batched_prompt_embd).

(** *** What happens before the lengths of the prompt lists are checked *)

(** Lines 372-395. *)
Definition before_prompt_check (a : args) : M gstate unit :=
  seed_and_sample a;;
  encode_references (liked a);;
  encode_references (disliked a);;
  mret ().

(** A prompt list or a negative-prompt list whose length is not the number
    of requested images. *)
Definition prompts_mismatch (a : args) : Prop :=
  (∃ l, prompt a = inr l ∧ length l ≠ n_images a)
  ∨ (∃ l, negative_prompt a = inr l ∧ length l ≠ n_images a).

(** The calls made before the check: seeding, sampling the latents,
    converting and encoding the reference images. *)
Definition early_event (e : event) : Prop :=
  match e with
  | EvManualSeed | EvRandn _ | EvImageToTensor | EvVaeEncode _ => True
  | _ => False
  end.

(** A computation that only adds early events to the trace. *)
Definition early {A} (m : M gstate A) : Prop :=
  ∀ st, ∃ evs, trace (m st).2 = trace st ++ evs ∧ Forall early_event evs.

End WithPipeline.
End Generate.

(** ** A concrete pipeline for runs of [generate] *)

Module ToyPipeline.
Import Tensor Attn Py Schedule Imaging Net Generate Toy.
Local Open Scope R_scope.

(** A pipeline on the three-block network whose generator, scheduler and
    encoders carry no information; [randn] gives [n] empty latents. *)
#[export] Instance toy_pipeline : Pipeline :=
  {| pil := toy_pil;
     rng := unit; scheduler := unit; token_ids := unit; token_mask := unit;
     ndarray := unit;
     has_xformers := false;
     recursion_limit := 2;
     unet := toy_unet;
     manual_seed := λ _, ();
     randn := λ n _ g, (replicate n [], g);
     vae_scaling_factor := 1;
     vae_encode_sample := λ ts g, (map (λ _, []) ts, g);
     tokenizer := λ _, ((), ());
     use_attention_mask := None;
     text_encoder := λ _ _, [];
     set_timesteps := λ _ s, s;
     timesteps := λ _, [];
     init_noise_sigma := λ _, 1;
     order := λ _, 1%nat;
     sigma_t := λ _, None;
     sigmas := λ _, None;
     is_euler_ancestral := true;
     scale_model_input := λ z _ s, (z, s);
     add_noise := λ z _ _ _, z;
     scheduler_step := λ _ _ z s g, (z, s, g);
     decode_latents := λ _, ();
     numpy_to_pil := λ _, [] |}.

(** Three prompts for two requested images, no reference images. *)
Definition three_prompts : args :=
  {| prompt := inr ["a"; "b"; "c"]%string;
     negative_prompt := inl ""%string;
     liked := []; disliked := [];
     seed := Some 42%Z;
     n_images := 2;
     guidance_scale := 8;
     denoising_steps := 20;
     feedback_start := 33 # 100; feedback_end := 66 # 100;
     min_weight := 1 / 10; max_weight := 1;
     neg_scale := 1 / 2;
     pos_bottleneck_scale := 1; neg_bottleneck_scale := 1 |}.

(** The default call: one prompt for one image, no reference images. *)
Definition default_call : args :=
  {| prompt := inl "a photo of an astronaut riding a horse on mars"%string;
     negative_prompt := inl ""%string;
     liked := []; disliked := [];
     seed := Some 42%Z;
     n_images := 1;
     guidance_scale := 8;
     denoising_steps := 20;
     feedback_start := 33 # 100; feedback_end := 66 # 100;
     min_weight := 1 / 10; max_weight := 1;
     neg_scale := 1 / 2;
     pos_bottleneck_scale := 1; neg_bottleneck_scale := 1 |}.

Definition initial_state : gstate :=
  {| net := fresh_state; gen := (); sched := (); pbar := 0; trace := [] |}.

End ToyPipeline.

(** ** [apply_unet_lora_weights] (lines 24-55) *)

Module Lora.
Import Py.

(** The function can fail with exceptions of [Py] and with the error of
    reading a local variable that no branch has assigned. *)
Inductive error := Builtin (e : exn) | UnboundLocalError.

Inductive result (A : Type) := Ok (a : A) | Err (e : error).
Arguments Ok {A} a.
Arguments Err {A} e.

#[export] Instance result_ret : MRet result := λ A a, Ok a.
#[export] Instance result_bind : MBind result := λ A B f m,
  match m with Ok a => f a | Err e => Err e end.

(** [s.startswith(prefix)] and [s.endswith(suffix)]. *)
Definition startswith (s prefix : string) : bool := String.prefix prefix s.
Definition endswith (s suffix : string) : bool :=
  (String.length suffix <=? String.length s)%nat
  && String.eqb (substring (String.length s - String.length suffix)
                           (String.length suffix) s) suffix.

(** [name[i]], [int(c)] of one character, [l[i]] and [l[-1]]. *)
Definition char_at (name : string) (i : nat) : result Ascii.ascii :=
  match String.get i name with
  | Some c => Ok c
  | None => Err (Builtin IndexError)
  end.

Definition int (c : Ascii.ascii) : result nat :=
  let n := Ascii.nat_of_ascii c in
  if ((48 <=? n)%nat && (n <=? 57)%nat)%bool then Ok (n - 48)%nat
  else Err (Builtin ValueError).

Definition item {A} (l : list A) (i : nat) : result A :=
  match l !! i with Some x => Ok x | None => Err (Builtin IndexError) end.

Definition last_item {A} (l : list A) : result A :=
  match last l with Some x => Ok x | None => Err (Builtin IndexError) end.

(** [unet.config], as far as the function reads it. *)
Record UNetConfig := {
  cross_attention_dim : nat;
  block_out_channels : list nat }.

(** [LoRACrossAttnProcessor(hidden_size=, cross_attention_dim=, rank=)]. *)
Record LoRACrossAttnProcessor := {
  proc_hidden_size : nat;
  proc_cross_attention_dim : option nat;
  proc_rank : nat }.

(** A tensor of the state dict is read through its shape only; [v.size(0)]
    of a tensor without dimensions raises. *)
Definition size (v : list nat) (dim : nat) : result nat := item v dim.

(** Lines 28-30: [v.size(0)] of the entries whose key ends with
    ["down.weight"]. *)
Fixpoint down_weight_ranks (model_weight : list (string * list nat)) : result (list nat) :=
  match model_weight with
  | [] => Ok []
  | (k, v) :: items =>
      if endswith k "down.weight" then
        r ← size v 0; rs ← down_weight_ranks items; Ok (r :: rs)
      else down_weight_ranks items
  end.

(** Lines 28-32: [list(set(...))], the assertion and [lora_rank[0]]. *)
Definition lora_rank_of (model_weight : list (string * list nat)) : result nat :=
  ranks ← down_weight_ranks model_weight;
  match remove_dups ranks with
  | [lora_rank] => Ok lora_rank
  | _ => Err (Builtin AssertionError)
  end.

(** Lines 39-46: the [if]/[elif] chain; a name with none of the three
    prefixes leaves [hidden_size] as the iteration before left it. *)
Definition assign_hidden_size (config : UNetConfig) (name : string)
    (hidden_size : option nat) : result (option nat) :=
  if startswith name "mid_block" then
    h ← last_item (block_out_channels config); Ok (Some h)
  else if startswith name "up_blocks" then
    c ← char_at name (String.length "up_blocks.");
    block_id ← int c;
    h ← item (reverse (block_out_channels config)) block_id; Ok (Some h)
  else if startswith name "down_blocks" then
    c ← char_at name (String.length "down_blocks.");
    block_id ← int c;
    h ← item (block_out_channels config) block_id; Ok (Some h)
  else Ok hidden_size.

(** Lines 33-52: the loop over [unet.attn_processors.keys()], with the
    dictionary built so far and the local variable [hidden_size]. *)
Fixpoint attn_procs_loop (config : UNetConfig) (lora_rank : nat) (names : list string)
    (lora_attn_procs : gmap string LoRACrossAttnProcessor) (hidden_size : option nat)
    : result (gmap string LoRACrossAttnProcessor) :=
  match names with
  | [] => Ok lora_attn_procs
  | name :: names =>
      let cross_attention_dim :=
        if endswith name "attn1.processor" then None
        else Some (cross_attention_dim config) in
      hidden_size ← assign_hidden_size config name hidden_size;
      h ← match hidden_size with Some h => Ok h | None => Err UnboundLocalError end;
      attn_procs_loop config lora_rank names
        (<[name := {| proc_hidden_size := h;
                      proc_cross_attention_dim := cross_attention_dim;
                      proc_rank := lora_rank |}]> lora_attn_procs)
        hidden_size
  end.

(** The dictionary handed to [unet.set_attn_processor]; [model_weight] is
    what [torch.load(unet_path)] gave and [attn_processors] the keys of
    [unet.attn_processors]. *)
Definition apply_unet_lora_weights (config : UNetConfig) (attn_processors : list string)
    (model_weight : list (string * list nat))
    : result (gmap string LoRACrossAttnProcessor) :=
  lora_rank ← lora_rank_of model_weight;
  attn_procs_loop config lora_rank attn_processors ∅ None.

(** The configuration of Stable Diffusion 1.5, three of its attention
    layers and a state dict of rank 4. *)
Definition sd15_config : UNetConfig :=
  {| cross_attention_dim := 768; block_out_channels := [320; 640; 1280; 1280] |}.

Definition sd15_names : list string :=
  ["down_blocks.0.attentions.0.transformer_blocks.0.attn1.processor";
   "mid_block.attentions.0.transformer_blocks.0.attn2.processor";
   "up_blocks.3.attentions.2.transformer_blocks.0.attn1.processor"]%string.

Definition rank4_weights : list (string * list nat) :=
  [("down_blocks.0.attentions.0.transformer_blocks.0.attn1.processor.to_q_lora.down.weight",
    [4; 320]);
   ("down_blocks.0.attentions.0.transformer_blocks.0.attn1.processor.to_q_lora.up.weight",
    [320; 4])]%string.

End Lora.

(** ** What the caching pass is expected to record *)

Module PassTrace.
Import Tensor Attn Py Net.
Local Open Scope R_scope.

(** The hidden states that the forward pass without instrumentation hands
    to [attn1] of the modules of [L], in the order of the calls. *)
Fixpoint attn1_inputs {A} (unet : UNet) (L : list nat) (p : prog A) : list tensor :=
  match p with
  | Done _ => []
  | CallAttn1 m hidden_states k =>
      (if decide (m ∈ L) then [hidden_states] else [])
      ++ attn1_inputs unet L (k (attn1_forward unet m hidden_states))
  end.

(** A network with a transformer block (3) that lies in none of
    [down_blocks], [mid_block] and [up_blocks]; its forward pass calls no
    attention. *)
Definition loose_unet : UNet :=
  {| down_blocks := [[0%nat]]; mid_block := [1%nat]; up_blocks := [[2%nat]];
     loose_blocks := [3%nat];
     attn1 := λ _, plain_attention;
     attn1_forward := λ _ h, h;
     unet_forward := λ z _ _, Done z |}.

End PassTrace.

(** ** The calls a run of [generate] is expected to make *)

Module GenerateTrace.
Import Tensor Attn Py Schedule Imaging Net Generate.
Local Open Scope R_scope.

Section WithPipeline.
Context `{Pipeline}.

(** Line 445: whether step [i] runs the reference pass, for [n_ref]
    reference latents. *)
Definition feedback_step (a : args) (n_ref : nat) (ref_start_idx ref_end_idx : Z)
    (i : nat) : bool :=
  bool_decide (0 < n_ref)%nat
  && rltb 0 (step_weight ref_start_idx ref_end_idx i (min_weight a) (max_weight a)).

(** The calls of step [i] of the loop. *)
Definition step_events (a : args) (n_ref : nat) (ref_start_idx ref_end_idx : Z)
    (i : nat) : list event :=
  [EvScaleModelInput]
  ++ (if feedback_step a n_ref ref_start_idx ref_end_idx i
      then [EvRandn n_ref] ++ (if is_euler_ancestral then [] else [EvAddNoise]) ++ [EvUNet]
      else [])
  ++ [EvUNet; EvSchedulerStep].

(** The calls that encode a list of reference images. *)
Definition reference_events (images : list (string + image raster)) : list event :=
  match images with
  | [] => []
  | _ => replicate (length images) EvImageToTensor ++ [EvVaeEncode (length images)]
  end.

Definition seed_events (a : args) : list event :=
  match seed a with Some _ => [EvManualSeed] | None => [] end ++ [EvRandn (n_images a)].

(** The calls of a whole run over [n_timesteps] timesteps with [n_ref]
    reference latents. *)
Definition generate_events (a : args) (n_ref n_timesteps : nat) : list event :=
  seed_events a ++ reference_events (liked a) ++ reference_events (disliked a)
  ++ [EvTextEncode (2 * n_images a + 1); EvSetTimesteps]
  ++ concat (map (step_events a n_ref
                    (ref_idx n_timesteps (feedback_start a))
                    (ref_idx n_timesteps (feedback_end a)))
               (seq 0 n_timesteps))
  ++ [EvDecode].

(** Lines 494-497 for a scheduler of order 1: whether step [i] advances
    the progress bar. *)
Definition progress_step (n_timesteps : nat) (num_warmup_steps : Z) (i : nat) : bool :=
  bool_decide (i = (n_timesteps - 1)%nat)
  || bool_decide (num_warmup_steps < Z.of_nat (i + 1))%Z.

(** What a part of [generate] did between two states: the calls it added,
    how far it advanced the progress bar, and that it left a network
    without instrumentation as it found it. *)
Definition effects (st st' : gstate) (evs : list event) (k : nat) : Prop :=
  trace st' = trace st ++ evs
  ∧ pbar st' = (pbar st + k)%nat
  ∧ (NoDup (modules unet) → clean (net st) → restored (net st) (net st')).

End WithPipeline.

(** A pipeline on the three-block network whose scheduler state is the
    number of timesteps it was set up for. *)
#[export] Instance counting_pipeline : Pipeline :=
  {| pil := Toy.toy_pil;
     rng := unit; scheduler := nat; token_ids := unit; token_mask := unit;
     ndarray := unit;
     has_xformers := false;
     recursion_limit := 2;
     unet := Toy.toy_unet;
     manual_seed := λ _, ();
     randn := λ n _ g, (replicate n [], g);
     vae_scaling_factor := 1;
     vae_encode_sample := λ ts g, (map (λ _, []) ts, g);
     tokenizer := λ _, ((), ());
     use_attention_mask := None;
     text_encoder := λ _ _, [];
     set_timesteps := λ n _, n;
     timesteps := λ s, replicate s 0;
     init_noise_sigma := λ _, 1;
     order := λ _, 1%nat;
     sigma_t := λ _, None;
     sigmas := λ _, None;
     is_euler_ancestral := true;
     scale_model_input := λ z _ s, (z, s);
     add_noise := λ z _ _ _, z;
     scheduler_step := λ _ _ z s g, (z, s, g);
     decode_latents := λ _, ();
     numpy_to_pil := λ _, [] |}.

(** One prompt for one image over three steps, no reference images. *)
Definition three_steps : args :=
  {| prompt := inl "a photo"%string;
     negative_prompt := inl ""%string;
     liked := []; disliked := [];
     seed := Some 42%Z;
     n_images := 1;
     guidance_scale := 8;
     denoising_steps := 3;
     feedback_start := 33 # 100; feedback_end := 66 # 100;
     min_weight := 0; max_weight := 1;
     neg_scale := 1 / 2;
     pos_bottleneck_scale := 1; neg_bottleneck_scale := 1 |}.

(** The same call with a guidance scale of 1. *)
Definition unit_guidance : args :=
  {| prompt := inl "a photo"%string;
     negative_prompt := inl ""%string;
     liked := []; disliked := [];
     seed := Some 42%Z;
     n_images := 1;
     guidance_scale := 1;
     denoising_steps := 3;
     feedback_start := 33 # 100; feedback_end := 66 # 100;
     min_weight := 0; max_weight := 1;
     neg_scale := 1 / 2;
     pos_bottleneck_scale := 1; neg_bottleneck_scale := 1 |}.

Definition counting_state : gstate :=
  {| net := Toy.fresh_state; gen := (); sched := 0%nat; pbar := 0; trace := [] |}.

End GenerateTrace.

(** ** An attention module without its LoRA processor *)

Module NoLora.
Import Tensor Attn.

(** [attn] with a processor that is not a [LoRACrossAttnProcessor]. *)
Definition without_lora (attn : Attention) : Attention :=
  {| heads := heads attn; scale := scale attn;
     to_q := to_q attn; to_k := to_k attn; to_v := to_v attn;
     to_out_0 := to_out_0 attn; to_out_1 := to_out_1 attn;
     processor := None;
     norm_cross := norm_cross attn;
     norm_encoder_hidden_states := norm_encoder_hidden_states attn;
     pad_attention_mask := pad_attention_mask attn |}.

(** A LoRA processor whose four layers are the identity. *)
Definition identity_lora : LoRA :=
  {| to_q_lora := λ v, v; to_k_lora := λ v, v; to_v_lora := λ v, v;
     to_out_lora := λ v, v |}.

Definition lora_attention : Attention :=
  {| heads := 1; scale := 1;
     to_q := λ v, v; to_k := λ v, v; to_v := λ v, v;
     to_out_0 := λ v, v; to_out_1 := λ v, v;
     processor := Some identity_lora; norm_cross := false;
     norm_encoder_hidden_states := λ t, t;
     pad_attention_mask := λ m _ _, m |}.

End NoLora.

(** ** The weights of a batch entry, and softmax in floating point *)

Module AttnRows.
Import Tensor Attn.
Local Open Scope R_scope.




End AttnRows.

(** ** What an intercepted block is expected to do *)

Module InjectionSpec.
Import Tensor Attn Py Net.
Local Open Scope R_scope.

(** Written after the specification (4.3, steps 2 and 3): a half of the
    batch whose cache gives the tensor [cached] attends from its own hidden
    state over its own positions followed by the cached ones, every own
    position weighted by 1 and every cached position by the injection
    weight of the block; a half without a cache gets the ordinary attention
    of the module.  [None] stands for a tensor that is not finite. *)
Definition expected_half (has_xformers : bool) (unet : UNet) (self : nat)
    (front : option tensor) (hiddens : tensor) (injection_weight : R) : option tensor :=
  match front with
  | Some cached =>
      attn_with_weights has_xformers (attn1 unet self) hiddens
        (Some (cat1 hiddens cached)) None
        (Some (replicate (size0 hiddens)
                 (replicate (size1 hiddens) 1 ++ replicate (size1 cached) injection_weight)))
        1
  | None => Some (attn1_forward unet self hiddens)
  end.

(** The tensor at the front of a cache, when the cache is present. *)
Definition front_of (cache : option loc) (st : state) : option tensor :=
  match cache with
  | Some l => head (list_at l st)
  | None => None
  end.

(** The state once a present cache has lost its front tensor. *)
Definition pop_front (cache : option loc) (st : state) : state :=
  match cache with
  | Some l => {| attrs := attrs st; heap := <[l := tail (list_at l st)]> (heap st) |}
  | None => st
  end.

(** A present cache holds a front tensor for the [n] entries of a half,
    whose length is a multiple of the [d_model] own positions. *)
Definition cache_ready (cache : option loc) (st : state) (n d_model : nat) : Prop :=
  match cache with
  | Some l => ∃ c rest r, list_at l st = c :: rest ∧ length c = n
                          ∧ Forall (λ m : mat, length m = (r * d_model)%nat) c
  | None => True
  end.

(** A state in which block 0 is patched for an injection pass and the list
    object 0 holds one cached tensor. *)
Definition half_cached_state : state :=
  {| attrs := {[ 0%nat := {[ "old_forward" := OrdinaryForward ]} ]};
     heap := {[ 0%nat := [[[[0]]]] ]} |}.

End InjectionSpec.

(** ** Plain classifier-free-guided sampling, after the specification *)

Module PlainSampling.
Import Tensor Attn Py Schedule Imaging Net Generate.
Local Open Scope R_scope.

Section WithPipeline.
Context `{Pipeline}.

(** Written after the specification (the state machine of 4.5 without
    reference images, over the collaborators of section 6), as a function
    on the sampler's state: no definition of it is shared with [generate].
    The scheduler is used as classifier-free-guided sampling uses one: the
    initial noise is scaled by its [init_noise_sigma] and the input of the
    network by its [scale_model_input].  The sampler carries the latents,
    the random generator and the numerical scheduler from step to step. *)
Record sampler := {
  latents : mat;
  generator : rng;
  numerical_scheduler : scheduler }.

(** TextEncoder.encode(strings). *)
Definition encode (strings : list string) : tensor :=
  let tokens := tokenizer strings in
  text_encoder tokens.1
    (match use_attention_mask with Some true => Some tokens.2 | _ => None end).

(** A single prompt stands for one prompt per requested image. *)
Definition strings_of (p : string + list string) (n : nat) : list string :=
  match p with
  | inl s => replicate n s
  | inr l => l
  end.

(** Network.forward, called directly: every attention module answers with
    its ordinary attention. *)
Definition network (latent_batch : mat) (timestep : R) (conditioning : tensor) : mat :=
  plain_run unet (unet_forward unet latent_batch timestep conditioning).

(** predicted = uncond_output + guidance_scale x (cond_output - uncond_output). *)
Definition guided (guidance_scale : R) (cond_output uncond_output : mat) : mat :=
  zip_with (zip_with (λ c u, u + guidance_scale * (c - u))) cond_output uncond_output.

(** One denoising step: the network is evaluated on the doubled batch of
    scaled latents, its output is split at the midpoint into the
    conditioned and the unconditioned half, the halves are combined by
    guidance, and the scheduler advances the latents. *)
Definition cfg_step (guidance_scale : R) (conditioning : tensor) (s : sampler) (t : R)
    : sampler :=
  let '(input, sch) := scale_model_input (latents s) t (numerical_scheduler s) in
  let output := network (input ++ input) t conditioning in
  let cond_output := take (length output / 2)%nat output in
  let uncond_output := drop (length output / 2)%nat output in
  let predicted := guided guidance_scale cond_output uncond_output in
  let '(next, sch', g) := scheduler_step predicted t (latents s) sch (generator s) in
  {| latents := next; generator := g; numerical_scheduler := sch' |}.

(** Init, conditioning, the loop over the timesteps and decoding: the
    images, and the sampler at the end. *)
Definition cfg_sampling (a : args) (g0 : rng) (sch0 : scheduler)
    : list (image raster) * sampler :=
  let g := match seed a with Some s => manual_seed s | None => g0 end in
  let '(noise, g1) := randn (n_images a) (4 * 64 * 64) g in
  let embeddings :=
    encode (strings_of (prompt a) (n_images a)
            ++ strings_of (negative_prompt a) (n_images a) ++ [""%string]) in
  let conditioning := take (2 * n_images a) embeddings in
  let sch := set_timesteps (denoising_steps a) sch0 in
  let start :=
    {| latents := map (map (Rmult (init_noise_sigma sch))) noise;
       generator := g1;
       numerical_scheduler := sch |} in
  let final := foldl (cfg_step (guidance_scale a) conditioning) start (timesteps sch) in
  (numpy_to_pil (decode_latents (latents final)), final).

(** The calls of plain sampling over [n_steps] timesteps: one evaluation of
    the network per step. *)
Definition cfg_events (a : args) (n_steps : nat) : list event :=
  match seed a with Some _ => [EvManualSeed] | None => [] end
  ++ [EvRandn (n_images a); EvTextEncode (2 * n_images a + 1); EvSetTimesteps]
  ++ concat (replicate n_steps [EvScaleModelInput; EvUNet; EvSchedulerStep])
  ++ [EvDecode].

End WithPipeline.
End PlainSampling.

(** ** A run of [generate] with feedback steps *)

Module FeedbackRun.
Import Tensor Attn Py Schedule Imaging Net Generate Toy.
Local Open Scope R_scope.

(** One transformer block, in the down block; the forward pass visits it
    once with a batch of two and returns the latents. *)
Definition one_call_unet : UNet :=
  {| down_blocks := [[0%nat]]; mid_block := []; up_blocks := [[]];
     loose_blocks := [];
     attn1 := λ _, plain_attention;
     attn1_forward := λ _ h, h;
     unet_forward := λ z _ _, CallAttn1 0 [[[0]]; [[0]]] (λ _, Done z) |}.

(** A pipeline on that network whose scheduler state is the number of
    timesteps it was set up for; the VAE gives one empty latent per image. *)
Definition feedback_pipeline : Pipeline :=
  {| pil := toy_pil;
     rng := unit; scheduler := nat; token_ids := unit; token_mask := unit;
     ndarray := unit;
     has_xformers := false;
     recursion_limit := 2;
     unet := one_call_unet;
     manual_seed := λ _, ();
     randn := λ n _ g, (replicate n [], g);
     vae_scaling_factor := 1;
     vae_encode_sample := λ ts g, (map (λ _, []) ts, g);
     tokenizer := λ _, ((), ());
     use_attention_mask := None;
     text_encoder := λ _ _, [];
     set_timesteps := λ n _, n;
     timesteps := λ s, replicate s 0;
     init_noise_sigma := λ _, 1;
     order := λ _, 1%nat;
     sigma_t := λ _, None;
     sigmas := λ _, None;
     is_euler_ancestral := true;
     scale_model_input := λ z _ s, (z, s);
     add_noise := λ z _ _ _, z;
     scheduler_step := λ _ _ z s g, (z, s, g);
     decode_latents := λ _, ();
     numpy_to_pil := λ _, [] |}.

(** A black image of one pixel. *)
Definition black : image (@raster (@pil feedback_pipeline)) :=
  RGBImage 1 1 (λ _ _, (Byte.x00, Byte.x00, Byte.x00)).

(** One prompt for one image over two steps, with one liked image and the
    feedback window over the whole run. *)
Definition one_liked : @args feedback_pipeline :=
  {| prompt := inl "a photo"%string;
     negative_prompt := inl ""%string;
     liked := [inr black]; disliked := [];
     seed := Some 42%Z;
     n_images := 1;
     guidance_scale := 8;
     denoising_steps := 2;
     feedback_start := 0; feedback_end := 1;
     min_weight := 1 / 10; max_weight := 1;
     neg_scale := 1 / 2;
     pos_bottleneck_scale := 1; neg_bottleneck_scale := 1 |}.

Definition feedback_state : @gstate feedback_pipeline :=
  {| net := {| attrs := ∅; heap := ∅ |};
     gen := (() : @rng feedback_pipeline);
     sched := (0%nat : @scheduler feedback_pipeline);
     pbar := 0;
     trace := [] |}.

(** The network carries no instrumentation: every [attn1] has the class's
    forward and no [old_forward]. *)
Definition plain_net (st : @gstate feedback_pipeline) : Prop :=
  (∀ m, forward_of m (net st) = OrdinaryForward) ∧ clean (net st).

End FeedbackRun.

(** ** A call with mismatched prompts and a reference image that is missing *)

Module PromptRuns.
Import Tensor Attn Py Schedule Imaging Net Generate Toy ToyPipeline.
Local Open Scope R_scope.

(** Three prompts for two requested images, and a liked image given by a
    path that does not open. *)
Definition three_prompts_unreadable : @args toy_pipeline :=
  {| prompt := inr ["a"; "b"; "c"]%string;
     negative_prompt := inl ""%string;
     liked := [inl "missing.png"%string]; disliked := [];
     seed := Some 42%Z;
     n_images := 2;
     guidance_scale := 8;
     denoising_steps := 20;
     feedback_start := 33 # 100; feedback_end := 66 # 100;
     min_weight := 1 / 10; max_weight := 1;
     neg_scale := 1 / 2;
     pos_bottleneck_scale := 1; neg_bottleneck_scale := 1 |}.

End PromptRuns.

(** * Properties *)

(** ** Properties of the weighted attention *)

Module AttnFacts.
Import Tensor Attn.
Local Open Scope R_scope.

Lemma rsum_app l1 l2 : rsum (l1 ++ l2) = rsum l1 + rsum l2.
Proof. induction l1 as [|x l1 IH]; simpl; [lra | rewrite IH; lra]. Qed.

Lemma rsum_div l s : rsum (map (λ x, x / s) l) = rsum l / s.
Proof.
  induction l as [|x l IH]; simpl.
  - unfold Rdiv. now rewrite Rmult_0_l.
  - rewrite IH. unfold Rdiv. ring.
Qed.

Lemma rsum_nonneg l : Forall (Rle 0) l → 0 <= rsum l.
Proof. induction 1; simpl; lra. Qed.

Lemma rsum_pos l : Forall (Rle 0) l → Exists (Rlt 0) l → 0 < rsum l.
Proof.
  intros Hall Hex. induction Hex as [x l Hx | x l Hex IH]; simpl.
  - apply Forall_cons in Hall as [_ Hl]. apply rsum_nonneg in Hl. lra.
  - apply Forall_cons in Hall as [Hx Hl]. specialize (IH Hl). lra.
Qed.

Lemma rsum_exp_pos row : row ≠ [] → 0 < rsum (map exp row).
Proof.
  intros Hne. apply rsum_pos.
  - apply Forall_map, Forall_forall. intros x _. simpl. left. apply exp_pos.
  - destruct row as [|x row]; [done|]. simpl. left. apply exp_pos.
Qed.

(** Softmax outputs are strictly positive. *)
Lemma softmax_pos row : Forall (Rlt 0) (softmax row).
Proof.
  unfold softmax. destruct row as [|x row]; [constructor|].
  assert (0 < rsum (map exp (x :: row))) as Hs by now apply rsum_exp_pos.
  apply Forall_map, Forall_map, Forall_forall. intros y _. simpl.
  apply Rdiv_lt_0_compat; [apply exp_pos | exact Hs].
Qed.

Lemma softmax_length row : length (softmax row) = length row.
Proof. unfold softmax. now rewrite !length_map. Qed.

Lemma get_attention_scores_pos attn query key mask :
  Forall (Forall (Forall (Rlt 0))) (get_attention_scores attn query key mask).
Proof.
  unfold get_attention_scores.
  apply Forall_map, Forall_forall. intros m _. simpl.
  apply Forall_map, Forall_forall. intros row _. simpl. apply softmax_pos.
Qed.

Lemma renormalize_Some row :
  rsum row ≠ 0 → ∃ row', renormalize row = Some row' ∧ rsum row' = 1
                        ∧ length row' = length row.
Proof.
  intros Hs. unfold renormalize. destruct (Req_dec_T (rsum row) 0) as [E|_]; [done|].
  eexists; split; [reflexivity|]. split.
  - rewrite rsum_div. now field.
  - now rewrite length_map.
Qed.

Lemma renormalize_sum row row' : renormalize row = Some row' → rsum row' = 1.
Proof.
  unfold renormalize. destruct (Req_dec_T (rsum row) 0) as [E|Hs]; [done|].
  intros [= <-]. rewrite rsum_div. now field.
Qed.

(** The weighted mass of a positive row under non-negative weights that are
    not all zero is positive. *)
Lemma weighted_mass_pos (prow w : list R) :
  Forall (Rlt 0) prow → Forall (Rle 0) w → Exists (λ x, x ≠ 0) w →
  length prow = length w → 0 < rsum (zip_with Rmult prow w).
Proof.
  intros Hp Hw Hex Hlen. apply rsum_pos.
  - clear Hex Hlen. revert w Hw. induction Hp as [|p prow Hp0 Hp IH]; intros [|x w] Hw; simpl;
      try constructor.
    + apply Forall_cons in Hw as [Hx _]. apply Rmult_le_pos; lra.
    + apply Forall_cons in Hw as [_ Hw]. now apply IH.
  - revert prow Hp Hlen.
    induction Hex as [x w Hx | x w Hex IH]; intros [|p prow] Hp Hlen; simplify_eq/=.
    + apply Forall_cons in Hp as [Hp0 _]. apply Forall_cons in Hw as [Hx0 _].
      left. apply Rmult_lt_0_compat; lra.
    + apply Forall_cons in Hp as [_ Hp]. apply Forall_cons in Hw as [_ Hw].
      right. now apply IH.
Qed.

Lemma Forall_repeat_interleave {A} (P : A → Prop) n (l : list A) :
  Forall P l → Forall P (repeat_interleave n l).
Proof.
  intros H. unfold repeat_interleave. apply Forall_concat, Forall_map.
  eapply Forall_impl; [exact H|]. intros x Hx. simpl. now apply Forall_replicate.
Qed.

Lemma length_repeat_interleave {A} n (l : list A) :
  length (repeat_interleave n l) = (length l * n)%nat.
Proof.
  unfold repeat_interleave. induction l as [|x l IH]; simpl; [done|].
  rewrite length_app, length_replicate, IH. lia.
Qed.

(** Every row of [attention_probs * weights[:, None]] is a row of
    probabilities multiplied by a row of weights. *)
Lemma mul_weights_rows (P Q : list R → Prop) probs ws :
  Forall (Forall P) probs → Forall Q ws →
  Forall (Forall (λ row, ∃ prow w, P prow ∧ Q w ∧ row = zip_with Rmult prow w))
         (mul_weights probs ws).
Proof.
  intros Hp Hw.
  assert (Forall (Forall (λ row, ∃ prow w, P prow ∧ Q w ∧ row = zip_with Rmult prow w))
            (zip_with (λ p w, map (λ prow, zip_with Rmult prow w) p) probs ws)) as Hzip.
  { clear -Hp Hw. revert ws Hw. induction Hp as [|p probs Hp0 Hp IH]; intros [|w ws] Hw; simpl;
      try constructor.
    - apply Forall_cons in Hw as [Hw0 _]. apply Forall_map.
      eapply Forall_impl; [exact Hp0|]. intros prow Hprow. simpl. eauto.
    - apply Forall_cons in Hw as [_ Hw]. now apply IH. }
  unfold mul_weights. destruct ws as [|w [|w' ws]]; try exact Hzip.
  apply Forall_cons in Hw as [Hw _].
  apply Forall_map. eapply Forall_impl; [exact Hp|]. intros p Hp0. simpl.
  apply Forall_map. eapply Forall_impl; [exact Hp0|]. intros prow Hprow. simpl. eauto.
Qed.

Lemma mul_weights_shape probs ws :
  length ws = 1%nat ∨ length ws = length probs →
  Forall2 (λ a b, length a = length b) (mul_weights probs ws) probs.
Proof.
  intros Hlen.
  assert (length ws = length probs →
          Forall2 (λ a b : mat, length a = length b)
            (zip_with (λ p w, map (λ prow, zip_with Rmult prow w) p) probs ws) probs) as Hzip.
  { clear. revert ws. induction probs as [|p probs IH]; intros [|w ws] Hl; simplify_eq/=;
      constructor; [now rewrite length_map | now apply IH]. }
  unfold mul_weights. destruct ws as [|w [|w' ws]].
  - apply Hzip. destruct Hlen as [?|?]; simplify_eq/=. done.
  - clear. induction probs; simpl; constructor; [now rewrite length_map | done].
  - apply Hzip. destruct Hlen as [?|?]; simplify_eq/=. done.
Qed.

End AttnFacts.

Module WeightedAttention.
Import Tensor Attn AttnFacts.
Local Open Scope R_scope.

(** Over the reals, where every softmax probability is positive: for
    non-negative weight vectors with at least one nonzero entry, the
    probabilities multiplied by the weights have a positive mass, the result
    is finite, it has one row per query position, and every row sums to 1. *)
Lemma weighted_probs_sum_to_one attn query key mask weights (K : nat) :
  let attention_probs := get_attention_scores attn query key mask in
  Forall (Forall (λ row, length row = K)) attention_probs →
  Forall (λ w, length w = K ∧ Forall (Rle 0) w ∧ Exists (λ x, x ≠ 0) w) weights →
  length weights = 1%nat ∨ (length weights * heads attn)%nat = length attention_probs →
  ∃ p, weighted_attention_probs attn attention_probs weights = Some p
       ∧ Forall2 (λ pb ob, length pb = length ob) p attention_probs
       ∧ Forall (Forall (λ row, rsum row = 1)) p.
Proof.
  intros probs Hshape Hw Hlen. unfold weighted_attention_probs.
  set (ws := if decide (length weights ≠ 1%nat) then _ else _).
  assert (Forall (λ w, length w = K ∧ Forall (Rle 0) w ∧ Exists (λ x, x ≠ 0) w) ws) as Hws.
  { subst ws. case_decide; [now apply Forall_repeat_interleave | done]. }
  assert (length ws = 1%nat ∨ length ws = length probs) as Hlws.
  { subst ws. case_decide as Hd.
    - right. rewrite length_repeat_interleave. destruct Hlen; [done | lia].
    - left. lia. }
  assert (Forall (Forall (λ row, is_Some (renormalize row))) (mul_weights probs ws)) as Hfin.
  { assert (Forall (Forall (λ row, Forall (Rlt 0) row ∧ length row = K)) probs) as Hp.
    { pose proof (get_attention_scores_pos attn query key mask) as Hpos. fold probs in Hpos.
      clear -Hpos Hshape. induction Hpos as [|m ms Hm _ IH]; [constructor|].
      apply Forall_cons in Hshape as [Hs Hss]. constructor; [|now apply IH].
      clear -Hm Hs. induction Hm as [|row rows Hrow _ IH]; [constructor|].
      apply Forall_cons in Hs as [Hr Hrs]. constructor; [done | now apply IH]. }
    pose proof (mul_weights_rows _ _ probs ws Hp Hws) as Hrows.
    eapply Forall_impl; [exact Hrows|]. intros m Hm. simpl in *.
    eapply Forall_impl; [exact Hm|]. intros row (prow & w & [Hpp Hpl] & (Hwl & Hwn & Hwe) & ->).
    simpl. assert (0 < rsum (zip_with Rmult prow w)) as Hmass.
    { apply weighted_mass_pos; [done..|lia]. }
    destruct (renormalize_Some (zip_with Rmult prow w)) as (r & -> & _); [lra | done]. }
  assert (is_Some (mapM (mapM renormalize) (mul_weights probs ws))) as [p Hp].
  { apply mapM_is_Some. eapply Forall_impl; [exact Hfin|]. intros m Hm. simpl.
    now apply mapM_is_Some. }
  exists p. split; [exact Hp|]. apply mapM_Some in Hp. split.
  - pose proof (mul_weights_shape probs ws Hlws) as Hsh.
    clear -Hp Hsh. revert p Hp. induction Hsh as [|a b la lb Hab _ IH]; intros p Hp.
    + apply Forall2_nil_inv_l in Hp as ->. constructor.
    + apply Forall2_cons_inv_l in Hp as (y & p' & Hy & Hp' & ->).
      constructor; [|now apply IH]. apply length_mapM in Hy. lia.
  - clear -Hp. induction Hp as [|m pm ms p' Hm _ IH]; constructor; [|exact IH].
    apply mapM_Some in Hm. clear -Hm.
    induction Hm as [|row r rows rs Hr _ IH]; constructor; [|exact IH].
    now apply renormalize_sum in Hr.
Qed.

(** Weights of both signs, which the function accepts: with two identical
    keys the softmax row is uniform, the weights [1; -1] have nonzero
    entries, and the weighted mass [attention_probs.sum(dim=-1)] is zero, so
    the renormalisation divides by zero. *)
Lemma signed_weights_divide_by_zero :
  Forall (Exists (λ x, x ≠ 0)) [[1; -1]]
  ∧ weighted_attention_probs plain_attention
      (get_attention_scores plain_attention [[[0]]] [[[0]; [0]]] None) [[1; -1]] = None.
Proof.
  split.
  - constructor; [|constructor]. left. lra.
  - unfold weighted_attention_probs, get_attention_scores. simpl.
    unfold renormalize.
    destruct (Req_dec_T _ 0) as [_|Hne]; [reflexivity|].
    exfalso. apply Hne. unfold rsum, dot, rsum. simpl. lra.
Qed.

End WeightedAttention.

Module FusedPath.
Import Tensor Attn AttnFacts.
Local Open Scope R_scope.

Lemma renormalize_scale es Z :
  0 < Z → renormalize (map (λ y, y / Z) es) = renormalize es.
Proof.
  intros HZ. unfold renormalize. rewrite rsum_div.
  destruct (Req_dec_T (rsum es / Z) 0) as [E|E], (Req_dec_T (rsum es) 0) as [E'|E'].
  - reflexivity.
  - exfalso. apply E'. apply (Rmult_eq_compat_r Z) in E. unfold Rdiv in E.
    rewrite Rmult_assoc, Rinv_l, Rmult_1_r, Rmult_0_l in E by lra. exact E.
  - exfalso. apply E. rewrite E'. unfold Rdiv. apply Rmult_0_l.
  - f_equal. rewrite map_map. apply map_ext. intros y. field. split; lra.
Qed.

(** [exp (x + log w) = exp x * w] for a non-negative weight, with
    [exp (-inf) = 0]. *)
Lemma xexp_log x w : 0 <= w → xexp (xadd x (torch_log w)) = Some (exp x * w).
Proof.
  intros Hw. unfold torch_log.
  destruct (Rlt_dec w 0) as [?|_]; [lra|].
  destruct (Req_dec_T w 0) as [->|Hne]; simpl.
  - now rewrite Rmult_0_r.
  - rewrite exp_plus, exp_ln by lra. reflexivity.
Qed.

Lemma fused_exps alpha qrow (k : mat) (w : list R) :
  Forall (Rle 0) w →
  mapM xexp (zip_with (λ krow bij, xadd (dot qrow krow * alpha) bij) k (map torch_log w))
  = Some (zip_with (λ krow wj, exp (alpha * dot qrow krow) * wj) k w).
Proof.
  intros Hw. apply mapM_Some. revert k.
  induction Hw as [|x w Hx _ IH]; intros [|krow k]; simpl; try constructor.
  - rewrite xexp_log by exact Hx. now rewrite (Rmult_comm alpha).
  - apply IH.
Qed.

Lemma weighted_softmax alpha qrow (k : mat) (w : list R) :
  zip_with Rmult (softmax (map (λ krow, alpha * dot qrow krow) k)) w
  = map (λ y, y / rsum (map exp (map (λ krow, alpha * dot qrow krow) k)))
        (zip_with (λ krow wj, exp (alpha * dot qrow krow) * wj) k w).
Proof.
  unfold softmax. generalize (rsum (map exp (map (λ krow, alpha * dot qrow krow) k))) as Z.
  intros Z. revert w. induction k as [|krow k IH]; intros [|x w]; simpl; try reflexivity.
  rewrite IH. f_equal. unfold Rdiv. ring.
Qed.

(** One row of attention: weighting and renormalising the softmax row is
    the softmax of the logits biased by the logarithm of the weights. *)
Lemma row_paths_agree alpha qrow (k : mat) (w : list R) :
  Forall (Rle 0) w →
  renormalize (zip_with Rmult (softmax (map (λ krow, alpha * dot qrow krow) k)) w)
  = fused_row alpha qrow k (Some (map torch_log w)).
Proof.
  intros Hw. unfold fused_row. rewrite fused_exps by exact Hw. simpl.
  rewrite weighted_softmax. destruct k as [|krow k].
  - reflexivity.
  - apply renormalize_scale. now apply rsum_exp_pos.
Qed.

Lemma mapM_zip_replicate {A B C} (f : A → B → option C) (x : A) (q : list B) n :
  (length q ≤ n)%nat →
  mapM (λ '(b, y), f b y) (zip (replicate n x) q) = mapM (f x) q.
Proof.
  revert n. induction q as [|y q IH]; intros [|n] Hn; simpl in *; try reflexivity; try lia.
  rewrite IH by lia. reflexivity.
Qed.

(** One batch entry. *)
Lemma batch_paths_agree alpha (q k : mat) (w : list R) n :
  Forall (Rle 0) w → (length q ≤ n)%nat →
  mapM renormalize
    (map (λ prow, zip_with Rmult prow w)
       (map softmax (map (λ qrow, map (λ krow, alpha * dot qrow krow) k) q)))
  = mapM (λ '(brow, qrow), fused_row alpha qrow k (Some brow))
      (zip (replicate n (map torch_log w)) q).
Proof.
  intros Hw Hn.
  rewrite (mapM_zip_replicate (λ brow qrow, fused_row alpha qrow k (Some brow))) by exact Hn.
  rewrite !map_map. clear Hn. induction q as [|qrow q IH]; simpl; [reflexivity|].
  rewrite row_paths_agree by exact Hw. now rewrite IH.
Qed.

End FusedPath.

Module Shapes.
Import Tensor Attn.

Lemma linear_length f t : length (linear f t) = length t.
Proof. unfold linear. now rewrite length_map. Qed.

Lemma linear_rows f t S :
  Forall (λ m : mat, length m = S) t → Forall (λ m : mat, length m = S) (linear f t).
Proof.
  intros H. unfold linear. apply Forall_map. eapply Forall_impl; [exact H|].
  intros m Hm. simpl. now rewrite length_map.
Qed.

Lemma tscale_length c t : length (tscale c t) = length t.
Proof. unfold tscale. now rewrite length_map. Qed.

Lemma tscale_rows c t S :
  Forall (λ m : mat, length m = S) t → Forall (λ m : mat, length m = S) (tscale c t).
Proof.
  intros H. unfold tscale. apply Forall_map. eapply Forall_impl; [exact H|].
  intros m Hm. simpl. now rewrite length_map.
Qed.

Lemma tadd_length s t : length s = length t → length (tadd s t) = length s.
Proof. intros H. unfold tadd. rewrite length_zip_with. lia. Qed.

Lemma tadd_rows s t S :
  Forall (λ m : mat, length m = S) s → Forall (λ m : mat, length m = S) t →
  Forall (λ m : mat, length m = S) (tadd s t).
Proof.
  intros Hs. revert t. unfold tadd.
  induction Hs as [|m s Hm _ IH]; intros [|m' t] Ht; simpl; try constructor.
  - apply Forall_cons in Ht as [Hm' _]. rewrite length_zip_with. lia.
  - apply Forall_cons in Ht as [_ Ht]. now apply IH.
Qed.

Lemma head_to_batch_dim_length attn t :
  length (head_to_batch_dim attn t) = (length t * heads attn)%nat.
Proof.
  unfold head_to_batch_dim. induction t as [|m t IH]; simpl; [reflexivity|].
  rewrite length_app, length_map, length_seq, IH. lia.
Qed.

Lemma head_to_batch_dim_rows attn t S :
  Forall (λ m : mat, length m = S) t →
  Forall (λ m : mat, length m = S) (head_to_batch_dim attn t).
Proof.
  intros H. unfold head_to_batch_dim. apply Forall_concat, Forall_map.
  eapply Forall_impl; [exact H|]. intros m Hm. simpl.
  apply Forall_map, Forall_forall. intros h _. simpl. now rewrite length_map.
Qed.

Lemma rows_eq_size1 (t : list mat) S :
  Forall (λ m : mat, length m = S) t → Forall (λ m : mat, length m = size1 t) t.
Proof.
  intros H. destruct t as [|m t]; [constructor|].
  pose proof H as H'. apply Forall_cons in H' as [Hm _]. simpl.
  eapply Forall_impl; [exact H|]. intros m' Hm'. simpl in *. lia.
Qed.

Lemma rectangular_rows t : rectangular t → Forall (λ m : mat, length m = size1 t) t.
Proof. intros H. exact H. Qed.

End Shapes.

Module FusedTensor.
Import Tensor Attn AttnFacts FusedPath Shapes.
Local Open Scope R_scope.

Lemma zipped_paths_agree alpha n (ws : list (list R)) (query key : list mat) :
  Forall (Forall (Rle 0)) ws → Forall (λ q : mat, (length q ≤ n)%nat) query →
  mapM (mapM renormalize)
    (zip_with (λ p w, map (λ prow, zip_with Rmult prow w) p)
       (map (map softmax) (zip_with (scores alpha) query key)) ws)
  = mapM (fused_batch alpha)
      (zip (map (λ w, replicate n (map torch_log w)) ws) (zip query key)).
Proof.
  intros Hws. revert query key.
  induction Hws as [|w ws Hw _ IH]; intros [|q query] [|k key] Hq; simpl; try reflexivity.
  apply Forall_cons in Hq as [Hq0 Hq].
  rewrite <- (batch_paths_agree alpha q k w n Hw Hq0).
  rewrite IH by exact Hq. reflexivity.
Qed.

Lemma broadcast_paths_agree alpha n h (w : list R) (query key : list mat) :
  Forall (Rle 0) w → Forall (λ q : mat, (length q ≤ n)%nat) query →
  (length query ≤ h)%nat →
  mapM (mapM renormalize)
    (map (map (λ prow, zip_with Rmult prow w))
       (map (map softmax) (zip_with (scores alpha) query key)))
  = mapM (fused_batch alpha)
      (zip (map (λ w, replicate n (map torch_log w)) (replicate h w)) (zip query key)).
Proof.
  intros Hw Hq Hlen. revert h key Hlen.
  induction Hq as [|q query Hq0 _ IH]; intros h key Hlen; simpl.
  - now destruct (map _ _).
  - destruct key as [|k key]; simpl.
    + now destruct (map _ _).
    + destruct h as [|h]; simpl in *; [lia|].
      rewrite <- (batch_paths_agree alpha q k w n Hw Hq0).
      rewrite (IH h) by lia. reflexivity.
Qed.

End FusedTensor.

Module FusedClaim.
Import Tensor Attn AttnFacts FusedPath Shapes FusedTensor.
Import WeightedAttention.
Local Open Scope R_scope.

Lemma probs_paths_agree attn (weights : list (list R)) (query key : list mat) :
  Forall (Forall (Rle 0)) weights →
  Forall (λ q : mat, length q = size1 query) query →
  length query = (length weights * heads attn)%nat →
  reference_probs attn query key None (Some weights)
  = fused_probs (scale attn) query key (fused_bias attn None (Some weights) (size1 query)).
Proof.
  intros Hw Hq Hlen.
  assert (Forall (λ q : mat, (length q ≤ size1 query)%nat) query) as Hq'.
  { eapply Forall_impl; [exact Hq|]. intros q Hq0. simpl in Hq0. lia. }
  unfold reference_probs, weighted_attention_probs, fused_bias, fused_probs, log_bias.
  change (get_attention_scores attn query key None)
    with (map (map softmax) (zip_with (scores (scale attn)) query key)).
  change (mapM (λ '(b, (q, k)), mapM (λ '(brow, qrow), fused_row (scale attn) qrow k (Some brow)) (zip b q)))
    with (mapM (fused_batch (scale attn))).
  case_decide as Hd.
  - assert (mul_weights (map (map softmax) (zip_with (scores (scale attn)) query key))
              (repeat_interleave (heads attn) weights)
            = zip_with (λ p w, map (λ prow, zip_with Rmult prow w) p)
                (map (map softmax) (zip_with (scores (scale attn)) query key))
                (repeat_interleave (heads attn) weights)) as ->.
    { unfold mul_weights.
      destruct (repeat_interleave (heads attn) weights) as [|w0 [|w1 ri]] eqn:E; try reflexivity.
      exfalso. apply (f_equal length) in E. rewrite length_repeat_interleave in E.
      simpl in E. apply Hd. destruct (length weights) as [|[|n]]; simpl in E; lia. }
    apply zipped_paths_agree; [|exact Hq'].
    now apply Forall_repeat_interleave.
  - destruct weights as [|w0 [|w1 ws]]; simpl in Hd; try lia.
    apply Forall_cons in Hw as [Hw0 _].
    assert (repeat_interleave (heads attn) [w0] = replicate (heads attn) w0) as ->.
    { unfold repeat_interleave. simpl. apply app_nil_r. }
    simpl in Hlen. unfold mul_weights.
    apply broadcast_paths_agree; [exact Hw0 | exact Hq' | lia].
Qed.

Lemma attn_paths_agree attn (weights : list (list R)) hidden_states
    encoder_hidden_states lora_scale :
  Forall (Forall (Rle 0)) weights →
  rectangular hidden_states →
  length weights = length hidden_states →
  attn_with_weights false attn hidden_states encoder_hidden_states None
    (Some weights) lora_scale
  = attn_with_weights true attn hidden_states encoder_hidden_states None
      (Some weights) lora_scale.
Proof.
  intros Hw Hrect Hlen. set (hs := hidden_states) in *.
  unfold attn_with_weights, memory_efficient_attention, prepare_attention_mask. cbn [negb].
  set (qt := match processor attn with Some p => _ | None => linear (to_q attn) hs end).
  assert (length qt = length hs ∧ Forall (λ m : mat, length m = size1 hs) qt) as [Hql Hqr].
  { subst qt. destruct (processor attn) as [p|].
    - split.
      + rewrite tadd_length; rewrite ?tscale_length, !linear_length; reflexivity.
      + apply tadd_rows; [|apply tscale_rows]; apply linear_rows; exact Hrect.
    - split; [apply linear_length | apply linear_rows; exact Hrect]. }
  rewrite (probs_paths_agree attn weights (head_to_batch_dim attn qt)); [reflexivity|exact Hw|..].
  - eapply rows_eq_size1, head_to_batch_dim_rows. exact Hqr.
  - rewrite head_to_batch_dim_length. lia.
Qed.

(** For non-negative weights, given per batch entry, the reference path (multiply the softmax probabilities by the weights and
    renormalise) and the fused path (add [log weight] to the logits) give
    the same attention distribution, and [attn_with_weights] returns the
    same output on both.  Equality of reals stands for agreement up to
    rounding. *)
Lemma fused_path_agrees attn (weights : list (list R)) :
  Forall (Forall (Rle 0)) weights →
  (∀ query key : list mat,
     Forall (λ q : mat, length q = size1 query) query →
     length query = (length weights * heads attn)%nat →
     reference_probs attn query key None (Some weights)
     = fused_probs (scale attn) query key
         (fused_bias attn None (Some weights) (size1 query)))
  ∧ (∀ hidden_states encoder_hidden_states lora_scale,
       rectangular hidden_states →
       length weights = length hidden_states →
       attn_with_weights false attn hidden_states encoder_hidden_states None
         (Some weights) lora_scale
       = attn_with_weights true attn hidden_states encoder_hidden_states None
           (Some weights) lora_scale).
Proof.
  intros Hw. split; [intros; now apply probs_paths_agree|].
  intros hs ehs ls Hrect Hlen. now apply attn_paths_agree.
Qed.

(** A run with weights [1; 0]. *)
Lemma fused_path_agrees_witness :
  attn_with_weights false plain_attention [[[0]]] (Some [[[0]; [0]]]) None (Some [[1; 0]]) 1
  = attn_with_weights true plain_attention [[[0]]] (Some [[[0]; [0]]]) None (Some [[1; 0]]) 1.
Proof.
  refine (proj2 (fused_path_agrees plain_attention [[1; 0]] _) [[[0]]] (Some [[[0]; [0]]]) 1 _ _).
  - repeat constructor; lra.
  - repeat constructor.
  - reflexivity.
Defined.

End FusedClaim.

Module FusedCounterexample.
Import Tensor Attn AttnFacts WeightedAttention.
Local Open Scope R_scope.

Lemma torch_log_neg w : w < 0 → torch_log w = NaN.
Proof. intros H. unfold torch_log. destruct (Rlt_dec w 0); [reflexivity | lra]. Qed.

(** A negative weight, which the function accepts: with two identical keys
    and weights [2; -1] the reference path renormalises [1; -1/2] to the
    finite row [2; -1], whereas the fused path takes [log (-1)], which is
    nan. *)
Lemma signed_weights_paths_differ :
  (∃ out, attn_with_weights false plain_attention [[[0]]] (Some [[[0]; [0]]]) None
            (Some [[2; -1]]) 1 = Some out)
  ∧ attn_with_weights true plain_attention [[[0]]] (Some [[[0]; [0]]]) None
      (Some [[2; -1]]) 1 = None.
Proof.
  split.
  - unfold attn_with_weights, reference_probs, weighted_attention_probs,
      get_attention_scores. cbn -[renormalize].
    destruct (decide (1%nat ≠ 1%nat)) as [?|_]; [done|]. cbn -[renormalize].
    unfold renormalize.
    match goal with |- context [Req_dec_T ?s 0] => destruct (Req_dec_T s 0) as [E|_] end.
    + exfalso. revert E. unfold rsum, dot, rsum. simpl.
      pose proof (exp_pos (1 * (0 * 0 + 0))) as He.
      set (e := exp (1 * (0 * 0 + 0))) in *. intros E.
      assert (e / (e + (e + 0)) = 1 / 2) as Hhalf by (field; lra).
      rewrite Hhalf in E. lra.
    + eexists. reflexivity.
  - unfold attn_with_weights, memory_efficient_attention, fused_probs, fused_bias,
      log_bias, fused_row. cbn -[torch_log renormalize].
    rewrite (torch_log_neg (-1)) by lra. 
    destruct (torch_log 2); reflexivity.
Qed.

End FusedCounterexample.

(** ** The feedback window and the depth ramp *)

Module ScheduleFacts.
Import Tensor Py Schedule Net.
Local Open Scope R_scope.

Lemma local_weights_eq w D : local_weights w D = map (ramp w D) (seq 0 D).
Proof.
  unfold local_weights, linspace. destruct D as [|d]; [reflexivity|].
  replace (S d + 1)%nat with (S (S d)) by lia.
  replace (S (S d) - 1)%nat with (S d) by lia.
  rewrite length_map, length_seq.
  replace (S (S d) - 1)%nat with (S d) by lia.
  rewrite (seq_S (S d)), map_app. simpl plus.
  rewrite take_app_length' by now rewrite length_map, length_seq.
  reflexivity.
Qed.

Lemma local_weights_length w D : length (local_weights w D) = D.
Proof. now rewrite local_weights_eq, length_map, length_seq. Qed.

Lemma local_weights_lookup w D k :
  (k < D)%nat → local_weights w D !! k = Some (ramp w D k).
Proof.
  intros Hk. rewrite local_weights_eq, list_lookup_fmap, lookup_seq_lt by lia.
  reflexivity.
Qed.

Lemma block_weights_down w D k :
  (k < D)%nat → block_weights w D !! k = Some (ramp w D k).
Proof.
  intros Hk. unfold block_weights.
  rewrite lookup_app_l by (rewrite local_weights_length; lia).
  now apply local_weights_lookup.
Qed.

Lemma block_weights_mid w D : block_weights w D !! D = Some w.2.
Proof.
  unfold block_weights.
  rewrite lookup_app_r by (rewrite local_weights_length; lia).
  rewrite local_weights_length, Nat.sub_diag. reflexivity.
Qed.

Lemma block_weights_up w D j :
  (j < D)%nat → block_weights w D !! (D + 1 + j)%nat = Some (ramp w D (D - 1 - j)).
Proof.
  intros Hj. unfold block_weights.
  rewrite lookup_app_r by (rewrite local_weights_length; lia).
  rewrite local_weights_length.
  replace (D + 1 + j - D)%nat with (S j) by lia. simpl.
  rewrite reverse_lookup by (rewrite local_weights_length; lia).
  rewrite local_weights_length.
  replace (D - S j)%nat with (D - 1 - j)%nat by lia.
  apply local_weights_lookup. lia.
Qed.

Lemma ramp_step w D k : ramp w D (S k) - ramp w D k = (w.2 - w.1) / INR D.
Proof. unfold ramp. rewrite S_INR. lra. Qed.

Lemma ramp_descends w D k : (0 < D)%nat → w.2 <= w.1 → ramp w D (S k) <= ramp w D k.
Proof.
  intros HD Hw. pose proof (ramp_step w D k) as Hs.
  assert (0 < INR D) as HI by (apply lt_0_INR; lia).
  assert ((w.2 - w.1) / INR D <= 0).
  { pose proof (Rinv_0_lt_compat _ HI). unfold Rdiv. nra. }
  lra.
Qed.

Lemma ramp_ascends w D k : (0 < D)%nat → w.1 <= w.2 → ramp w D k <= ramp w D (S k).
Proof.
  intros HD Hw. pose proof (ramp_step w D k) as Hs.
  assert (0 < INR D) as HI by (apply lt_0_INR; lia).
  assert (0 <= (w.2 - w.1) / INR D).
  { pose proof (Rinv_0_lt_compat _ HI). unfold Rdiv. nra. }
  lra.
Qed.

End ScheduleFacts.

Module ScheduleClaims.
Import Tensor Py Schedule Net ScheduleFacts Toy.
Local Open Scope R_scope.

(** C9: the blocks are paired with weights interpolated linearly over the
    depth of the network, from the own weight at the first down block
    towards the bottleneck weight (each down block moves one step of
    [(bottleneck - own) / n_down], so the ramp descends when the bottleneck
    weight is not above the own weight and ascends when it is not below);
    the mid block gets the bottleneck weight itself, and the up blocks get
    the down ramp in reverse.  The pairing is a function of the two weight
    pairs and the network only: it takes no timestep. *)
Theorem depth_ramp (unet : UNet) (pos_weights neg_weights : R * R) :
  let D := length (down_blocks unet) in
  length (up_blocks unet) = D →
  (∀ k block, down_blocks unet !! k = Some block →
     weighted_blocks unet pos_weights neg_weights !! k
     = Some (block, (ramp pos_weights D k, ramp neg_weights D k)))
  ∧ weighted_blocks unet pos_weights neg_weights !! D
    = Some (mid_block unet, (pos_weights.2, neg_weights.2))
  ∧ (∀ j block, up_blocks unet !! j = Some block →
       weighted_blocks unet pos_weights neg_weights !! (D + 1 + j)%nat
       = Some (block, (ramp pos_weights D (D - 1 - j), ramp neg_weights D (D - 1 - j))))
  ∧ (∀ w : R * R, ramp w D 0 = w.1)
  ∧ (∀ (w : R * R) k, ramp w D (S k) - ramp w D k = (w.2 - w.1) / INR D)
  ∧ (∀ (w : R * R) k, (0 < D)%nat → w.2 <= w.1 → ramp w D (S k) <= ramp w D k)
  ∧ (∀ (w : R * R) k, (0 < D)%nat → w.1 <= w.2 → ramp w D k <= ramp w D (S k)).
Proof.
  intros D Hup. repeat split.
  - intros k block Hk. unfold weighted_blocks.
    assert (k < D)%nat as HkD by (apply lookup_lt_Some in Hk; exact Hk).
    apply lookup_zip_with_Some. exists block, (ramp pos_weights D k, ramp neg_weights D k).
    split; [reflexivity|]. split.
    + rewrite lookup_app_l by exact HkD. exact Hk.
    + apply lookup_zip_with_Some. do 2 eexists. split; [reflexivity|].
      split; now apply block_weights_down.
  - unfold weighted_blocks. apply lookup_zip_with_Some.
    exists (mid_block unet), (pos_weights.2, neg_weights.2). split; [reflexivity|]. split.
    + rewrite lookup_app_r by (fold D; lia). fold D. now rewrite Nat.sub_diag.
    + apply lookup_zip_with_Some. do 2 eexists. split; [reflexivity|].
      split; apply block_weights_mid.
  - intros j block Hj. unfold weighted_blocks.
    assert (j < D)%nat as HjD by (apply lookup_lt_Some in Hj; lia).
    apply lookup_zip_with_Some.
    exists block, (ramp pos_weights D (D - 1 - j), ramp neg_weights D (D - 1 - j)).
    split; [reflexivity|]. split.
    + rewrite lookup_app_r by (fold D; lia). fold D.
      replace (D + 1 + j - D)%nat with (S j) by lia. exact Hj.
    + apply lookup_zip_with_Some. do 2 eexists. split; [reflexivity|].
      split; now apply block_weights_up.
  - intros w. unfold ramp. simpl. lra.
  - intros w k. apply ramp_step.
  - intros w k HD Hw. now apply ramp_descends.
  - intros w k HD Hw. now apply ramp_ascends.
Qed.

(** A run of C9 on the three-block network with the weight pairs (1, 1/2)
    and (1/2, 1/4). *)
Lemma depth_ramp_witness :
  weighted_blocks toy_unet (1, 1 / 2) (1 / 2, 1 / 4) !! 1%nat
  = Some ([1%nat], (1 / 2, 1 / 4)).
Proof.
  refine (proj1 (proj2 (depth_ramp toy_unet (1, 1 / 2) (1 / 2, 1 / 4) _))).
  reflexivity.
Defined.

(** Against C9 as worded: with a bottleneck scale of 2 the pair is (1, 2),
    and over two down blocks the first block gets 1 and the second 3/2: the
    down ramp ascends towards the bottleneck weight. *)
Lemma bottleneck_scale_above_one_ascends :
  ∃ x y, block_weights (pos_ws 1 2) 2 !! 0%nat = Some x
         ∧ block_weights (pos_ws 1 2) 2 !! 1%nat = Some y
         ∧ x < y.
Proof.
  exists (ramp (pos_ws 1 2) 2 0), (ramp (pos_ws 1 2) 2 1).
  split; [apply block_weights_down; lia|].
  split; [apply block_weights_down; lia|].
  unfold ramp, pos_ws. simpl. lra.
Qed.

(** C3: the base weight of step [i] of [N] is [max_weight] when
    [round(N * start) <= i <= round(N * end)], both bounds included, and
    [min_weight] otherwise; for [N = 20], [start = 0.33], [end = 0.66] the
    window is [7, 13]. *)
Theorem feedback_window (N i : nat) (feedback_start feedback_end : Q)
    (min_weight max_weight : R) :
  step_weight (ref_idx N feedback_start) (ref_idx N feedback_end) i min_weight max_weight
  = (if decide (ref_idx N feedback_start ≤ Z.of_nat i ≤ ref_idx N feedback_end)%Z
     then max_weight else min_weight)
  ∧ ref_idx 20 (33 # 100) = 7%Z
  ∧ ref_idx 20 (66 # 100) = 13%Z
  ∧ step_weight (ref_idx 20 (33 # 100)) (ref_idx 20 (66 # 100)) i min_weight max_weight
    = (if decide (7 ≤ i ≤ 13)%nat then max_weight else min_weight).
Proof.
  assert (∀ s e : Z,
            step_weight s e i min_weight max_weight
            = if decide (s ≤ Z.of_nat i ≤ e)%Z then max_weight else min_weight) as Hw.
  { intros s e. unfold step_weight.
    destruct (Z.leb_spec s (Z.of_nat i)), (Z.leb_spec (Z.of_nat i) e); simpl;
      case_decide; try reflexivity; lia. }
  assert (ref_idx 20 (33 # 100) = 7%Z) as H7 by reflexivity.
  assert (ref_idx 20 (66 # 100) = 13%Z) as H13 by reflexivity.
  split; [apply Hw|]. split; [exact H7|]. split; [exact H13|].
  rewrite Hw, H7, H13. repeat case_decide; try reflexivity; lia.
Qed.

End ScheduleClaims.

(** ** Reference images *)

Module ImagingClaims.
Import Tensor Py Imaging.
Local Open Scope R_scope.

Lemma uint8_range b : 0 <= uint8 b <= 255.
Proof.
  unfold uint8. pose proof (Byte.to_N_bounded b) as Hb.
  split; apply IZR_le; lia.
Qed.

Lemma affine_range b : -1 <= uint8 b / 127.5 - 1.0 <= 1.
Proof. pose proof (uint8_range b). lra. Qed.

Lemma np_array_resized `{PIL} (im : image raster) :
  np_array (resize (if negb (is_rgb im) then convert im else im) (512, 512)%nat)
  = map (λ y, map (λ x, let '(r, g, b) := resized_rgb im x y in [r; g; b])
                  (seq 0 512)) (seq 0 512).
Proof. destruct im; reflexivity. Qed.

(** C10: [image_to_tensor] turns every image object, whatever its size and
    mode, into the tensor of shape (3, 512, 512) whose entry (c, y, x) is
    [v / 127.5 - 1] for the 8-bit value [v] of band [c] at pixel (x, y) of
    the image converted to RGB and then resized to 512 x 512; all entries
    lie in [-1, 1].  A path is opened first and then treated the same way. *)
Theorem image_to_tensor_spec `{PIL} (im : image raster) (path : string) :
  image_to_tensor (inr im) = Returns (expected_tensor im)
  ∧ length (expected_tensor im) = 3%nat
  ∧ Forall (λ channel, length channel = 512%nat
              ∧ Forall (λ row, length row = 512%nat
                          ∧ Forall (λ v, -1 <= v <= 1) row) channel) (expected_tensor im)
  ∧ image_to_tensor (inl path)
    = match image_open path with
      | Some im' => image_to_tensor (inr im')
      | None => Raises FileNotFoundError
      end.
Proof.
  split; [|split; [|split]].
  - unfold image_to_tensor, expected_tensor, permute_2_0_1.
    rewrite np_array_resized.
    change (seq 0 3) with [0; 1; 2]%nat. cbn [map].
    f_equal. repeat f_equal; rewrite !map_map; apply map_ext; intros y;
      rewrite !map_map; apply map_ext; intros x;
      destruct (resized_rgb im x y) as [[r g] b]; reflexivity.
  - unfold expected_tensor. now rewrite length_map, length_seq.
  - unfold expected_tensor. apply Forall_map, Forall_forall. intros c _. cbv beta.
    split; [now rewrite length_map, length_seq|].
    apply Forall_map, Forall_forall. intros y _. cbv beta.
    split; [now rewrite length_map, length_seq|].
    apply Forall_map, Forall_forall. intros x _. cbv beta. apply affine_range.
  - unfold image_to_tensor. destruct (image_open path); reflexivity.
Qed.

End ImagingClaims.

(** ** The instrumented forward passes *)

Module NetFacts.
Import Tensor Attn Py Schedule Net.
Local Open Scope R_scope.

Lemma bind_returns {S A B} (m : M S A) (f : A → M S B) st a st' :
  m st = (Returns a, st') → (m ≫= f) st = f a st'.
Proof. intros E. unfold mbind, M_bind. now rewrite E. Qed.

Lemma bind_raises {S A B} (m : M S A) (f : A → M S B) st e st' :
  m st = (Raises e, st') → (m ≫= f) st = (Raises e, st').
Proof. intros E. unfold mbind, M_bind. now rewrite E. Qed.

Lemma bind_returns_inv {S A B} (m : M S A) (f : A → M S B) st b st2 :
  (m ≫= f) st = (Returns b, st2) →
  ∃ a st1, m st = (Returns a, st1) ∧ f a st1 = (Returns b, st2).
Proof.
  unfold mbind, M_bind. destruct (m st) as [[a|e|] st1]; intros E; [eauto | done..].
Qed.

Lemma chunk2_returns {A S} (x : list A) (st : S) :
  length x ≠ 1%nat →
  chunk2 x st = (Returns (take ((length x + 1) / 2) x, drop ((length x + 1) / 2) x), st).
Proof. intros H. unfold chunk2. case_decide; [done | reflexivity]. Qed.

Lemma getattr_old_forward_Some m st c :
  instance_dict m st !! "old_forward" = Some c →
  getattr_old_forward m st = (Returns c, st).
Proof. intros H. unfold getattr_old_forward. now rewrite H. Qed.

Section Blocks.
Variable has_xformers : bool.
Variable unet : UNet.

(** [self.old_forward(x)] when the attribute holds the class's forward. *)
Lemma old_forward_ordinary depth self x st :
  instance_dict self st !! "old_forward" = Some OrdinaryForward →
  (c' ← getattr_old_forward self; call has_xformers unet (S depth) self c' x) st
  = (Returns (attn1_forward unet self x), st).
Proof.
  intros H. rewrite (bind_returns _ _ _ _ _ (getattr_old_forward_Some _ _ _ H)). reflexivity.
Qed.

(** A half of the batch leaves the attributes of the modules alone. *)
Lemma inject_half_attrs self old_forward cached hiddens weights d w st :
  (∀ x st0, attrs (old_forward x st0).2 = attrs st0) →
  attrs (inject_half has_xformers unet self old_forward cached hiddens weights d w st).2
  = attrs st.
Proof.
  intros Hold. unfold inject_half. destruct cached as [l|]; [|apply Hold].
  unfold mbind, M_bind, list_pop0, floordiv, finite.
  destruct (list_at l st) as [|x rest]; [reflexivity|].
  case_decide; [reflexivity|]. unfold mret, M_ret. cbv beta iota.
  match goal with |- context [attn_with_weights ?a ?b ?c ?d ?e ?f ?g] =>
    destruct (attn_with_weights a b c d e f g) end; reflexivity.
Qed.

Lemma bind_attrs {A B} (m : M state A) (f : A → M state B) st :
  (∀ st0, attrs (m st0).2 = attrs st0) →
  (∀ a st0, attrs (f a st0).2 = attrs st0) →
  attrs ((m ≫= f) st).2 = attrs st.
Proof.
  intros Hm Hf. unfold mbind, M_bind. specialize (Hm st).
  destruct (m st) as [[a|e|] st1]; simpl in *; [|exact Hm..].
  rewrite Hf. exact Hm.
Qed.

Lemma old_forward_attrs depth self :
  (∀ c x st0, attrs (call has_xformers unet depth self c x st0).2 = attrs st0) →
  ∀ x st0,
    attrs ((c' ← getattr_old_forward self; call has_xformers unet depth self c' x) st0).2
    = attrs st0.
Proof.
  intros IH x st0. apply bind_attrs.
  - intros st1. unfold getattr_old_forward. now destruct (_ !! _).
  - intros c st1. apply IH.
Qed.

(** Calling a forward, patched or not, leaves the attributes alone. *)
Lemma call_attrs depth self c x st :
  attrs (call has_xformers unet depth self c x st).2 = attrs st.
Proof.
  revert c x st. induction depth as [|depth IH]; intros c x st; [reflexivity|].
  pose proof (old_forward_attrs depth self IH) as Hold.
  destruct c as [|l|p n pw nw]; cbn [call].
  - reflexivity.
  - unfold caching_new_forward. apply bind_attrs; [reflexivity|]. intros _ st0. apply Hold.
  - unfold injecting_new_forward. apply bind_attrs.
    + intros st0. unfold chunk2. case_decide; reflexivity.
    + intros [cond uncond] st0. apply bind_attrs.
      * intros st1. now apply inject_half_attrs.
      * intros out_pos st1. apply bind_attrs; [|reflexivity].
        intros st2. now apply inject_half_attrs.
Qed.

Lemma instance_dict_attrs m st st' :
  attrs st' = attrs st → instance_dict m st' = instance_dict m st.
Proof. intros E. unfold instance_dict. now rewrite E. Qed.

Lemma forward_of_attrs m st st' :
  attrs st' = attrs st → forward_of m st' = forward_of m st.
Proof. intros E. unfold forward_of. now rewrite (instance_dict_attrs m st st' E). Qed.

End Blocks.
End NetFacts.

Module FallbackClaim.
Import Tensor Attn Py Schedule Net NetFacts Toy.
Local Open Scope R_scope.

(** A half whose list object is empty when the block is visited: [pop(0)]
    raises before anything else of that half is computed. *)
Lemma exhausted_cache_raises has_xformers unet depth self hs l cn pw nw st :
  length hs ≠ 1%nat → list_at l st = [] →
  call has_xformers unet (S depth) self (InjectingForward (Some l) cn pw nw) hs st
  = (Raises IndexError, st).
Proof.
  intros Hlen Hl. cbn [call]. unfold injecting_new_forward.
  rewrite (bind_returns _ _ _ _ _ (chunk2_returns hs st Hlen)).
  apply bind_raises. unfold inject_half. apply bind_raises.
  unfold list_pop0. now rewrite Hl.
Qed.

(** C8 (as amended): in an intercepted block, a half of the batch whose
    cache is absent ([None]) gets the ordinary forward of the attention
    module on that half alone, whatever happens to the other half; when both
    caches are absent the block returns the two ordinary outputs,
    conditioned half first. *)
Theorem absent_cache_falls_back has_xformers unet depth self hs cp cn pw nw st :
  instance_dict self st !! "old_forward" = Some OrdinaryForward →
  length hs ≠ 1%nat →
  let cond := take ((length hs + 1) / 2) hs in
  let uncond := drop ((length hs + 1) / 2) hs in
  let weights := ones (size0 cond) (size1 cond) in
  let old_forward x :=
    c' ← getattr_old_forward self; call has_xformers unet (S depth) self c' x in
  call has_xformers unet (S (S depth)) self (InjectingForward cp None pw nw) hs st
  = (out_pos ← inject_half has_xformers unet self old_forward cp cond weights
                 (size1 cond) pw;
     mret (cat0 out_pos (attn1_forward unet self uncond))) st
  ∧ call has_xformers unet (S (S depth)) self (InjectingForward None cn pw nw) hs st
    = (out_neg ← inject_half has_xformers unet self old_forward cn uncond weights
                   (size1 cond) nw;
       mret (cat0 (attn1_forward unet self cond) out_neg)) st
  ∧ call has_xformers unet (S (S depth)) self (InjectingForward None None pw nw) hs st
    = (Returns (cat0 (attn1_forward unet self cond) (attn1_forward unet self uncond)), st).
Proof.
  intros Hold Hlen cond uncond weights old_forward.
  assert (∀ cp' cn',
            call has_xformers unet (S (S depth)) self (InjectingForward cp' cn' pw nw) hs st
            = (out_pos ← inject_half has_xformers unet self old_forward cp' cond weights
                           (size1 cond) pw;
               out_neg ← inject_half has_xformers unet self old_forward cn' uncond weights
                           (size1 cond) nw;
               mret (cat0 out_pos out_neg)) st) as Hcall.
  { intros cp' cn'. cbn [call]. unfold injecting_new_forward.
    rewrite (bind_returns _ _ _ _ _ (chunk2_returns hs st Hlen)). reflexivity. }
  assert (∀ x st1, attrs st1 = attrs st →
            old_forward x st1 = (Returns (attn1_forward unet self x), st1)) as Hord.
  { intros x st1 E. apply old_forward_ordinary.
    now rewrite (instance_dict_attrs self st st1 E). }
  split; [|split].
  - rewrite Hcall. unfold mbind at 1 3, M_bind.
    pose proof (inject_half_attrs has_xformers unet self old_forward cp cond weights
                  (size1 cond) pw st
                  (old_forward_attrs has_xformers unet (S depth) self
                     (λ c x st0, call_attrs has_xformers unet (S depth) self c x st0))) as Hattrs.
    destruct (inject_half has_xformers unet self old_forward cp cond weights (size1 cond) pw st)
      as [[out_pos|e|] st1]; try reflexivity.
    simpl in Hattrs. cbn [inject_half].
    rewrite (bind_returns _ _ _ _ _ (Hord uncond st1 Hattrs)). reflexivity.
  - rewrite Hcall. cbn [inject_half].
    rewrite (bind_returns _ _ _ _ _ (Hord cond st eq_refl)). reflexivity.
  - rewrite Hcall. cbn [inject_half].
    rewrite (bind_returns _ _ _ _ _ (Hord cond st eq_refl)).
    rewrite (bind_returns _ _ _ _ _ (Hord uncond st eq_refl)). reflexivity.
Qed.

(** A run of C8: neither half has a cache. *)
Lemma absent_cache_falls_back_witness :
  call false toy_unet 2 0 (InjectingForward None None 1 1) [[[0]]; [[0]]] patched_state
  = (Returns [[[0]]; [[0]]], patched_state).
Proof.
  refine (proj2 (proj2 (absent_cache_falls_back false toy_unet 0 0 [[[0]]; [[0]]]
                          None None 1 1 patched_state _ _))).
  - reflexivity.
  - simpl. lia.
Defined.

(** C8 as stated fails: the conditioned half has a cache that is present
    but empty when block 0 is visited, and the block raises [IndexError]
    instead of falling back to the ordinary attention. *)
Lemma exhausted_cache_does_not_fall_back :
  list_at 0 patched_state = []
  ∧ call false toy_unet 2 0 (InjectingForward (Some 0%nat) None 1 1) [[[0]]; [[0]]]
      patched_state
    = (Raises IndexError, patched_state).
Proof.
  split; [reflexivity|].
  apply exhausted_cache_raises; [simpl; lia | reflexivity].
Qed.

End FallbackClaim.

(** ** The weighted attention of an intercepted block is finite *)

Module AttnFinite.
Import Tensor Attn AttnFacts Shapes FusedPath FusedTensor FusedClaim.
Local Open Scope R_scope.

Lemma leading_weight_nonneg w : leading_weight w → Forall (Rle 0) w.
Proof. intros (x & r & -> & Hx & Hr). constructor; [lra | exact Hr]. Qed.

Lemma scores_rows attn (query key : list mat) K :
  Forall (λ k : mat, length k = K) key →
  Forall (Forall (λ row, Forall (Rlt 0) row ∧ length row = K))
         (get_attention_scores attn query key None).
Proof.
  intros Hk. unfold get_attention_scores, baddbmm. revert query.
  induction Hk as [|k key Hk0 _ IH]; intros [|q query]; simpl; try constructor.
  - apply Forall_map, Forall_map, Forall_forall. intros qrow _. simpl.
    split; [apply softmax_pos|]. now rewrite softmax_length, length_map.
  - apply IH.
Qed.

Lemma zip_nonneg (ps ws : list R) :
  Forall (Rlt 0) ps → Forall (Rle 0) ws → Forall (Rle 0) (zip_with Rmult ps ws).
Proof.
  intros Hp. revert ws. induction Hp as [|p ps Hp0 _ IH]; intros [|w ws] Hw; simpl;
    try constructor.
  - apply Forall_cons in Hw as [Hw0 _]. apply Rmult_le_pos; lra.
  - apply Forall_cons in Hw as [_ Hw]. now apply IH.
Qed.

Lemma leading_mass_pos (prow w : list R) K :
  (0 < K)%nat → Forall (Rlt 0) prow → length prow = K → leading_weight w →
  0 < rsum (zip_with Rmult prow w).
Proof.
  intros HK Hp Hlen (x & r & -> & Hx & Hr).
  destruct prow as [|p ps]; [simpl in Hlen; lia|].
  apply Forall_cons in Hp as [Hp0 Hps]. simpl.
  pose proof (rsum_nonneg _ (zip_nonneg ps r Hps Hr)).
  pose proof (Rmult_lt_0_compat p x Hp0 Hx). lra.
Qed.

Lemma weighted_probs_finite (probs : list mat) (ws : list (list R)) K :
  (0 < K)%nat →
  Forall (Forall (λ row, Forall (Rlt 0) row ∧ length row = K)) probs →
  Forall leading_weight ws →
  is_Some (mapM (mapM renormalize) (mul_weights probs ws)).
Proof.
  intros HK Hp Hw. apply mapM_is_Some.
  pose proof (mul_weights_rows _ _ probs ws Hp Hw) as Hrows.
  eapply Forall_impl; [exact Hrows|]. intros m Hm. simpl. apply mapM_is_Some.
  eapply Forall_impl; [exact Hm|]. intros row (prow & w & [Hpp Hpl] & Hlw & ->). simpl.
  pose proof (leading_mass_pos prow w K HK Hpp Hpl Hlw) as Hmass.
  destruct (renormalize_Some (zip_with Rmult prow w)) as (r & -> & _); [lra | done].
Qed.

Lemma batch_to_head_dim_length attn (t : list mat) n :
  (0 < heads attn)%nat → length t = (n * heads attn)%nat →
  length (batch_to_head_dim attn t) = n.
Proof.
  intros HH Hl. unfold batch_to_head_dim. rewrite length_map, length_seq, Hl.
  apply Nat.div_mul. lia.
Qed.

Lemma bmm_length (p v : list mat) : length (bmm p v) = min (length p) (length v).
Proof. unfold bmm. apply length_zip_with. Qed.

Lemma get_attention_scores_length attn query key :
  length (get_attention_scores attn query key None) = min (length query) (length key).
Proof. unfold get_attention_scores, baddbmm. rewrite length_map. apply length_zip_with. Qed.

End AttnFinite.

Module AttnFiniteMain.
Import Tensor Attn AttnFacts Shapes FusedPath FusedTensor FusedClaim AttnFinite.
Local Open Scope R_scope.

(** The reference path on keys of [K > 0] positions and weights that start
    with a positive entry: a finite output with the batch size of the
    query. *)
Lemma reference_finite attn hs ehs (w : list (list R)) ls K :
  (0 < heads attn)%nat → norm_cross attn = false → (0 < K)%nat →
  length ehs = length hs → length w = length hs →
  Forall (λ m : mat, length m = K) ehs →
  Forall leading_weight w →
  ∃ out, attn_with_weights false attn hs (Some ehs) None (Some w) ls = Some out
         ∧ length out = length hs.
Proof.
  intros HH Hnorm HK Hel Hwl Hrows Hw.
  unfold attn_with_weights, prepare_attention_mask, reference_probs,
    weighted_attention_probs. cbn [negb default]. rewrite Hnorm.
  set (qt := match processor attn with Some p => _ | None => linear (to_q attn) hs end).
  set (kt := match processor attn with Some p => _ | None => linear (to_k attn) ehs end).
  set (vt := match processor attn with Some p => _ | None => linear (to_v attn) ehs end).
  assert (length qt = length hs) as Hql.
  { subst qt. destruct (processor attn);
      [rewrite tadd_length; rewrite ?tscale_length, !linear_length; reflexivity
      | apply linear_length]. }
  assert (length kt = length hs ∧ Forall (λ m : mat, length m = K) kt) as [Hkl Hkr].
  { subst kt. destruct (processor attn).
    - split.
      + rewrite tadd_length; rewrite ?tscale_length, !linear_length; [exact Hel | reflexivity].
      + apply tadd_rows; [|apply tscale_rows]; apply linear_rows; exact Hrows.
    - split; [now rewrite linear_length | apply linear_rows; exact Hrows]. }
  assert (length vt = length hs) as Hvl.
  { subst vt. destruct (processor attn);
      [rewrite tadd_length; rewrite ?tscale_length, !linear_length; [exact Hel | reflexivity]
      | now rewrite linear_length]. }
  set (query := head_to_batch_dim attn qt).
  set (key := head_to_batch_dim attn kt).
  set (value := head_to_batch_dim attn vt).
  set (probs := get_attention_scores attn query key None).
  set (ws := if decide (length w ≠ 1%nat) then repeat_interleave (heads attn) w else w).
  assert (length probs = (length hs * heads attn)%nat) as Hpl.
  { subst probs query key. rewrite get_attention_scores_length, !head_to_batch_dim_length. lia. }
  assert (Forall leading_weight ws) as Hws.
  { subst ws. case_decide; [now apply Forall_repeat_interleave | exact Hw]. }
  assert (length ws = 1%nat ∨ length ws = length probs) as Hlws.
  { subst ws. case_decide as Hd; [right | left; lia].
    rewrite length_repeat_interleave. lia. }
  assert (Forall (Forall (λ row, Forall (Rlt 0) row ∧ length row = K)) probs) as Hprobs.
  { subst probs. apply scores_rows. subst key. now apply head_to_batch_dim_rows. }
  destruct (weighted_probs_finite probs ws K HK Hprobs Hws) as [p Hp].
  rewrite Hp. cbn [mbind option_bind].
  eexists. split; [reflexivity|].
  assert (length p = (length hs * heads attn)%nat) as Hplen.
  { apply length_mapM in Hp. rewrite <- Hp, <- Hpl.
    apply (Forall2_length _ _ _ (mul_weights_shape probs ws Hlws)). }
  assert (length (batch_to_head_dim attn (bmm p value)) = length hs) as Hb.
  { apply batch_to_head_dim_length; [exact HH|].
    rewrite bmm_length, Hplen. subst value. rewrite head_to_batch_dim_length. lia. }
  rewrite linear_length. destruct (processor attn).
  - rewrite tadd_length; rewrite ?tscale_length, !linear_length; [exact Hb | reflexivity].
  - now rewrite linear_length.
Qed.

(** The same on either path. *)
Lemma attn_with_weights_finite has_xformers attn hs ehs (w : list (list R)) ls K :
  (0 < heads attn)%nat → norm_cross attn = false → (0 < K)%nat →
  rectangular hs →
  length ehs = length hs → length w = length hs →
  Forall (λ m : mat, length m = K) ehs →
  Forall leading_weight w →
  ∃ out, attn_with_weights has_xformers attn hs (Some ehs) None (Some w) ls = Some out
         ∧ length out = length hs.
Proof.
  intros HH Hnorm HK Hrect Hel Hwl Hrows Hw.
  destruct (reference_finite attn hs ehs w ls K HH Hnorm HK Hel Hwl Hrows Hw) as (out & E & Hl).
  exists out. split; [|exact Hl]. destruct has_xformers; [|exact E].
  rewrite <- (attn_paths_agree attn w hs (Some ehs) ls); [exact E | | exact Hrect | exact Hwl].
  eapply Forall_impl; [exact Hw|]. intros row. apply leading_weight_nonneg.
Qed.

End AttnFiniteMain.

Module AttnLength.
Import Tensor Attn AttnFacts Shapes FusedPath FusedTensor FusedClaim AttnFinite.
Local Open Scope R_scope.

(** Whenever [attn_with_weights] gives a finite output, on either path, the
    output has the batch size of the query. *)
Lemma attn_with_weights_length has_xformers attn hs ehs (w : list (list R)) ls out :
  (0 < heads attn)%nat → norm_cross attn = false →
  length ehs = length hs → length w = length hs →
  attn_with_weights has_xformers attn hs (Some ehs) None (Some w) ls = Some out →
  length out = length hs.
Proof.
  intros HH Hnorm Hel Hwl E.
  unfold attn_with_weights, prepare_attention_mask in E. cbn [default] in E.
  rewrite Hnorm in E.
  set (qt := match processor attn with Some p => _ | None => linear (to_q attn) hs end) in E.
  set (kt := match processor attn with Some p => _ | None => linear (to_k attn) ehs end) in E.
  set (vt := match processor attn with Some p => _ | None => linear (to_v attn) ehs end) in E.
  assert (length qt = length hs) as Hql.
  { subst qt. destruct (processor attn);
      [rewrite tadd_length; rewrite ?tscale_length, !linear_length; reflexivity
      | apply linear_length]. }
  assert (length kt = length hs) as Hkl.
  { subst kt. destruct (processor attn);
      [rewrite tadd_length; rewrite ?tscale_length, !linear_length; [exact Hel | reflexivity]
      | now rewrite linear_length]. }
  assert (length vt = length hs) as Hvl.
  { subst vt. destruct (processor attn);
      [rewrite tadd_length; rewrite ?tscale_length, !linear_length; [exact Hel | reflexivity]
      | now rewrite linear_length]. }
  set (query := head_to_batch_dim attn qt) in E.
  set (key := head_to_batch_dim attn kt) in E.
  set (value := head_to_batch_dim attn vt) in E.
  assert (length query = (length hs * heads attn)%nat) as Hq
    by (subst query; rewrite head_to_batch_dim_length; lia).
  assert (length key = (length hs * heads attn)%nat) as Hk
    by (subst key; rewrite head_to_batch_dim_length; lia).
  assert (length value = (length hs * heads attn)%nat) as Hv
    by (subst value; rewrite head_to_batch_dim_length; lia).
  assert (∃ p : list mat, length p = (length hs * heads attn)%nat
            ∧ out = linear (to_out_1 attn)
                      (match processor attn with
                       | Some lo =>
                           tadd (linear (to_out_0 attn) (batch_to_head_dim attn (bmm p value)))
                             (tscale ls (linear (to_out_lora lo)
                                           (batch_to_head_dim attn (bmm p value))))
                       | None => linear (to_out_0 attn) (batch_to_head_dim attn (bmm p value))
                       end)) as (p & Hp & ->).
  { destruct has_xformers; cbn [negb] in E.
    - unfold memory_efficient_attention, fused_bias, fused_probs in E.
      match type of E with
      | context [mapM ?F ?l] => destruct (mapM F l) as [p|] eqn:Hp; [|discriminate]
      end.
      cbn in E. injection E as <-. exists p. split; [|reflexivity].
      apply length_mapM in Hp. rewrite <- Hp, !length_zip. unfold log_bias.
      rewrite length_map, length_repeat_interleave. lia.
    - unfold reference_probs, weighted_attention_probs in E.
      match type of E with
      | context [mapM ?F ?l] => destruct (mapM F l) as [p|] eqn:Hp; [|discriminate]
      end.
      cbn in E. injection E as <-. exists p. split; [|reflexivity].
      apply length_mapM in Hp. rewrite <- Hp.
      set (probs := get_attention_scores attn query key None).
      assert (length probs = (length hs * heads attn)%nat) as Hpl
        by (subst probs; rewrite get_attention_scores_length; lia).
      set (ws := if decide (length w ≠ 1%nat) then repeat_interleave (heads attn) w else w).
      assert (length ws = 1%nat ∨ length ws = length probs) as Hlws.
      { subst ws. case_decide as Hd; [right | left; lia].
        rewrite length_repeat_interleave. lia. }
      rewrite <- Hpl. apply (Forall2_length _ _ _ (mul_weights_shape probs ws Hlws)). }
  assert (length (batch_to_head_dim attn (bmm p value)) = length hs) as Hb.
  { apply batch_to_head_dim_length; [exact HH|]. rewrite bmm_length. lia. }
  rewrite linear_length. destruct (processor attn).
  - rewrite tadd_length; rewrite ?tscale_length, !linear_length; [exact Hb | reflexivity].
  - now rewrite linear_length.
Qed.

End AttnLength.

Module InjectionClaim.
Import Tensor Attn Py Schedule Net NetFacts AttnFinite AttnFiniteMain AttnLength Toy.
Local Open Scope R_scope.

Lemma midpoint n : ((2 * n + 1) / 2)%nat = n.
Proof.
  symmetry. apply (Nat.div_unique (2 * n + 1) 2 n 1); lia.
Qed.

Lemma size1_rows (t : tensor) K :
  t ≠ [] → Forall (λ m : mat, length m = K) t → size1 t = K.
Proof. intros Hne H. destruct t; [done|]. now apply Forall_cons in H as [H _]. Qed.

Lemma length_concat_replicate {A} r (row : list A) :
  length (concat (replicate r row)) = (r * length row)%nat.
Proof. induction r as [|r IH]; simpl; [reflexivity|]. rewrite length_app, IH. lia. Qed.

(** The weight rows of a half: ones over the own positions, the injection
    weight over the cached ones. *)
Lemma half_weights_eq n S r (x : R) :
  fill_from S x (repeat_cols (1 + r) (ones n S))
  = replicate n (replicate S 1 ++ replicate (r * S) x).
Proof.
  unfold fill_from, repeat_cols, ones.
  change (map ?f ?l) with (f <$> l). rewrite !fmap_replicate. f_equal.
  simpl. rewrite take_app_length' by now rewrite length_replicate.
  rewrite length_app, length_concat_replicate, !length_replicate.
  f_equal. f_equal. lia.
Qed.

Lemma half_weights_leading n S r x :
  (0 < S)%nat → 0 <= x →
  Forall leading_weight (replicate n (replicate S 1 ++ replicate (r * S) x)).
Proof.
  intros HS Hx. apply Forall_replicate. destruct S as [|S']; [lia|].
  exists 1, (replicate S' 1 ++ replicate (r * S S') x).
  split; [reflexivity|]. split; [lra|].
  apply Forall_app. split; apply Forall_replicate; lra.
Qed.

Lemma cat1_rows (s t : tensor) a b :
  Forall (λ m : mat, length m = a) s → Forall (λ m : mat, length m = b) t →
  Forall (λ m : mat, length m = (a + b)%nat) (cat1 s t).
Proof.
  intros Hs. revert t. unfold cat1.
  induction Hs as [|m s Hm _ IH]; intros [|m' t] Ht; simpl; try constructor.
  - apply Forall_cons in Ht as [Hm' _]. rewrite length_app. lia.
  - apply Forall_cons in Ht as [_ Ht]. now apply IH.
Qed.

Lemma list_pop0_cons l st x rest :
  list_at l st = x :: rest →
  list_pop0 l st = (Returns x, {| attrs := attrs st; heap := <[l := rest]> (heap st) |}).
Proof. intros H. unfold list_pop0. now rewrite H. Qed.

Lemma floordiv_returns {S} (a b : nat) (st : S) :
  b ≠ 0%nat → floordiv a b st = (Returns (a / b)%nat, st).
Proof. intros H. unfold floordiv. case_decide; [done | reflexivity]. Qed.

Lemma bind_non_finite {S A B} (m : M S A) (f : A → M S B) st st' :
  m st = (NonFinite, st') → (m ≫= f) st = (NonFinite, st').
Proof. intros E. unfold mbind, M_bind. now rewrite E. Qed.

Section Half.
Variable has_xformers : bool.
Variable unet : UNet.

(** A half of the batch with a cached tensor at the front of its list: the
    list loses its front, and the half is what [attn_with_weights] gives on
    the own hidden state, the concatenation and the weights of the half. *)
Lemma inject_half_popped self old_forward l (hiddens : tensor) n S r w st c rest :
  (0 < S)%nat → list_at l st = c :: rest →
  c ≠ [] → Forall (λ m : mat, length m = (r * S)%nat) c →
  inject_half has_xformers unet self old_forward (Some l) hiddens (ones n S) S w st
  = (match attn_with_weights has_xformers (attn1 unet self) hiddens
             (Some (cat1 hiddens c)) None
             (Some (replicate n (replicate S 1 ++ replicate (r * S) w))) 1 with
     | Some out => Returns out
     | None => NonFinite
     end, {| attrs := attrs st; heap := <[l := rest]> (heap st) |}).
Proof.
  intros HS Hl Hcne Hcr. unfold inject_half.
  rewrite (bind_returns _ _ _ _ _ (list_pop0_cons l st c rest Hl)).
  rewrite (size1_rows c (r * S) Hcne Hcr).
  rewrite (bind_returns _ _ _ _ _ (floordiv_returns (r * S) S _ ltac:(lia))).
  rewrite Nat.div_mul by lia. rewrite half_weights_eq. reflexivity.
Qed.

(** With an injection weight that is not negative the half is finite. *)
Lemma half_finite self (hiddens : tensor) n S r w c :
  (0 < heads (attn1 unet self))%nat → norm_cross (attn1 unet self) = false →
  (0 < n)%nat → (0 < S)%nat → 0 <= w →
  length hiddens = n → Forall (λ m : mat, length m = S) hiddens →
  length c = n → Forall (λ m : mat, length m = (r * S)%nat) c →
  is_Some (attn_with_weights has_xformers (attn1 unet self) hiddens
             (Some (cat1 hiddens c)) None
             (Some (replicate n (replicate S 1 ++ replicate (r * S) w))) 1).
Proof.
  intros HH Hnorm Hn HS Hw Hlen Hrows Hcl Hcr.
  assert (hiddens ≠ []) as Hne by (intros ->; simpl in Hlen; lia).
  destruct (attn_with_weights_finite has_xformers (attn1 unet self) hiddens
              (cat1 hiddens c) (replicate n (replicate S 1 ++ replicate (r * S) w)) 1
              (S + r * S)) as (out & E & _).
  - exact HH.
  - exact Hnorm.
  - lia.
  - unfold rectangular. now rewrite (size1_rows hiddens S Hne Hrows).
  - unfold cat1. rewrite length_zip_with. lia.
  - rewrite length_replicate. now symmetry.
  - now apply cat1_rows.
  - now apply half_weights_leading.
  - exists out. exact E.
Qed.

(** A finite half has the batch size of its hidden state. *)
Lemma half_length self (hiddens : tensor) n S r w c out :
  (0 < heads (attn1 unet self))%nat → norm_cross (attn1 unet self) = false →
  length hiddens = n → length c = n →
  attn_with_weights has_xformers (attn1 unet self) hiddens
    (Some (cat1 hiddens c)) None
    (Some (replicate n (replicate S 1 ++ replicate (r * S) w))) 1 = Some out →
  length out = n.
Proof.
  intros HH Hnorm Hlen Hcl E.
  rewrite <- Hlen. apply (attn_with_weights_length _ _ _ _ _ _ _ HH Hnorm) in E.
  - exact E.
  - unfold cat1. rewrite length_zip_with. lia.
  - rewrite length_replicate. now symmetry.
Qed.

End Half.
End InjectionClaim.

Module InjectionBlock.
Import Tensor Attn Py Schedule Net NetFacts AttnFinite AttnFiniteMain InjectionClaim Toy.
Import InjectionSpec.
Local Open Scope R_scope.

Section Half.
Variable has_xformers : bool.
Variable unet : UNet.

(** One half of an intercepted block, with or without a cache. *)
Lemma inject_half_expected self old_forward cache (hiddens : tensor) n d_model w st out :
  (0 < n)%nat → (0 < d_model)%nat →
  length hiddens = n → Forall (λ m : mat, length m = d_model) hiddens →
  cache_ready cache st n d_model →
  (cache = None → old_forward hiddens st = (Returns (attn1_forward unet self hiddens), st)) →
  expected_half has_xformers unet self (front_of cache st) hiddens w = Some out →
  inject_half has_xformers unet self old_forward cache hiddens (ones n d_model) d_model w st
  = (Returns out, pop_front cache st).
Proof.
  intros Hn HS Hlen Hrows Hready Hold E.
  assert (hiddens ≠ []) as Hne by (intros ->; simpl in Hlen; lia).
  destruct cache as [l|]; cbn [front_of pop_front expected_half] in *.
  - destruct Hready as (c & rest & r & Hl & Hcl & Hcr).
    assert (c ≠ []) as Hcne by (intros ->; simpl in Hcl; lia).
    rewrite Hl in E. cbn [head expected_half] in E. rewrite Hl. cbn [tail].
    unfold size0 in E.
    rewrite Hlen, (size1_rows hiddens d_model Hne Hrows), (size1_rows c _ Hcne Hcr) in E.
    rewrite (inject_half_popped has_xformers unet self old_forward l hiddens n d_model r w
               st c rest HS Hl Hcne Hcr).
    now rewrite E.
  - injection E as <-. cbn [inject_half]. now apply Hold.
Qed.

Lemma expected_half_length self cache (hiddens : tensor) n d_model w st out :
  (0 < n)%nat → (0 < heads (attn1 unet self))%nat → norm_cross (attn1 unet self) = false →
  (∀ x, length (attn1_forward unet self x) = length x) →
  length hiddens = n → Forall (λ m : mat, length m = d_model) hiddens →
  cache_ready cache st n d_model →
  expected_half has_xformers unet self (front_of cache st) hiddens w = Some out →
  length out = n.
Proof.
  intros Hn HH Hnorm Hord Hlen Hrows Hready E.
  assert (hiddens ≠ []) as Hne by (intros ->; simpl in Hlen; lia).
  destruct cache as [l|]; cbn [front_of expected_half] in *.
  - destruct Hready as (c & rest & r & Hl & Hcl & Hcr).
    assert (c ≠ []) as Hcne by (intros ->; simpl in Hcl; lia).
    rewrite Hl in E. cbn [head expected_half] in E. unfold size0 in E.
    rewrite Hlen, (size1_rows hiddens d_model Hne Hrows), (size1_rows c _ Hcne Hcr) in E.
    exact (half_length has_xformers unet self hiddens n d_model r w c out HH Hnorm Hlen Hcl E).
  - injection E as <-. now rewrite Hord.
Qed.

End Half.

(** The call of an intercepted block on halves whose attention is finite. *)
Lemma call_injecting has_xformers unet depth self (hs : tensor) cp cn pw nw st
    (n d_model : nat) out_pos out_neg :
  (0 < n)%nat → (0 < d_model)%nat →
  length hs = (2 * n)%nat → Forall (λ m : mat, length m = d_model) hs →
  cache_ready cp st n d_model → cache_ready cn st n d_model →
  (∀ lp ln, cp = Some lp → cn = Some ln → lp ≠ ln) →
  (cp = None ∨ cn = None → instance_dict self st !! "old_forward" = Some OrdinaryForward) →
  expected_half has_xformers unet self (front_of cp st) (take n hs) pw = Some out_pos →
  expected_half has_xformers unet self (front_of cn st) (drop n hs) nw = Some out_neg →
  call has_xformers unet (S (S depth)) self (InjectingForward cp cn pw nw) hs st
  = (Returns (cat0 out_pos out_neg), pop_front cn (pop_front cp st)).
Proof.
  intros Hn HS Hlen Hrows Hrp Hrn Hne Hold Ep En.
  set (cond := take n hs) in *. set (uncond := drop n hs) in *.
  assert (length cond = n) as Hcl by (subst cond; rewrite length_take; lia).
  assert (length uncond = n) as Hul by (subst uncond; rewrite length_drop; lia).
  assert (Forall (λ m : mat, length m = d_model) cond) as Hcr by now apply Forall_take.
  assert (Forall (λ m : mat, length m = d_model) uncond) as Hur by now apply Forall_drop.
  set (old_forward := λ x : tensor,
         c' ← getattr_old_forward self; call has_xformers unet (S depth) self c' x).
  set (st1 := pop_front cp st).
  assert (attrs st1 = attrs st) as Hattrs by (subst st1; now destruct cp).
  assert (∀ ln, cn = Some ln → list_at ln st1 = list_at ln st) as Hsame.
  { intros ln ->. subst st1. destruct cp as [lp|]; [|reflexivity].
    unfold list_at. cbn [pop_front heap].
    rewrite lookup_insert_ne; [reflexivity|]. now apply Hne. }
  assert (cache_ready cn st1 n d_model) as Hrn1.
  { destruct cn as [ln|]; [|exact I]. cbn [cache_ready] in *.
    now rewrite (Hsame ln eq_refl). }
  assert (front_of cn st1 = front_of cn st) as Hfront.
  { destruct cn as [ln|]; [|reflexivity]. cbn [front_of]. now rewrite (Hsame ln eq_refl). }
  assert (inject_half has_xformers unet self old_forward cp cond (ones n d_model) d_model pw st
          = (Returns out_pos, st1)) as Hpos.
  { apply inject_half_expected; try assumption.
    intros ->. apply old_forward_ordinary. apply Hold. now left. }
  assert (inject_half has_xformers unet self old_forward cn uncond (ones n d_model) d_model
            nw st1
          = (Returns out_neg, pop_front cn st1)) as Hneg.
  { apply inject_half_expected; try assumption.
    - intros ->. apply old_forward_ordinary.
      rewrite (instance_dict_attrs self st st1 Hattrs). apply Hold. now right.
    - now rewrite Hfront. }
  cbn [call]. fold old_forward. unfold injecting_new_forward.
  assert (length hs ≠ 1%nat) as Hne1 by lia.
  rewrite (bind_returns _ _ _ _ _ (chunk2_returns hs st Hne1)).
  rewrite Hlen, midpoint. fold cond uncond.
  assert (cond ≠ []) as Hcne by (intros E; rewrite E in Hcl; simpl in Hcl; lia).
  unfold size0. rewrite Hcl, (size1_rows cond d_model Hcne Hcr).
  rewrite (bind_returns _ _ _ _ _ Hpos), (bind_returns _ _ _ _ _ Hneg). reflexivity.
Qed.

(** C2: an intercepted block, whichever of its two caches are present.  The
    input batch of [2 n] entries is split at [n].  A half with a present
    cache pops the front tensor of its list, appends it along the sequence
    dimension to its own hidden state, weights the [d_model] own positions
    by 1 and the appended positions by the block's injection weight, and
    runs [attn_with_weights] with the half's own hidden state as the query;
    a half without a cache gets the ordinary attention.  The outputs are
    concatenated, conditioned half first, and have the batch size of the
    input.  A present list loses exactly its front tensor. *)
Theorem injected_block has_xformers unet depth self (hs : tensor) cp cn pw nw st
    (n d_model : nat) :
  (0 < n)%nat → (0 < d_model)%nat →
  length hs = (2 * n)%nat → Forall (λ m : mat, length m = d_model) hs →
  cache_ready cp st n d_model → cache_ready cn st n d_model →
  (∀ lp ln, cp = Some lp → cn = Some ln → lp ≠ ln) →
  (cp = None ∨ cn = None → instance_dict self st !! "old_forward" = Some OrdinaryForward) →
  let cond_hiddens := take n hs in
  let uncond_hiddens := drop n hs in
  ∀ out_pos out_neg,
    expected_half has_xformers unet self (front_of cp st) cond_hiddens pw = Some out_pos →
    expected_half has_xformers unet self (front_of cn st) uncond_hiddens nw = Some out_neg →
    call has_xformers unet (S (S depth)) self (InjectingForward cp cn pw nw) hs st
    = (Returns (cat0 out_pos out_neg), pop_front cn (pop_front cp st))
    ∧ ((0 < heads (attn1 unet self))%nat → norm_cross (attn1 unet self) = false →
       (∀ x, length (attn1_forward unet self x) = length x) →
       length out_pos = n ∧ length out_neg = n
       ∧ length (cat0 out_pos out_neg) = length hs).
Proof.
  intros Hn HS Hlen Hrows Hrp Hrn Hne Hold cond uncond out_pos out_neg Ep En.
  split; [now apply (call_injecting _ _ _ _ _ _ _ _ _ _ n d_model)|].
  assert (length cond = n) as Hcl by (subst cond; rewrite length_take; lia).
  assert (length uncond = n) as Hul by (subst uncond; rewrite length_drop; lia).
  assert (Forall (λ m : mat, length m = d_model) cond) as Hcr by now apply Forall_take.
  assert (Forall (λ m : mat, length m = d_model) uncond) as Hur by now apply Forall_drop.
  intros HH Hnorm Hord.
  pose proof (expected_half_length has_xformers unet self cp cond n d_model pw st out_pos
                Hn HH Hnorm Hord Hcl Hcr Hrp Ep) as Hpl.
  pose proof (expected_half_length has_xformers unet self cn uncond n d_model nw st out_neg
                Hn HH Hnorm Hord Hul Hur Hrn En) as Hnl.
  split; [exact Hpl|]. split; [exact Hnl|].
  unfold cat0. rewrite length_app. lia.
Qed.

(** A run of C2 on a batch of two entries: the conditioned half has a cache
    with one cached position, the unconditioned half has none. *)
Lemma injected_block_witness :
  ∃ out_pos,
    attn_with_weights false plain_attention [[[0]]] (Some [[[0]; [0]]]) None
      (Some [[1; 1 / 2]]) 1 = Some out_pos
    ∧ call false toy_unet 2 0 (InjectingForward (Some 0%nat) None (1 / 2) (1 / 4))
        [[[0]]; [[0]]] half_cached_state
      = (Returns (cat0 out_pos [[[0]]]),
         {| attrs := attrs half_cached_state; heap := <[0%nat := []]> (heap half_cached_state) |})
    ∧ length (cat0 out_pos [[[0]]]) = 2%nat.
Proof.
  destruct (half_finite false toy_unet 0 [[[0]]] 1 1 1 (1 / 2) [[[0]]]) as [out_pos E];
    [cbn; lia | reflexivity | lia | lia | lra | reflexivity | repeat constructor
    | reflexivity | repeat constructor |].
  exists out_pos. split; [exact E|].
  assert (cache_ready (Some 0%nat) half_cached_state 1 1) as Hready.
  { exists [[[0]]], [], 1%nat. split; [reflexivity|]. split; [reflexivity|].
    repeat constructor. }
  destruct (injected_block false toy_unet 0 0 [[[0]]; [[0]]] (Some 0%nat) None
              (1 / 2) (1 / 4) half_cached_state 1 1) with (out_pos := out_pos)
              (out_neg := [[[0 : R]]]) as [Hcall Hlen].
  - lia.
  - lia.
  - reflexivity.
  - repeat constructor.
  - exact Hready.
  - exact I.
  - intros lp ln _ Hn. discriminate Hn.
  - intros _. reflexivity.
  - exact E.
  - reflexivity.
  - split; [exact Hcall|]. apply Hlen; [cbn; lia | reflexivity | intros x; reflexivity].
Defined.

End InjectionBlock.

(** ** Patching and restoring the modules *)

Module PassFacts.
Import Tensor Attn Py Schedule Net NetFacts.
Local Open Scope R_scope.

Lemma instance_dict_insert m m' d st h :
  instance_dict m' {| attrs := <[m := d]> (attrs st); heap := h |}
  = if decide (m = m') then d else instance_dict m' st.
Proof.
  unfold instance_dict. simpl. rewrite lookup_insert. now case_decide.
Qed.

(** What [patch] does to the attributes. *)
Lemma patch_spec c m st :
  ∃ st', patch c m st = (Returns (), st')
         ∧ heap st' = heap st
         ∧ forward_of m st' = c
         ∧ old_forward_of m st' = Some (forward_of m st)
         ∧ (∀ m', m' ≠ m → instance_dict m' st' = instance_dict m' st).
Proof.
  unfold patch, getattr_forward, setattr, mbind, M_bind. cbv beta iota.
  eexists. split; [reflexivity|]. cbn [heap]. split; [reflexivity|].
  unfold forward_of, old_forward_of. rewrite !instance_dict_insert.
  destruct (decide (m = m)) as [_|?]; [|done]. split; [|split].
  - now rewrite lookup_insert_eq.
  - rewrite lookup_insert_ne by done. now rewrite lookup_insert_eq.
  - intros m' Hne. rewrite !instance_dict_insert.
    destruct (decide (m = m')) as [?|_]; [congruence | reflexivity].
Qed.

(** What [restore] does: it needs an [old_forward] and moves it back. *)
Lemma restore_spec m st :
  match old_forward_of m st with
  | Some c =>
      ∃ st', restore m st = (Returns (), st')
             ∧ heap st' = heap st
             ∧ forward_of m st' = c
             ∧ old_forward_of m st' = None
             ∧ (∀ m', m' ≠ m → instance_dict m' st' = instance_dict m' st)
  | None => restore m st = (Raises AttributeError, st)
  end.
Proof.
  unfold old_forward_of. destruct (instance_dict m st !! "old_forward") as [c|] eqn:E.
  - unfold restore. rewrite (bind_returns _ _ _ _ _ (getattr_old_forward_Some m st c E)).
    unfold setattr, delattr, mbind, M_bind. cbv beta iota.
    rewrite instance_dict_insert.
    destruct (decide (m = m)) as [_|?]; [|done].
    rewrite lookup_insert_ne by done. rewrite E.
    eexists. split; [reflexivity|]. cbn [heap]. split; [reflexivity|].
    unfold forward_of, old_forward_of. rewrite !instance_dict_insert.
    destruct (decide (m = m)) as [_|?]; [|done]. split; [|split].
    + rewrite lookup_delete_ne by done. now rewrite lookup_insert_eq.
    + now rewrite lookup_delete_eq.
    + intros m' Hne. rewrite !instance_dict_insert.
      destruct (decide (m = m')) as [?|_]; [congruence | reflexivity].
  - unfold restore, getattr_old_forward, mbind, M_bind. now rewrite E.
Qed.

Lemma patched_from_attrs st0 P st st' :
  attrs st' = attrs st → patched_from st0 P st → patched_from st0 P st'.
Proof.
  intros E [Hold Hrest]. split.
  - intros m Hm. unfold old_forward_of. rewrite (instance_dict_attrs m st st' E).
    now apply Hold.
  - intros m Hm. rewrite (instance_dict_attrs m st st' E). now apply Hrest.
Qed.

Lemma patch_step st0 P st c m :
  patched_from st0 P st → m ∉ P →
  ∃ st', patch c m st = (Returns (), st')
         ∧ patched_from st0 (m :: P) st'
         ∧ forward_of m st' = c.
Proof.
  intros [Hold Hrest] Hm.
  destruct (patch_spec c m st) as (st' & E & _ & Hfwd & Hold' & Hother).
  exists st'. split; [exact E|]. split; [|exact Hfwd]. split.
  - intros m' Hm'. destruct (decide (m' = m)) as [->|Hne].
    + rewrite Hold'. unfold forward_of. now rewrite (Hrest m Hm).
    + apply elem_of_cons in Hm' as [?|Hm']; [done|].
      unfold old_forward_of. rewrite (Hother m' Hne). now apply Hold.
  - intros m' Hm'. apply not_elem_of_cons in Hm' as [Hne Hm'].
    rewrite (Hother m' Hne). now apply Hrest.
Qed.

Lemma patched_from_equiv st0 P Q st :
  (∀ m, m ∈ P ↔ m ∈ Q) → patched_from st0 P st → patched_from st0 Q st.
Proof.
  intros HPQ [Hold Hrest]. split.
  - intros m Hm. apply Hold. now apply HPQ.
  - intros m Hm. apply Hrest. intros HP. apply Hm. now apply HPQ.
Qed.

(** [for m in l: patch m] always returns. *)
Lemma foreach_patch c l : ∀ st0 P st,
  patched_from st0 P st → NoDup l → (∀ m, m ∈ l → m ∉ P) →
  ∃ st', foreach l (patch c) st = (Returns (), st')
         ∧ patched_from st0 (l ++ P) st'
         ∧ (∀ m, m ∈ l → forward_of m st' = c).
Proof.
  induction l as [|m l IH]; intros st0 P st Hpf Hnd Hdisj.
  - exists st. split; [reflexivity|]. split; [exact Hpf|]. intros m Hm. inversion Hm.
  - apply NoDup_cons in Hnd as [Hm Hnd].
    destruct (patch_step st0 P st c m Hpf) as (st1 & E1 & Hpf1 & Hfwd1).
    { apply Hdisj. now left. }
    destruct (IH st0 (m :: P) st1 Hpf1 Hnd) as (st' & E' & Hpf' & Hfwd').
    { intros m' Hm' Hin. apply elem_of_cons in Hin as [->|Hin]; [done|].
      apply (Hdisj m'); [now right | exact Hin]. }
    exists st'. split; [|split].
    + cbn [foreach]. rewrite (bind_returns _ _ _ _ _ E1). exact E'.
    + eapply patched_from_equiv; [|exact Hpf']. intros x.
      change ((m :: l) ++ P) with (m :: (l ++ P)).
      rewrite elem_of_cons, !elem_of_app, elem_of_cons. tauto.
    + intros m' Hm'. apply elem_of_cons in Hm' as [->|Hm']; [|now apply Hfwd'].
      destruct Hpf' as [_ Hrest']. destruct Hpf1 as [_ Hrest1].
      assert (instance_dict m st' = instance_dict m st1) as Hd.
      { assert (∃ st'', foreach l (patch c) st1 = (Returns (), st'')
                        ∧ (∀ x, x ∉ l → instance_dict x st'' = instance_dict x st1)) as Hkeep.
        { clear -Hnd. revert st1. induction l as [|y l IHl]; intros st1.
          - exists st1. split; [reflexivity | done].
          - apply NoDup_cons in Hnd as [_ Hnd].
            destruct (patch_spec c y st1) as (st2 & E2 & _ & _ & _ & Hother).
            destruct (IHl Hnd st2) as (st3 & E3 & Hk3).
            exists st3. split.
            + cbn [foreach]. rewrite (bind_returns _ _ _ _ _ E2). exact E3.
            + intros x Hx. apply not_elem_of_cons in Hx as [Hxy Hx].
              rewrite (Hk3 x Hx). now apply Hother. }
        destruct Hkeep as (st'' & E'' & Hk). rewrite E' in E''.
        injection E'' as <-. now apply Hk. }
      unfold forward_of in *. now rewrite Hd.
Qed.

(** [for m in l: restore m], when it returns, has found an [old_forward] on
    every module of [l] and has moved it back. *)
Lemma foreach_restore l : NoDup l → ∀ st st',
  foreach l restore st = (Returns (), st') →
  (∀ m, m ∈ l → ∃ c, old_forward_of m st = Some c ∧ forward_of m st' = c
                     ∧ old_forward_of m st' = None)
  ∧ (∀ m, m ∉ l → instance_dict m st' = instance_dict m st).
Proof.
  induction 1 as [|m l Hm Hnd IH]; intros st st' E.
  - injection E as <-. split; [intros m Hm; inversion Hm | done].
  - cbn [foreach] in E. pose proof (restore_spec m st) as Hr.
    destruct (old_forward_of m st) as [c|] eqn:Eold.
    + destruct Hr as (st1 & E1 & _ & Hfwd1 & Hold1 & Hother1).
      rewrite (bind_returns _ _ _ _ _ E1) in E.
      destruct (IH st1 st' E) as [Hin Hout]. split.
      * intros m' Hm'. apply elem_of_cons in Hm' as [->|Hm'].
        -- exists c. split; [exact Eold|].
           unfold forward_of, old_forward_of in *. rewrite (Hout m Hm). now split.
        -- destruct (Hin m' Hm') as (c' & Hc' & Hf' & Ho').
           exists c'. split; [|now split].
           unfold old_forward_of in *. rewrite <- (Hother1 m'); [exact Hc'|].
           intros ->. done.
      * intros m' Hm'. apply not_elem_of_cons in Hm' as [Hne Hm'].
        rewrite (Hout m' Hm'). now apply Hother1.
    + rewrite (bind_raises _ _ _ _ _ Hr) in E. discriminate.
Qed.

End PassFacts.

Module RunFacts.
Import Tensor Attn Py Schedule Net NetFacts PassFacts.
Local Open Scope R_scope.

Section Runs.
Variable has_xformers : bool.
Variable unet : UNet.
Variable recursion_limit : nat.

(** A forward pass, instrumented or not, leaves the attributes alone. *)
Lemma run_attrs {A} (p : prog A) st :
  attrs (run has_xformers unet recursion_limit p st).2 = attrs st.
Proof.
  revert st. induction p as [a|m h k IH]; intros st; [reflexivity|].
  cbn [run]. apply bind_attrs; [reflexivity|]. intros c st0.
  apply bind_attrs; [intros st1; apply call_attrs|]. intros r st1. apply IH.
Qed.

(** Without instrumentation the pass computes [plain_run] and changes
    nothing. *)
Lemma run_plain {A} (p : prog A) st :
  (∀ m, forward_of m st = OrdinaryForward) → (0 < recursion_limit)%nat →
  run has_xformers unet recursion_limit p st = (Returns (plain_run unet p), st).
Proof.
  intros Hord Hlim. destruct recursion_limit as [|d] eqn:El; [lia|].
  induction p as [a|m h k IH]; [reflexivity|].
  cbn [run plain_run]. unfold getattr_forward, mbind, M_bind. rewrite Hord.
  cbn [call]. unfold mret, M_ret. apply IH.
Qed.

(** The caching pass computes what the network computes without it. *)
Lemma run_caching {A} (p : prog A) (L : list nat) l : ∀ st,
  (2 ≤ recursion_limit)%nat →
  (∀ m, m ∈ L → forward_of m st = CachingForward l
                ∧ old_forward_of m st = Some OrdinaryForward) →
  (∀ m, m ∉ L → forward_of m st = OrdinaryForward) →
  ∃ st', run has_xformers unet recursion_limit p st = (Returns (plain_run unet p), st')
         ∧ attrs st' = attrs st.
Proof.
  intros st Hlim. destruct recursion_limit as [|[|d]] eqn:El; [lia..|].
  revert st. induction p as [a|m h k IH]; intros st Hin Hout.
  - exists st. split; reflexivity.
  - cbn [run plain_run].
    rewrite (bind_returns _ _ st _ _ (eq_refl : getattr_forward m st = (Returns (forward_of m st), st))).
    destruct (decide (m ∈ L)) as [Hm|Hm].
    + destruct (Hin m Hm) as [Hf Ho]. rewrite Hf.
      set (st1 := {| attrs := attrs st; heap := <[l := list_at l st ++ [h]]> (heap st) |}).
      assert (attrs st1 = attrs st) as E1 by reflexivity.
      assert (call has_xformers unet (S (S d)) m (CachingForward l) h st
              = (Returns (attn1_forward unet m h), st1)) as Hcall.
      { cbn [call]. unfold caching_new_forward.
        rewrite (bind_returns _ _ st _ _ (eq_refl : list_append l h st = (Returns (), st1))).
        apply old_forward_ordinary.
        fold (old_forward_of m st1). unfold old_forward_of.
        rewrite (instance_dict_attrs m st st1 E1). exact Ho. }
      rewrite (bind_returns _ _ _ _ _ Hcall).
      destruct (IH (attn1_forward unet m h) st1) as (st' & E' & Ha').
      * intros m' Hm'. unfold forward_of, old_forward_of.
        rewrite (instance_dict_attrs m' st st1 E1). now apply Hin.
      * intros m' Hm'. rewrite (forward_of_attrs m' st st1 E1). now apply Hout.
      * exists st'. split; [exact E' | now rewrite Ha'].
    + rewrite (Hout m Hm).
      rewrite (bind_returns _ _ st _ _
                 (eq_refl : call has_xformers unet (S (S d)) m OrdinaryForward h st
                            = (Returns (attn1_forward unet m h), st))).
      now apply IH.
Qed.

End Runs.

(** The nested loop of the injection pass always returns. *)
Lemma foreach_blocks_patch cp cn (wb : list (list nat * (R * R))) : ∀ st0 P st,
  patched_from st0 P st → NoDup (concat (wb.*1)) → (∀ m, m ∈ concat (wb.*1) → m ∉ P) →
  ∃ st', foreach wb (λ '(block, (pos_weight, neg_weight)),
                       foreach block (patch (InjectingForward cp cn pos_weight neg_weight))) st
         = (Returns (), st')
         ∧ patched_from st0 (concat (wb.*1) ++ P) st'.
Proof.
  induction wb as [|[block [pw nw]] wb IH]; intros st0 P st Hpf Hnd Hdisj.
  - exists st. split; [reflexivity | exact Hpf].
  - cbn [fmap list_fmap concat fst] in *. apply NoDup_app in Hnd as (Hb & Hbw & Hw).
    destruct (foreach_patch (InjectingForward cp cn pw nw) block st0 P st Hpf Hb)
      as (st1 & E1 & Hpf1 & _).
    { intros m Hm. apply Hdisj. apply elem_of_app. now left. }
    destruct (IH st0 (block ++ P) st1 Hpf1 Hw) as (st' & E' & Hpf').
    { intros m Hm Hin. apply elem_of_app in Hin as [Hin|Hin].
      - now apply (Hbw m).
      - apply (Hdisj m); [apply elem_of_app; now right | exact Hin]. }
    exists st'. split.
    + cbn [foreach]. rewrite (bind_returns _ _ _ _ _ E1). exact E'.
    + eapply patched_from_equiv; [|exact Hpf']. intros x.
      rewrite !elem_of_app. tauto.
Qed.

End RunFacts.

Module RestoreFacts.
Import Tensor Attn Py Schedule Net NetFacts PassFacts RunFacts.
Local Open Scope R_scope.

Lemma zip_fst_take {A B} (l : list A) (k : list B) : (zip l k).*1 = take (length k) l.
Proof.
  revert k. induction l as [|x l IH]; intros [|y k]; simpl; try reflexivity.
  now rewrite IH.
Qed.

Lemma concat_take_sub {A} j (L : list (list A)) :
  NoDup (concat L) →
  NoDup (concat (take j L)) ∧ ∀ m, m ∈ concat (take j L) → m ∈ concat L.
Proof.
  intros Hnd. rewrite <- (take_drop j L), concat_app in Hnd.
  apply NoDup_app in Hnd as (Hnd & _ & _). split; [exact Hnd|].
  intros m Hm. rewrite <- (take_drop j L), concat_app. apply elem_of_app. now left.
Qed.

Lemma modules_eq unet :
  modules unet
  = concat (down_blocks unet ++ [mid_block unet] ++ up_blocks unet) ++ loose_blocks unet.
Proof.
  unfold modules. rewrite !concat_app. simpl. rewrite <- !app_assoc. reflexivity.
Qed.

(** The modules the injection pass patches are modules of the network,
    each met once. *)
Lemma weighted_blocks_sub unet pos_weights neg_weights :
  NoDup (modules unet) →
  NoDup (concat ((weighted_blocks unet pos_weights neg_weights).*1))
  ∧ ∀ m, m ∈ concat ((weighted_blocks unet pos_weights neg_weights).*1) → m ∈ modules unet.
Proof.
  intros Hnd. unfold weighted_blocks. rewrite zip_fst_take.
  rewrite modules_eq in Hnd. apply NoDup_app in Hnd as (Hnd & _ & _).
  destruct (concat_take_sub
              (length (zip (block_weights pos_weights (length (down_blocks unet)))
                           (block_weights neg_weights (length (down_blocks unet)))))
              _ Hnd) as [H1 H2].
  split; [exact H1|]. intros m Hm. rewrite modules_eq. apply elem_of_app. left. now apply H2.
Qed.

Section Restore.
Variable has_xformers : bool.
Variable unet : UNet.
Variable recursion_limit : nat.

(** The common tail of both passes: run the network, restore every module.
    If it returns, every [forward] is back. *)
Lemma pass_restores {A B} (P : list nat) st0 st2 (p : prog A) (f : A → B) out st' :
  NoDup (modules unet) → clean st0 → patched_from st0 P st2 →
  (∀ m, m ∈ P → m ∈ modules unet) →
  (r ← run has_xformers unet recursion_limit p;
   foreach (modules unet) restore;; mret (f r)) st2 = (Returns out, st') →
  restored st0 st'.
Proof.
  intros Hnd Hclean Hpf Hsub E.
  apply bind_returns_inv in E as (r & st3 & Erun & E).
  apply bind_returns_inv in E as ([] & st4 & Erest & E).
  injection E as _ <-.
  assert (patched_from st0 P st3) as [Hold3 Hrest3].
  { eapply patched_from_attrs; [|exact Hpf].
    pose proof (run_attrs has_xformers unet recursion_limit p st2) as Ha.
    now rewrite Erun in Ha. }
  destruct (foreach_restore (modules unet) Hnd st3 st4 Erest) as [Hin Hout].
  assert (∀ m, forward_of m st4 = forward_of m st0 ∧ old_forward_of m st4 = None) as Hall.
  { intros m. destruct (decide (m ∈ modules unet)) as [Hm|Hm].
    - destruct (Hin m Hm) as (c & Hc & Hf & Ho). split; [|exact Ho].
      destruct (decide (m ∈ P)) as [HP|HP].
      + rewrite (Hold3 m HP) in Hc. injection Hc as <-. exact Hf.
      + unfold old_forward_of in Hc. rewrite (Hrest3 m HP) in Hc.
        pose proof (Hclean m) as Hn. unfold old_forward_of in Hn. congruence.
    - assert (m ∉ P) as HP by (intros HP; apply Hm; now apply Hsub).
      unfold forward_of, old_forward_of. rewrite (Hout m Hm), (Hrest3 m HP).
      split; [reflexivity | apply Hclean]. }
  split; intros m; apply Hall.
Qed.

End Restore.
End RestoreFacts.

Module RestoreClaim.
Import Tensor Attn Py Schedule Net NetFacts PassFacts RunFacts RestoreFacts Toy.
Local Open Scope R_scope.

(** [for m in l: restore m] returns when every module of [l] carries an
    [old_forward]. *)
Lemma foreach_restore_returns l : NoDup l → ∀ st,
  (∀ m, m ∈ l → is_Some (old_forward_of m st)) →
  ∃ st', foreach l restore st = (Returns (), st').
Proof.
  induction 1 as [|m l Hm Hnd IH]; intros st Hall.
  - exists st. reflexivity.
  - pose proof (restore_spec m st) as Hr.
    destruct (Hall m ltac:(now left)) as [c Hc]. rewrite Hc in Hr.
    destruct Hr as (st1 & E1 & _ & _ & _ & Hother).
    destruct (IH st1) as (st' & E').
    { intros m' Hm'. unfold old_forward_of. rewrite Hother; [apply Hall; now right|].
      intros ->. done. }
    exists st'. cbn [foreach]. rewrite (bind_returns _ _ _ _ _ E1). exact E'.
Qed.

Lemma patched_from_start st st1 :
  attrs st1 = attrs st → patched_from st [] st1.
Proof.
  intros E. split; [intros m Hm; inversion Hm|].
  intros m _. now apply instance_dict_attrs.
Qed.

Lemma restored_same_attrs st st' : clean st → attrs st' = attrs st → restored st st'.
Proof.
  intros Hc E. split.
  - intros m. now apply forward_of_attrs.
  - intros m. unfold old_forward_of. rewrite (instance_dict_attrs m st st' E). apply Hc.
Qed.

Section Claim.
Variable has_xformers : bool.
Variable unet : UNet.
Variable recursion_limit : nat.

Lemma caching_pass_restores z t e st l st' :
  NoDup (modules unet) → clean st →
  get_unet_hidden_states has_xformers unet recursion_limit z t e st = (Returns l, st') →
  restored st st'.
Proof.
  intros Hnd Hclean E. unfold get_unet_hidden_states in E.
  apply bind_returns_inv in E as (l0 & st1 & Enew & E).
  assert (attrs st1 = attrs st) as Ha1 by (injection Enew as _ <-; reflexivity).
  destruct (foreach_patch (CachingForward l0) (modules unet) st [] st1
              (patched_from_start st st1 Ha1) Hnd) as (st2 & Epatch & Hpf & _).
  { intros m _ Hin. inversion Hin. }
  rewrite (bind_returns _ _ _ _ _ Epatch) in E.
  eapply (pass_restores has_xformers unet recursion_limit (modules unet ++ []) st st2
            _ (λ _, l0)); [exact Hnd | exact Hclean | exact Hpf | | exact E].
  intros m Hm. now rewrite app_nil_r in Hm.
Qed.

Lemma injection_pass_restores z t e cp cn pws nws st out st' :
  NoDup (modules unet) → clean st →
  unet_forward_with_cached_hidden_states has_xformers unet recursion_limit z t e
    cp cn pws nws st = (Returns out, st') →
  restored st st'.
Proof.
  intros Hnd Hclean E.
  assert (∀ cp' cn',
    (foreach (weighted_blocks unet pws nws)
       (λ '(block, (pos_weight, neg_weight)),
          foreach block (patch (InjectingForward cp' cn' pos_weight neg_weight)));;
     out ← run has_xformers unet recursion_limit (unet_forward unet z t e);
     foreach (modules unet) restore;; mret out) st = (Returns out, st') →
    restored st st') as Hpatched.
  { intros cp' cn' E'. destruct (weighted_blocks_sub unet pws nws Hnd) as [Hnd' Hsub].
    destruct (foreach_blocks_patch cp' cn' (weighted_blocks unet pws nws) st [] st
                (patched_from_start st st eq_refl) Hnd') as (st2 & Epatch & Hpf).
    { intros m _ Hin. inversion Hin. }
    rewrite (bind_returns _ _ _ _ _ Epatch) in E'.
    eapply (pass_restores has_xformers unet recursion_limit _ st st2 _ (λ x, x));
      [exact Hnd | exact Hclean | exact Hpf | | exact E'].
    intros m Hm. rewrite app_nil_r in Hm. now apply Hsub. }
  unfold unet_forward_with_cached_hidden_states in E.
  destruct cp as [lp|], cn as [ln|]; try (now apply (Hpatched _ _ E)).
  apply restored_same_attrs; [exact Hclean|].
  pose proof (run_attrs has_xformers unet recursion_limit (unet_forward unet z t e) st) as Ha.
  now rewrite E in Ha.
Qed.

Lemma caching_pass_returns z t e st :
  NoDup (modules unet) → (∀ m, forward_of m st = OrdinaryForward) →
  (2 ≤ recursion_limit)%nat →
  ∃ l st', get_unet_hidden_states has_xformers unet recursion_limit z t e st
           = (Returns l, st').
Proof.
  intros Hnd Hord Hlim. unfold get_unet_hidden_states.
  set (l0 := fresh (dom (heap st))).
  set (st1 := {| attrs := attrs st; heap := <[l0 := []]> (heap st) |}).
  rewrite (bind_returns _ _ st _ _ (eq_refl : list_new [] st = (Returns l0, st1))).
  destruct (foreach_patch (CachingForward l0) (modules unet) st [] st1
              (patched_from_start st st1 eq_refl) Hnd) as (st2 & Epatch & [Hold Hrest] & Hfwd).
  { intros m _ Hin. inversion Hin. }
  rewrite (bind_returns _ _ _ _ _ Epatch).
  destruct (run_caching has_xformers unet recursion_limit (unet_forward unet z t e)
              (modules unet) l0 st2 Hlim) as (st3 & Erun & Ha3).
  { intros m Hm. split; [now apply Hfwd|].
    rewrite Hold by (apply elem_of_app; now left). now rewrite Hord. }
  { intros m Hm. unfold forward_of. rewrite Hrest.
    - apply Hord.
    - rewrite app_nil_r. exact Hm. }
  rewrite (bind_returns _ _ _ _ _ Erun).
  destruct (foreach_restore_returns (modules unet) Hnd st3) as (st4 & Erest).
  { intros m Hm. unfold old_forward_of. rewrite (instance_dict_attrs m st2 st3 Ha3).
    fold (old_forward_of m st2). rewrite Hold by (apply elem_of_app; now left). eauto. }
  rewrite (bind_returns _ _ _ _ _ Erest). eauto.
Qed.

End Claim.
End RestoreClaim.

Module RestoreTheorem.
Import Tensor Attn Py Schedule Net NetFacts PassFacts RunFacts RestoreFacts RestoreClaim Toy.
Local Open Scope R_scope.

(** C4 (as amended): a call of the caching pass or of the injection pass
    that returns leaves every module with the [forward] it had before the
    call and with no [old_forward]; on a network that carried no
    instrumentation before, a forward evaluation after the call is the
    plain evaluation, as it was before the call.  The caching pass does
    return on such a network. *)
Theorem forward_restored has_xformers unet recursion_limit st :
  NoDup (modules unet) → clean st →
  (∀ z t e l st',
     get_unet_hidden_states has_xformers unet recursion_limit z t e st = (Returns l, st') →
     restored st st')
  ∧ (∀ z t e cp cn pws nws out st',
       unet_forward_with_cached_hidden_states has_xformers unet recursion_limit z t e
         cp cn pws nws st = (Returns out, st') →
       restored st st')
  ∧ (∀ st', restored st st' → (∀ m, forward_of m st = OrdinaryForward) →
       (0 < recursion_limit)%nat →
       ∀ z t e,
         run has_xformers unet recursion_limit (unet_forward unet z t e) st'
         = (Returns (plain_run unet (unet_forward unet z t e)), st')
         ∧ run has_xformers unet recursion_limit (unet_forward unet z t e) st
           = (Returns (plain_run unet (unet_forward unet z t e)), st))
  ∧ ((∀ m, forward_of m st = OrdinaryForward) → (2 ≤ recursion_limit)%nat →
       ∀ z t e, ∃ l st',
         get_unet_hidden_states has_xformers unet recursion_limit z t e st
         = (Returns l, st')).
Proof.
  intros Hnd Hclean. split; [|split; [|split]].
  - intros z t e l st' E. now apply (caching_pass_restores _ _ _ _ _ _ _ _ _ Hnd Hclean E).
  - intros z t e cp cn pws nws out st' E.
    now apply (injection_pass_restores _ _ _ _ _ _ _ _ _ _ _ _ _ Hnd Hclean E).
  - intros st' [Hfwd _] Hord Hlim z t e. split.
    + apply run_plain; [|exact Hlim]. intros m. now rewrite Hfwd.
    + now apply run_plain.
  - intros Hord Hlim z t e. now apply caching_pass_returns.
Qed.

Lemma toy_modules_nodup : NoDup (modules toy_unet).
Proof.
  unfold modules. cbn.
  repeat (apply NoDup_cons; split;
          [rewrite ?elem_of_cons, elem_of_nil; lia|]).
  apply NoDup_nil_2.
Qed.

Lemma fresh_state_clean : clean fresh_state.
Proof. intros m. reflexivity. Qed.

Lemma fresh_state_ordinary m : forward_of m fresh_state = OrdinaryForward.
Proof. reflexivity. Qed.

(** A run of C4: the caching pass on the three-block network. *)
Lemma forward_restored_witness :
  ∃ l st', get_unet_hidden_states false toy_unet 2 [] 0 [] fresh_state = (Returns l, st')
           ∧ restored fresh_state st'.
Proof.
  destruct (forward_restored false toy_unet 2 fresh_state toy_modules_nodup fresh_state_clean)
    as (Hcache & _ & _ & Hret).
  destruct (Hret fresh_state_ordinary (le_n 2) [] 0 []) as (l & st' & E).
  exists l, st'. split; [exact E|]. exact (Hcache [] 0 [] l st' E).
Defined.

(** C4 as stated fails for a call that raises: the injection pass with a
    cache that is present but empty patches the three blocks, raises
    [IndexError] at block 0 inside the forward pass, and never reaches the
    loop that restores the modules; block 0 keeps the patched [forward]. *)
Lemma raising_pass_leaves_patch :
  ∃ st', unet_forward_with_cached_hidden_states false toy_unet 2 [] 0 []
           (Some 0%nat) None (1, 1) (1, 1) fresh_state = (Raises IndexError, st')
         ∧ forward_of 0 st' ≠ forward_of 0 fresh_state.
Proof.
  eexists. split.
  - vm_compute. reflexivity.
  - vm_compute. discriminate.
Qed.

End RestoreTheorem.

(** ** The generation call *)

Module GenerateFacts.
Import Tensor Attn Py Schedule Imaging Net Generate NetFacts.
Local Open Scope R_scope.

Lemma bind_ext {S A B} (m : M S A) (f g : A → M S B) st :
  (∀ a st', f a st' = g a st') → (m ≫= f) st = (m ≫= g) st.
Proof.
  intros Hfg. unfold mbind, M_bind. destruct (m st) as [[a|e|] st']; [apply Hfg | done..].
Qed.

Lemma bind_assoc {S A B C} (m : M S A) (f : A → M S B) (g : B → M S C) st :
  ((m ≫= f) ≫= g) st = (m ≫= (λ a, f a ≫= g)) st.
Proof.
  unfold mbind, M_bind. destruct (m st) as [[a|e|] st']; reflexivity.
Qed.

Section WithPipeline.
Context `{Pipeline}.

Lemma enumerate_from_ext (body1 body2 : nat → R → mat → M gstate mat) ts : ∀ i z st,
  (∀ i t z st, body1 i t z st = body2 i t z st) →
  enumerate_from body1 i ts z st = enumerate_from body2 i ts z st.
Proof.
  induction ts as [|t ts IH]; intros i z st Hb; [reflexivity|].
  cbn [enumerate_from]. unfold mbind, M_bind. rewrite Hb.
  destruct (body2 i t z st) as [[z'|e|] st']; [now apply IH | done..].
Qed.

Lemma sample_with_ext a z p np step1 step2 st :
  (∀ n w rs re bpe npe i t z st,
     step1 n w rs re bpe npe i t z st = step2 n w rs re bpe npe i t z st) →
  sample_with a z p np step1 st = sample_with a z p np step2 st.
Proof.
  intros Hstep. unfold sample_with.
  apply bind_ext. intros embs st1. apply bind_ext. intros [] st2.
  apply bind_ext. intros ts st3. apply bind_ext. intros sigma0 st4.
  apply bind_ext. intros o st5.
  unfold mbind at 1 3, M_bind.
  rewrite (enumerate_from_ext _ _ ts 0%nat _ st5 (Hstep _ _ _ _ _ _)). reflexivity.
Qed.

(** Without reference latents the loop body is the plain step. *)
Lemma denoising_step_plain a n w rs re bpe npe i t z st :
  denoising_step a n w rs re [] [] bpe npe i t z st = plain_cfg_step a n w bpe i t z st.
Proof. reflexivity. Qed.

End WithPipeline.
End GenerateFacts.

Module GenerateClaims.
Import Tensor Attn Py Schedule Imaging Net Generate NetFacts GenerateFacts Toy ToyPipeline.
Local Open Scope R_scope.

(** With no liked and no disliked image, [generate] is its loop without the
    reference branch: from every state it gives the same outcome and the
    same final state. *)
Lemma generate_plain_steps `{Pipeline} (a : args) (st : gstate) :
  liked a = [] → disliked a = [] →
  generate a st = plain_cfg_sampling a st.
Proof.
  intros Hl Hd. unfold generate, plain_cfg_sampling. rewrite Hl, Hd.
  apply bind_ext. intros z st1. cbn [encode_references].
  change ((mret [] ≫= λ pos_latents : mat, mret [] ≫= λ neg_latents : mat,
            prompt_list (prompt a) (n_images a) ≫= λ prompt0,
            prompt_list (negative_prompt a) (n_images a) ≫= λ negative_prompt0,
            sample_with a z prompt0 negative_prompt0
              (λ n_timesteps num_warmup_steps ref_start_idx ref_end_idx
                 batched_prompt_embd null_prompt_emb,
                 denoising_step a n_timesteps num_warmup_steps ref_start_idx ref_end_idx
                   pos_latents neg_latents batched_prompt_embd null_prompt_emb)) st1)
    with ((prompt_list (prompt a) (n_images a) ≫= λ prompt0,
           prompt_list (negative_prompt a) (n_images a) ≫= λ negative_prompt0,
           sample_with a z prompt0 negative_prompt0
             (λ n_timesteps num_warmup_steps ref_start_idx ref_end_idx
                batched_prompt_embd null_prompt_emb,
                denoising_step a n_timesteps num_warmup_steps ref_start_idx ref_end_idx
                  [] [] batched_prompt_embd null_prompt_emb)) st1).
  apply bind_ext. intros p st2. apply bind_ext. intros np st3.
  apply sample_with_ext. intros. apply denoising_step_plain.
Qed.

End GenerateClaims.

Module PromptCheck.
Import Tensor Attn Py Schedule Imaging Net Generate NetFacts GenerateFacts Toy ToyPipeline.
Local Open Scope R_scope.

Section WithPipeline.
Context `{Pipeline}.

Lemma early_ret {A} (x : A) : early (mret x).
Proof. intros st. exists []. split; [now rewrite app_nil_r | constructor]. Qed.

Lemma early_bind {A B} (m : M gstate A) (f : A → M gstate B) :
  early m → (∀ a, early (f a)) → early (m ≫= f).
Proof.
  intros Hm Hf st. destruct (Hm st) as (evs & E & Hevs).
  unfold mbind, M_bind. destruct (m st) as [[a|e|] st1]; simpl in E.
  - destruct (Hf a st1) as (evs' & E' & Hevs'). exists (evs ++ evs'). split.
    + now rewrite E', E, app_assoc.
    + now apply Forall_app.
  - now exists evs.
  - now exists evs.
Qed.

Lemma early_for_each {A B} (l : list A) (f : A → M gstate B) :
  (∀ x, early (f x)) → early (for_each l f).
Proof.
  intros Hf. induction l as [|x l IH]; [apply early_ret|].
  cbn [for_each]. apply early_bind; [apply Hf|]. intros y.
  apply early_bind; [exact IH|]. intros ys. apply early_ret.
Qed.

Lemma early_encode_references images : early (encode_references images).
Proof.
  destruct images as [|im images]; [apply early_ret|].
  unfold encode_references. apply early_bind.
  - apply early_for_each. intros x st. exists [EvImageToTensor].
    split; [reflexivity | now repeat constructor].
  - intros tensors. apply early_bind; [|intros; apply early_ret].
    intros st. unfold vae_sample. destruct (vae_encode_sample tensors (gen st)) as [s g].
    exists [EvVaeEncode (length tensors)]. split; [reflexivity | now repeat constructor].
Qed.

(** Seeding and sampling the latents always return, and sample. *)
Lemma seed_and_sample_returns a st :
  ∃ z st1 evs, seed_and_sample a st = (Returns z, st1)
               ∧ trace st1 = trace st ++ evs
               ∧ Forall early_event evs ∧ EvRandn (n_images a) ∈ evs.
Proof.
  unfold seed_and_sample, torch_manual_seed, torch_randn, mbind, M_bind.
  destruct (seed a) as [s|]; cbv beta iota.
  - destruct (randn (n_images a) (4 * 64 * 64) (manual_seed s)) as [x g] eqn:E.
    cbn [gen log]. rewrite E.
    eexists _, _, [EvManualSeed; EvRandn (n_images a)]. split; [reflexivity|].
    split; [cbn; now rewrite <- app_assoc|]. split; [now repeat constructor|].
    apply elem_of_cons. right. apply elem_of_cons. now left.
  - unfold mret, M_ret.
    destruct (randn (n_images a) (4 * 64 * 64) (gen st)) as [x g] eqn:E.
    eexists _, _, [EvRandn (n_images a)]. split; [reflexivity|].
    split; [reflexivity|]. split; [now repeat constructor|].
    apply elem_of_cons. now left.
Qed.

Lemma prompt_list_cases p n (st : gstate) :
  (∃ l, prompt_list p n st = (Returns l, st))
  ∨ prompt_list p n st = (Raises AssertionError, st).
Proof.
  destruct p as [s|l]; [left; eexists; reflexivity|].
  unfold prompt_list, assert. case_bool_decide; [left | right]; [eexists|]; reflexivity.
Qed.

Lemma prompt_list_mismatch l n (st : gstate) :
  length l ≠ n → prompt_list (inr l) n st = (Raises AssertionError, st).
Proof.
  intros Hne. unfold prompt_list, assert. case_bool_decide; [done | reflexivity].
Qed.

(** Converting the reference images returns when each of them converts:
    an image object always does, a path does when it opens. *)
Lemma for_each_to_tensor_returns images st :
  (∀ img, img ∈ images → ∃ t, image_to_tensor img = Returns t) →
  ∃ ts st1, for_each images to_tensor st = (Returns ts, st1).
Proof.
  revert st. induction images as [|img images IH]; intros st Himg.
  - now exists [], st.
  - destruct (Himg img) as [t Et]; [now left|].
    destruct (IH (log EvImageToTensor st)) as (ts & st1 & E).
    { intros x Hx. apply Himg. now right. }
    exists (t :: ts), st1. cbn [for_each].
    assert (to_tensor img st = (Returns t, log EvImageToTensor st)) as E1.
    { unfold to_tensor. now rewrite Et. }
    rewrite (bind_returns _ _ _ _ _ E1), (bind_returns _ _ _ _ _ E). reflexivity.
Qed.

Lemma encode_references_returns images st :
  (∀ img, img ∈ images → ∃ t, image_to_tensor img = Returns t) →
  ∃ m st1, encode_references images st = (Returns m, st1).
Proof.
  intros Himg. destruct images as [|img images]; [now exists [], st|].
  destruct (for_each_to_tensor_returns (img :: images) st Himg) as (ts & st1 & E).
  unfold encode_references. rewrite (bind_returns _ _ _ _ _ E).
  unfold vae_sample, mbind, M_bind.
  destruct (vae_encode_sample ts (gen st1)) as [s g]. eexists _, _. reflexivity.
Qed.

Lemma before_prompt_check_returns a st :
  (∀ img, img ∈ liked a ++ disliked a → ∃ t, image_to_tensor img = Returns t) →
  ∃ st1, before_prompt_check a st = (Returns (), st1).
Proof.
  intros Himg.
  destruct (seed_and_sample_returns a st) as (z & st1 & evs1 & E1 & _).
  destruct (encode_references_returns (liked a) st1) as (pos & st2 & E2).
  { intros img Hin. apply Himg, elem_of_app. now left. }
  destruct (encode_references_returns (disliked a) st2) as (neg & st3 & E3).
  { intros img Hin. apply Himg, elem_of_app. now right. }
  exists st3. unfold before_prompt_check.
  rewrite (bind_returns _ _ _ _ _ E1), (bind_returns _ _ _ _ _ E2),
    (bind_returns _ _ _ _ _ E3). reflexivity.
Qed.

(** A reference image that does not convert is a path that does not open:
    the conversion raises [FileNotFoundError], and so does whatever converts
    a list that holds such an image. *)
Lemma image_to_tensor_cases (img : string + image (@raster pil)) :
  (∃ t, image_to_tensor img = Returns t) ∨ image_to_tensor img = Raises FileNotFoundError.
Proof.
  unfold image_to_tensor. destruct img as [path|im]; [|left; eexists; reflexivity].
  destruct (image_open path); [left; eexists; reflexivity | now right].
Qed.

Lemma for_each_to_tensor_raises images : ∀ st,
  (∃ img, img ∈ images ∧ image_to_tensor img = Raises FileNotFoundError) →
  ∃ st1, for_each images to_tensor st = (Raises FileNotFoundError, st1).
Proof.
  induction images as [|x images IH]; intros st (img & Hin & Himg).
  - now apply elem_of_nil in Hin.
  - cbn [for_each]. destruct (image_to_tensor_cases x) as [[t Et]|Ex].
    + assert (to_tensor x st = (Returns t, log EvImageToTensor st)) as E1.
      { unfold to_tensor. now rewrite Et. }
      rewrite (bind_returns _ _ _ _ _ E1).
      apply elem_of_cons in Hin as [->|Hin]; [congruence|].
      destruct (IH (log EvImageToTensor st)) as (st1 & E); [now exists img|].
      exists st1. now apply bind_raises.
    + exists (log EvImageToTensor st). apply bind_raises. unfold to_tensor. now rewrite Ex.
Qed.

Lemma encode_references_raises images st :
  (∃ img, img ∈ images ∧ image_to_tensor img = Raises FileNotFoundError) →
  ∃ st1, encode_references images st = (Raises FileNotFoundError, st1).
Proof.
  intros Hex. destruct (for_each_to_tensor_raises images st Hex) as (st1 & E).
  exists st1. destruct images as [|x images].
  - destruct Hex as (img & Hin & _). now apply elem_of_nil in Hin.
  - unfold encode_references. now apply bind_raises.
Qed.

Lemma for_each_to_tensor_cases images : ∀ st,
  (∃ ts st1, for_each images to_tensor st = (Returns ts, st1))
  ∨ (∃ st1, for_each images to_tensor st = (Raises FileNotFoundError, st1)).
Proof.
  induction images as [|x images IH]; intros st; [left; now exists [], st|].
  cbn [for_each]. destruct (image_to_tensor_cases x) as [[t Et]|Ex].
  - assert (to_tensor x st = (Returns t, log EvImageToTensor st)) as E1.
    { unfold to_tensor. now rewrite Et. }
    rewrite (bind_returns _ _ _ _ _ E1).
    destruct (IH (log EvImageToTensor st)) as [(ts & st1 & E)|(st1 & E)].
    + left. exists (t :: ts), st1. now rewrite (bind_returns _ _ _ _ _ E).
    + right. exists st1. now apply bind_raises.
  - right. exists (log EvImageToTensor st). apply bind_raises. unfold to_tensor.
    now rewrite Ex.
Qed.

Lemma encode_references_cases images st :
  (∃ m st1, encode_references images st = (Returns m, st1))
  ∨ (∃ st1, encode_references images st = (Raises FileNotFoundError, st1)).
Proof.
  destruct images as [|x images]; [left; now exists [], st|].
  unfold encode_references.
  destruct (for_each_to_tensor_cases (x :: images) st) as [(ts & st1 & E)|(st1 & E)].
  - left. rewrite (bind_returns _ _ _ _ _ E). unfold vae_sample, mbind, M_bind.
    destruct (vae_encode_sample ts (gen st1)) as [sample g]. eexists _, _. reflexivity.
  - right. exists st1. now apply bind_raises.
Qed.

Lemma before_prompt_check_raises a st :
  (∃ img, img ∈ liked a ++ disliked a ∧ image_to_tensor img = Raises FileNotFoundError) →
  ∃ st1, before_prompt_check a st = (Raises FileNotFoundError, st1).
Proof.
  intros (img & Hin & Himg).
  destruct (seed_and_sample_returns a st) as (z & st1 & evs1 & E1 & _).
  unfold before_prompt_check. rewrite (bind_returns _ _ _ _ _ E1).
  destruct (encode_references_cases (liked a) st1) as [(pos & st2 & E2)|(st2 & E2)].
  - rewrite (bind_returns _ _ _ _ _ E2).
    apply elem_of_app in Hin as [Hin|Hin].
    + destruct (encode_references_raises (liked a) st1) as (st2' & E2'); [now exists img|].
      rewrite E2 in E2'. discriminate.
    + destruct (encode_references_raises (disliked a) st2) as (st3 & E3); [now exists img|].
      exists st3. now apply bind_raises.
  - exists st2. now apply bind_raises.
Qed.

Lemma generate_mismatch a st :
  prompts_mismatch a →
  generate a st
  = (before_prompt_check a;; (raise AssertionError : M gstate (list (image raster)))) st.
Proof.
  intros Hmis. unfold generate, before_prompt_check, mbind, M_bind.
  destruct (seed_and_sample a st) as [[z|e|] st1]; [|reflexivity..].
  destruct (encode_references (liked a) st1) as [[pos|e|] st2]; [|reflexivity..].
  destruct (encode_references (disliked a) st2) as [[neg|e|] st3]; [|reflexivity..].
  unfold mret, M_ret, raise.
  destruct Hmis as [(l & El & Hl)|(l & El & Hl)].
  - rewrite El, (prompt_list_mismatch l (n_images a) st3 Hl). reflexivity.
  - destruct (prompt_list_cases (prompt a) (n_images a) st3) as [(p & ->)| ->];
      [|reflexivity].
    rewrite El, (prompt_list_mismatch l (n_images a) st3 Hl). reflexivity.
Qed.

End WithPipeline.

(** C7 (as amended): when the prompt list or the negative-prompt list does
    not have [n_images] entries, [generate] never returns images, but it
    does not fail at once: it does what it does before the check (it seeds
    the generator, samples the initial latents and converts and encodes the
    reference images) and, when that part returns, fails with the assertion
    error in the state that part has left.  That part returns whenever every
    reference image converts (an image object, or a path that opens); when
    some reference image is a path that does not open, that part raises
    [FileNotFoundError], [generate] raises that error and the check is not
    reached.  The calls
    made up to the check include the sampling of the latents and are all of
    those kinds: no prompt is encoded, the scheduler is not set up and the
    network is not evaluated. *)
Theorem prompt_check_after_sampling `{Pipeline} (a : args) (st : gstate) :
  prompts_mismatch a →
  generate a st = (before_prompt_check a;; raise AssertionError) st
  ∧ (∀ imgs st', generate a st ≠ (Returns imgs, st'))
  ∧ (∀ st1, before_prompt_check a st = (Returns (), st1) →
            generate a st = (Raises AssertionError, st1))
  ∧ (∀ e st1, before_prompt_check a st = (Raises e, st1) →
              generate a st = (Raises e, st1))
  ∧ ((∀ img, img ∈ liked a ++ disliked a → ∃ t, image_to_tensor img = Returns t) →
     ∃ st1, before_prompt_check a st = (Returns (), st1)
            ∧ generate a st = (Raises AssertionError, st1))
  ∧ ((∃ img, img ∈ liked a ++ disliked a
             ∧ image_to_tensor img = Raises FileNotFoundError) →
     ∃ st1, generate a st = (Raises FileNotFoundError, st1))
  ∧ ∃ evs, trace (before_prompt_check a st).2 = trace st ++ evs
           ∧ Forall early_event evs
           ∧ EvRandn (n_images a) ∈ evs.
Proof.
  intros Hmis. pose proof (generate_mismatch a st Hmis) as Hgen.
  split; [exact Hgen|]. split; [|split; [|split; [|split; [|split]]]].
  - intros imgs st' E. rewrite Hgen in E. unfold mbind, M_bind, raise in E.
    destruct (before_prompt_check a st) as [[[]|e|] st1]; discriminate E.
  - intros st1 E. rewrite Hgen. now rewrite (bind_returns _ _ _ _ _ E).
  - intros e st1 E. rewrite Hgen. now rewrite (bind_raises _ _ _ _ _ E).
  - intros Himg. destruct (before_prompt_check_returns a st Himg) as [st1 E].
    exists st1. split; [exact E|]. rewrite Hgen.
    now rewrite (bind_returns _ _ _ _ _ E).
  - intros Hex. destruct (before_prompt_check_raises a st Hex) as [st1 E].
    exists st1. rewrite Hgen. now rewrite (bind_raises _ _ _ _ _ E).
  - destruct (seed_and_sample_returns a st) as (z & st1 & evs1 & E1 & Ht1 & He1 & Hin1).
    assert (early (encode_references (liked a);; encode_references (disliked a);;
                   (mret () : M gstate unit))) as Hrest.
    { apply early_bind; [apply early_encode_references|]. intros _.
      apply early_bind; [apply early_encode_references|]. intros _. apply early_ret. }
    destruct (Hrest st1) as (evs2 & Ht2 & He2).
    exists (evs1 ++ evs2). split; [|split].
    + unfold before_prompt_check. rewrite (bind_returns _ _ _ _ _ E1).
      rewrite Ht2, Ht1. now rewrite app_assoc.
    + now apply Forall_app.
    + apply elem_of_app. now left.
Qed.

(** A run of C7: three prompts for two images and no reference image; the
    call raises the assertion error. *)
Lemma prompt_check_after_sampling_witness :
  ∃ st1, before_prompt_check three_prompts initial_state = (Returns (), st1)
         ∧ generate three_prompts initial_state = (Raises AssertionError, st1).
Proof.
  refine (proj1 (proj2 (proj2 (proj2 (proj2
            (prompt_check_after_sampling three_prompts initial_state _))))) _).
  - left. exists ["a"; "b"; "c"]%string. split; [reflexivity|]. simpl. lia.
  - intros img Hin. simpl in Hin. now apply elem_of_nil in Hin.
Defined.

(** C7 as stated fails: with three prompts for two images the call raises
    the assertion error only after it has seeded the generator and sampled
    the initial latents. *)
Lemma latents_sampled_before_check :
  ∃ st', generate three_prompts initial_state = (Raises AssertionError, st')
         ∧ trace st' = [EvManualSeed; EvRandn 2].
Proof.
  eexists. split; vm_compute; reflexivity.
Qed.

End PromptCheck.
(** ** Installing LoRA processors *)

Module LoraFacts.
Import Py Lora.

Lemma result_bind_ok {A B} (m : result A) (f : A → result B) b :
  m ≫= f = Ok b → ∃ a, m = Ok a ∧ f a = Ok b.
Proof. destruct m as [a|e]; [eauto | discriminate]. Qed.

Lemma startswith_exclusive name :
  (startswith name "up_blocks" = true → startswith name "mid_block" = false)
  ∧ (startswith name "down_blocks" = true →
       startswith name "mid_block" = false ∧ startswith name "up_blocks" = false).
Proof.
  unfold startswith. destruct name as [|a name]; [split; discriminate|].
  split; intros Hp; cbn [String.prefix] in Hp;
    match type of Hp with
    | context [Ascii.ascii_dec ?c a] => destruct (Ascii.ascii_dec c a) as [<-|]
    end; try discriminate; try split; reflexivity.
Qed.

(** The ranks read from the state dict are the [size(0)] of the entries
    whose key ends with ["down.weight"]. *)
Lemma down_weight_ranks_spec model_weight ranks :
  down_weight_ranks model_weight = Ok ranks →
  (∀ k v, (k, v) ∈ model_weight → endswith k "down.weight" = true →
     ∃ r, v !! 0%nat = Some r ∧ r ∈ ranks)
  ∧ (∀ r, r ∈ ranks →
       ∃ k v, (k, v) ∈ model_weight ∧ endswith k "down.weight" = true
              ∧ v !! 0%nat = Some r).
Proof.
  revert ranks. induction model_weight as [|[k v] items IH]; intros ranks E.
  - injection E as <-. split; [intros k v Hin; inversion Hin | intros r Hin; inversion Hin].
  - cbn [down_weight_ranks] in E.
    destruct (endswith k "down.weight") eqn:Ek.
    + apply result_bind_ok in E as (r & Er & E).
      apply result_bind_ok in E as (rs & Ers & E). injection E as <-.
      unfold size, item in Er. destruct (v !! 0%nat) as [r'|] eqn:Ev; [|discriminate].
      injection Er as ->. destruct (IH rs Ers) as [H1 H2]. split.
      * intros k' v' Hin Hk'. apply elem_of_cons in Hin as [Heq|Hin].
        -- injection Heq as -> ->. exists r. split; [exact Ev | now left].
        -- destruct (H1 k' v' Hin Hk') as (r' & Hr' & Hin'). exists r'.
           split; [exact Hr' | now right].
      * intros r' Hin. apply elem_of_cons in Hin as [->|Hin].
        -- exists k, v. split; [now left | now split].
        -- destruct (H2 r' Hin) as (k' & v' & Hin' & Hk' & Hv').
           exists k', v'. split; [now right | now split].
    + destruct (IH ranks E) as [H1 H2]. split.
      * intros k' v' Hin Hk'. apply elem_of_cons in Hin as [Heq|Hin].
        -- injection Heq as -> ->. congruence.
        -- now apply (H1 k' v').
      * intros r Hin. destruct (H2 r Hin) as (k' & v' & Hin' & Hk' & Hv').
        exists k', v'. split; [now right | now split].
Qed.

Lemma lora_rank_of_spec model_weight lora_rank :
  lora_rank_of model_weight = Ok lora_rank →
  (∀ k v, (k, v) ∈ model_weight → endswith k "down.weight" = true →
     v !! 0%nat = Some lora_rank)
  ∧ (∃ k v, (k, v) ∈ model_weight ∧ endswith k "down.weight" = true).
Proof.
  unfold lora_rank_of. intros E. apply result_bind_ok in E as (ranks & Er & E).
  destruct (remove_dups ranks) as [|r [|r' l]] eqn:Ed; try discriminate.
  injection E as ->.
  assert (∀ x, x ∈ ranks ↔ x = lora_rank) as Hin.
  { intros x. rewrite <- (elem_of_remove_dups ranks), Ed. apply list_elem_of_singleton. }
  destruct (down_weight_ranks_spec model_weight ranks Er) as [H1 H2]. split.
  - intros k v Hkv Hk. destruct (H1 k v Hkv Hk) as (r & Hr & Hrin).
    apply Hin in Hrin as ->. exact Hr.
  - destruct (H2 lora_rank) as (k & v & Hkv & Hk & _); [now apply Hin|]. eauto.
Qed.

(** What the loop stores under a name depends on the name alone when the
    name has one of the three prefixes. *)
Lemma assign_hidden_size_spec config name hidden_size h :
  assign_hidden_size config name hidden_size = Ok (Some h) →
  (startswith name "mid_block" = true → last (block_out_channels config) = Some h)
  ∧ (startswith name "up_blocks" = true →
       ∃ c block_id, String.get 10 name = Some c ∧ int c = Ok block_id
                     ∧ reverse (block_out_channels config) !! block_id = Some h)
  ∧ (startswith name "down_blocks" = true →
       ∃ c block_id, String.get 12 name = Some c ∧ int c = Ok block_id
                     ∧ block_out_channels config !! block_id = Some h)
  ∧ (startswith name "mid_block" = false → startswith name "up_blocks" = false →
     startswith name "down_blocks" = false → hidden_size = Some h).
Proof.
  intros E. destruct (startswith_exclusive name) as [Hup Hdown].
  unfold assign_hidden_size in E.
  destruct (startswith name "mid_block") eqn:Em.
  { apply result_bind_ok in E as (h' & Eh & E). injection E as ->.
    unfold last_item in Eh. destruct (last _) as [x|]; [|discriminate]. injection Eh as ->.
    split; [reflexivity|]. split; [intros Hu; now specialize (Hup Hu)|].
    split; [intros Hd; now destruct (Hdown Hd) | discriminate]. }
  destruct (startswith name "up_blocks") eqn:Eu.
  { apply result_bind_ok in E as (c & Ec & E).
    apply result_bind_ok in E as (block_id & Eb & E).
    apply result_bind_ok in E as (h' & Eh & E). injection E as ->.
    unfold char_at in Ec. cbn [String.length] in Ec.
    destruct (String.get 10 name) as [c'|] eqn:Eg; [|discriminate]. injection Ec as ->.
    unfold item in Eh. destruct (_ !! block_id) as [x|] eqn:El; [|discriminate].
    injection Eh as ->.
    split; [discriminate|]. split; [intros _; eauto|].
    split; [intros Hd; now destruct (Hdown Hd) | discriminate]. }
  destruct (startswith name "down_blocks") eqn:Ed.
  { apply result_bind_ok in E as (c & Ec & E).
    apply result_bind_ok in E as (block_id & Eb & E).
    apply result_bind_ok in E as (h' & Eh & E). injection E as ->.
    unfold char_at in Ec. cbn [String.length] in Ec.
    destruct (String.get 12 name) as [c'|] eqn:Eg; [|discriminate]. injection Ec as ->.
    unfold item in Eh. destruct (_ !! block_id) as [x|] eqn:El; [|discriminate].
    injection Eh as ->.
    split; [discriminate|]. split; [discriminate|]. split; [intros _; eauto | discriminate]. }
  injection E as ->. repeat split; try discriminate; try reflexivity.
Qed.

(** The loop: every name gets an entry, and an entry is as the iteration
    that wrote it last left it. *)
Lemma attn_procs_loop_spec config lora_rank names : ∀ acc hidden_size procs,
  attn_procs_loop config lora_rank names acc hidden_size = Ok procs →
  (∀ name, name ∉ names → procs !! name = acc !! name)
  ∧ (∀ name, name ∈ names →
       ∃ p hs h, procs !! name = Some p
                 ∧ assign_hidden_size config name hs = Ok (Some h)
                 ∧ p = {| proc_hidden_size := h;
                          proc_cross_attention_dim :=
                            if endswith name "attn1.processor" then None
                            else Some (cross_attention_dim config);
                          proc_rank := lora_rank |}).
Proof.
  induction names as [|name names IH]; intros acc hidden_size procs E.
  - injection E as <-. split; [reflexivity | intros name Hin; inversion Hin].
  - cbn [attn_procs_loop] in E. apply result_bind_ok in E as (hs' & Ehs & E).
    destruct hs' as [h|]; [|discriminate]. cbn [mbind result_bind] in E.
    destruct (IH _ _ _ E) as [Hout Hin]. split.
    + intros name' Hn. apply not_elem_of_cons in Hn as [Hne Hn].
      rewrite (Hout name' Hn). now rewrite lookup_insert_ne.
    + intros name' Hn. destruct (decide (name' ∈ names)) as [Hn'|Hn'].
      * now apply Hin.
      * apply elem_of_cons in Hn as [->|Hn]; [|done].
        rewrite (Hout name Hn'), lookup_insert_eq.
        eexists _, hidden_size, h. split; [reflexivity|]. split; [exact Ehs | reflexivity].
Qed.

(** The loop after a prefix of the names that ends with [n]: the entry of
    [n] and the local variable agree on the hidden size. *)
Lemma attn_procs_loop_after config lora_rank pre n rest : ∀ acc hidden_size procs,
  attn_procs_loop config lora_rank (pre ++ n :: rest) acc hidden_size = Ok procs →
  ∃ acc' p, acc' !! n = Some p
            ∧ attn_procs_loop config lora_rank rest acc' (Some (proc_hidden_size p)) = Ok procs.
Proof.
  induction pre as [|name pre IH]; intros acc hidden_size procs E.
  - cbn [app attn_procs_loop] in E. apply result_bind_ok in E as (hs' & Ehs & E).
    destruct hs' as [h|]; [|discriminate]. cbn [mbind result_bind] in E.
    eexists _, _. split; [apply lookup_insert_eq | exact E].
  - cbn [app attn_procs_loop] in E. apply result_bind_ok in E as (hs' & Ehs & E).
    destruct hs' as [h|]; [|discriminate]. cbn [mbind result_bind] in E.
    exact (IH _ _ _ E).
Qed.

Lemma assign_hidden_size_unknown config name hidden_size :
  startswith name "mid_block" = false → startswith name "up_blocks" = false →
  startswith name "down_blocks" = false →
  assign_hidden_size config name hidden_size = Ok hidden_size.
Proof. intros Hm Hu Hd. unfold assign_hidden_size. now rewrite Hm, Hu, Hd. Qed.

End LoraFacts.

Module LoraClaims.
Import Py Lora LoraFacts.

(** The call on the three layers of [sd15_names] returns. *)
Lemma sd15_call_returns :
  ∃ procs, apply_unet_lora_weights sd15_config sd15_names rank4_weights = Ok procs.
Proof.
  assert (lora_rank_of rank4_weights = Ok 4%nat) as Er by reflexivity.
  eexists. unfold apply_unet_lora_weights. rewrite Er.
  cbn [mbind result_bind sd15_names attn_procs_loop]. reflexivity.
Qed.

(** X1: the rank of the processors.  A call that returns has found at least
    one entry of the state dict whose key ends with ["down.weight"], all
    such entries have the same [size(0)], and every processor is built with
    that rank. *)
Theorem lora_rank_is_common config names model_weight procs :
  apply_unet_lora_weights config names model_weight = Ok procs →
  ∃ lora_rank,
    (∃ k v, (k, v) ∈ model_weight ∧ endswith k "down.weight" = true)
    ∧ (∀ k v, (k, v) ∈ model_weight → endswith k "down.weight" = true →
         size v 0 = Ok lora_rank)
    ∧ (∀ name p, procs !! name = Some p → proc_rank p = lora_rank).
Proof.
  unfold apply_unet_lora_weights. intros E.
  apply result_bind_ok in E as (lora_rank & Er & E). exists lora_rank.
  destruct (lora_rank_of_spec model_weight lora_rank Er) as [Hall Hex].
  split; [exact Hex|]. split.
  - intros k v Hkv Hk. unfold size, item. now rewrite (Hall k v Hkv Hk).
  - destruct (attn_procs_loop_spec config lora_rank names ∅ None procs E) as [Hout Hin].
    intros name p Hp. destruct (decide (name ∈ names)) as [Hn|Hn].
    + destruct (Hin name Hn) as (p' & hs & h & Hp' & _ & ->).
      rewrite Hp in Hp'. injection Hp' as ->. reflexivity.
    + rewrite (Hout name Hn), lookup_empty in Hp. discriminate.
Qed.

Lemma lora_rank_is_common_witness :
  ∃ procs lora_rank,
    apply_unet_lora_weights sd15_config sd15_names rank4_weights = Ok procs
    ∧ (∀ name p, procs !! name = Some p → proc_rank p = lora_rank).
Proof.
  destruct sd15_call_returns as [procs E].
  destruct (lora_rank_is_common sd15_config sd15_names rank4_weights procs E)
    as (lora_rank & _ & _ & H).
  exists procs, lora_rank. split; [exact E | exact H].
Defined.

(** X2: the hidden size of a processor follows the block its name starts
    with.  After a call that returns, the processor of a name that starts
    with ["mid_block"] has the last entry of [block_out_channels]; for a
    name that starts with ["up_blocks"] the character at index 10 is a
    digit [d] and the hidden size is entry [d] of the reversed list, that
    is entry [len - 1 - d]; for a name that starts with ["down_blocks"] the
    character at index 12 is a digit [d] and the hidden size is entry [d].
    One character is read, so a block index is a single digit. *)
Theorem hidden_size_by_block config names model_weight procs name :
  apply_unet_lora_weights config names model_weight = Ok procs →
  name ∈ names →
  let channels := block_out_channels config in
  (startswith name "mid_block" = true →
     ∃ p, procs !! name = Some p ∧ last channels = Some (proc_hidden_size p))
  ∧ (startswith name "up_blocks" = true →
       ∃ p c block_id,
         procs !! name = Some p ∧ String.get 10 name = Some c ∧ int c = Ok block_id
         ∧ (block_id < length channels)%nat
         ∧ channels !! (length channels - 1 - block_id)%nat = Some (proc_hidden_size p))
  ∧ (startswith name "down_blocks" = true →
       ∃ p c block_id,
         procs !! name = Some p ∧ String.get 12 name = Some c ∧ int c = Ok block_id
         ∧ channels !! block_id = Some (proc_hidden_size p)).
Proof.
  intros E Hname channels. unfold apply_unet_lora_weights in E.
  apply result_bind_ok in E as (lora_rank & _ & E).
  destruct (attn_procs_loop_spec config lora_rank names ∅ None procs E) as [_ Hin].
  destruct (Hin name Hname) as (p & hs & h & Hp & Hassign & ->).
  destruct (assign_hidden_size_spec config name hs h Hassign) as (Hmid & Hup & Hdown & _).
  split; [|split].
  - intros Hm. eexists. split; [exact Hp | exact (Hmid Hm)].
  - intros Hu. destruct (Hup Hu) as (c & block_id & Hc & Hi & Hl).
    assert (block_id < length channels)%nat as Hlt
      by (apply lookup_lt_Some in Hl; now rewrite length_reverse in Hl).
    eexists _, c, block_id. split; [exact Hp|]. split; [exact Hc|]. split; [exact Hi|].
    split; [exact Hlt|]. cbn [proc_hidden_size].
    rewrite reverse_lookup in Hl by exact Hlt. rewrite <- Hl. subst channels.
    f_equal. generalize (length (block_out_channels config)). intros len. lia.
  - intros Hd. destruct (Hdown Hd) as (c & block_id & Hc & Hi & Hl).
    eexists _, c, block_id. split; [exact Hp|]. split; [exact Hc|]. split; [exact Hi|].
    exact Hl.
Qed.

(** A run of the theorem on three attention layers of Stable Diffusion
    1.5: up block 3 gets the width of down block 0. *)
Lemma hidden_size_by_block_witness :
  ∃ procs p,
    apply_unet_lora_weights sd15_config sd15_names rank4_weights = Ok procs
    ∧ procs !! "up_blocks.3.attentions.2.transformer_blocks.0.attn1.processor"%string = Some p
    ∧ block_out_channels sd15_config !! 0%nat = Some (proc_hidden_size p).
Proof.
  destruct sd15_call_returns as [procs E].
  destruct (hidden_size_by_block sd15_config sd15_names rank4_weights procs
              "up_blocks.3.attentions.2.transformer_blocks.0.attn1.processor" E)
    as (_ & Hup & _).
  { unfold sd15_names. rewrite !elem_of_cons. right. right. now left. }
  destruct (Hup eq_refl) as (p & c & block_id & Hp & Hc & Hi & _ & Hl).
  injection Hc as <-. injection Hi as <-.
  exists procs, p. split; [exact E|]. split; [exact Hp | exact Hl].
Defined.

(** X3: the dictionary has one processor per attention layer name and no
    other entry, and a processor has no cross-attention dimension exactly
    when its name ends with ["attn1.processor"]; the others get the one of
    the configuration. *)
Theorem one_processor_per_name config names model_weight procs :
  apply_unet_lora_weights config names model_weight = Ok procs →
  (∀ name, is_Some (procs !! name) ↔ name ∈ names)
  ∧ (∀ name p, procs !! name = Some p →
       proc_cross_attention_dim p
       = if endswith name "attn1.processor" then None
         else Some (cross_attention_dim config)).
Proof.
  unfold apply_unet_lora_weights. intros E.
  apply result_bind_ok in E as (lora_rank & _ & E).
  destruct (attn_procs_loop_spec config lora_rank names ∅ None procs E) as [Hout Hin].
  split.
  - intros name. split.
    + intros [p Hp]. destruct (decide (name ∈ names)) as [Hn|Hn]; [exact Hn|].
      rewrite (Hout name Hn), lookup_empty in Hp. discriminate.
    + intros Hn. destruct (Hin name Hn) as (p & _ & _ & Hp & _). eauto.
  - intros name p Hp. destruct (decide (name ∈ names)) as [Hn|Hn].
    + destruct (Hin name Hn) as (p' & hs & h & Hp' & _ & ->).
      rewrite Hp in Hp'. injection Hp' as ->. reflexivity.
    + rewrite (Hout name Hn), lookup_empty in Hp. discriminate.
Qed.

Lemma one_processor_per_name_witness :
  ∃ procs,
    apply_unet_lora_weights sd15_config sd15_names rank4_weights = Ok procs
    ∧ ∀ name, is_Some (procs !! name) ↔ name ∈ sd15_names.
Proof.
  destruct sd15_call_returns as [procs E].
  exists procs. split; [exact E|].
  exact (proj1 (one_processor_per_name sd15_config sd15_names rank4_weights procs E)).
Defined.

(** X4: a name with none of the three prefixes.  The chain of [if] and
    [elif] has no [else]: when such a name comes first the local variable
    [hidden_size] was never assigned and the call raises
    [UnboundLocalError]; when it comes right after a name [n] it silently
    gets the hidden size of [n]. *)
Theorem unknown_prefix_keeps_hidden_size config model_weight u :
  startswith u "mid_block" = false → startswith u "up_blocks" = false →
  startswith u "down_blocks" = false →
  (∀ names lora_rank, lora_rank_of model_weight = Ok lora_rank →
     apply_unet_lora_weights config (u :: names) model_weight = Err UnboundLocalError)
  ∧ (∀ pre n post procs,
       apply_unet_lora_weights config (pre ++ n :: u :: post) model_weight = Ok procs →
       n ≠ u → n ∉ post → u ∉ post →
       ∃ pn pu, procs !! n = Some pn ∧ procs !! u = Some pu
                ∧ proc_hidden_size pu = proc_hidden_size pn).
Proof.
  intros Hm Hu Hd. split.
  - intros names lora_rank Er. unfold apply_unet_lora_weights. rewrite Er.
    cbn [mbind result_bind attn_procs_loop].
    now rewrite (assign_hidden_size_unknown config u None Hm Hu Hd).
  - intros pre n post procs E Hne Hn Hupost. unfold apply_unet_lora_weights in E.
    apply result_bind_ok in E as (lora_rank & _ & E).
    apply attn_procs_loop_after in E as (acc & pn & Hpn & E).
    cbn [attn_procs_loop] in E.
    rewrite (assign_hidden_size_unknown config u _ Hm Hu Hd) in E.
    cbn [mbind result_bind] in E.
    destruct (attn_procs_loop_spec config lora_rank post _ _ procs E) as [Hout _].
    eexists pn, _. split; [|split].
    + rewrite (Hout n Hn). rewrite lookup_insert_ne by congruence. exact Hpn.
    + rewrite (Hout u Hupost). apply lookup_insert_eq.
    + reflexivity.
Qed.

(** A run of the theorem: ["conv_in"] after a down block. *)
Lemma unknown_prefix_keeps_hidden_size_witness :
  apply_unet_lora_weights sd15_config ["conv_in"; "mid_block.x"]%string rank4_weights
  = Err UnboundLocalError.
Proof.
  refine (proj1 (unknown_prefix_keeps_hidden_size sd15_config rank4_weights "conv_in"
                   _ _ _) ["mid_block.x"%string] 4%nat _); reflexivity.
Defined.

End LoraClaims.

(** ** Neutral weights and the unweighted paths *)

Module AttnNeutral.
Import Tensor Attn AttnFacts FusedPath Shapes FusedTensor FusedClaim AttnFinite.
Local Open Scope R_scope.

Lemma softmax_sum row : row ≠ [] → rsum (softmax row) = 1.
Proof.
  intros Hne. unfold softmax. rewrite rsum_div.
  pose proof (rsum_exp_pos row Hne). field. lra.
Qed.

Lemma renormalize_unit row : rsum row = 1 → renormalize row = Some row.
Proof.
  intros Hs. unfold renormalize. rewrite Hs.
  destruct (Req_dec_T 1 0) as [?|_]; [lra|]. f_equal.
  rewrite <- (map_id row) at 2. apply map_ext. intros x. field.
Qed.

Lemma zip_with_ones (prow : list R) K :
  (length prow ≤ K)%nat → zip_with Rmult prow (replicate K 1) = prow.
Proof.
  revert K. induction prow as [|x prow IH]; intros [|K] H; simpl in *; try reflexivity; try lia.
  rewrite IH by lia. f_equal. lra.
Qed.

Lemma repeat_interleave_replicate {A} h n (x : A) :
  repeat_interleave h (replicate n x) = replicate (n * h) x.
Proof.
  unfold repeat_interleave. induction n as [|n IH]; simpl; [reflexivity|].
  rewrite IH. now rewrite replicate_add.
Qed.

Lemma mul_weights_replicate probs m (w : list R) :
  (length probs ≤ m)%nat ∨ m = 1%nat →
  mul_weights probs (replicate m w) = map (map (λ prow, zip_with Rmult prow w)) probs.
Proof.
  intros Hm.
  assert (∀ m', (length probs ≤ m')%nat →
            zip_with (λ p w, map (λ prow, zip_with Rmult prow w) p) probs (replicate m' w)
            = map (map (λ prow, zip_with Rmult prow w)) probs) as Hzip.
  { clear. induction probs as [|p probs IH]; intros [|m'] H; simpl in *; try reflexivity; try lia.
    rewrite IH by lia. reflexivity. }
  unfold mul_weights. destruct m as [|[|m]]; cbn [replicate].
  - apply (Hzip 0%nat). destruct Hm; [done | lia].
  - reflexivity.
  - apply (Hzip (S (S m))). destruct Hm; [done | lia].
Qed.

(** Probabilities whose rows sum to 1 and are no longer than the rows of
    ones are left as they are by weights that are all 1. *)
Lemma unit_weights_probs attn (probs : list mat) n K :
  Forall (Forall (λ row, rsum row = 1 ∧ (length row ≤ K)%nat)) probs →
  (length probs ≤ n * heads attn)%nat →
  weighted_attention_probs attn probs (replicate n (replicate K 1)) = Some probs.
Proof.
  intros Hrows Hlen. unfold weighted_attention_probs.
  assert ((if decide (length (replicate n (replicate K 1)) ≠ 1%nat)
           then repeat_interleave (heads attn) (replicate n (replicate K 1))
           else replicate n (replicate K 1))
          = replicate (if decide (n ≠ 1%nat) then n * heads attn else 1)%nat (replicate K 1))
    as ->.
  { rewrite length_replicate. case_decide as Hd.
    - apply repeat_interleave_replicate.
    - f_equal. lia. }
  rewrite mul_weights_replicate.
  - apply mapM_Some, Forall2_fmap_l, Forall_Forall2_diag.
    eapply Forall_impl; [exact Hrows|]. intros m Hm. simpl.
    apply mapM_Some, Forall2_fmap_l, Forall_Forall2_diag.
    eapply Forall_impl; [exact Hm|]. intros row [Hs Hl]. simpl.
    rewrite zip_with_ones by exact Hl. now apply renormalize_unit.
  - case_decide; [left; exact Hlen | right; reflexivity].
Qed.

(** The rows of the attention scores over keys of [K > 0] positions. *)
Lemma scores_unit_rows attn (query key : list mat) K :
  (0 < K)%nat → Forall (λ k : mat, length k = K) key →
  Forall (Forall (λ row, rsum row = 1 ∧ (length row ≤ K)%nat))
    (get_attention_scores attn query key None).
Proof.
  intros HK Hkey. unfold get_attention_scores, baddbmm.
  apply Forall_map. revert query. induction Hkey as [|k key Hk _ IH]; intros [|q query];
    simpl; try constructor.
  - apply Forall_map, Forall_map, Forall_forall. intros qrow _. simpl. split.
    + apply softmax_sum. destruct k; [simpl in Hk; lia | discriminate].
    + rewrite softmax_length, length_map. lia.
  - apply IH.
Qed.

(** One row of the fused kernel without a bias is the softmax row. *)
Lemma fused_row_unbiased alpha qrow (k : mat) :
  k ≠ [] →
  fused_row alpha qrow k None = Some (softmax (map (λ krow, alpha * dot qrow krow) k)).
Proof.
  intros Hne. unfold fused_row.
  assert (mapM xexp (map (λ krow, Fin (dot qrow krow * alpha)) k)
          = Some (map exp (map (λ krow, alpha * dot qrow krow) k))) as ->.
  { apply mapM_Some. rewrite map_map. apply Forall2_fmap, Forall_Forall2_diag, Forall_forall.
    intros krow _. simpl. now rewrite (Rmult_comm alpha). }
  cbn [mbind option_bind]. unfold renormalize, softmax.
  assert (0 < rsum (map exp (map (λ krow, alpha * dot qrow krow) k))) as Hs.
  { apply rsum_exp_pos. destruct k; [done | discriminate]. }
  destruct (Req_dec_T _ 0) as [E|_]; [lra | reflexivity].
Qed.

Lemma fused_probs_unbiased alpha (query key : list mat) :
  Forall (λ k : mat, k ≠ []) key →
  fused_probs alpha query key None
  = Some (map (map softmax) (baddbmm None query key alpha)).
Proof.
  intros Hkey. unfold fused_probs, baddbmm. apply mapM_Some.
  revert query. induction Hkey as [|k key Hk _ IH]; intros [|q query]; simpl; try constructor.
  - apply mapM_Some. rewrite map_map. apply Forall2_fmap_r, Forall_Forall2_diag, Forall_forall.
    intros qrow _. now apply fused_row_unbiased.
  - apply IH.
Qed.

Section Keys.
Variable attn : Attention.
Variables (hs ehs : tensor) (ls : R) (K : nat).
Hypothesis Hnorm : norm_cross attn = false.
Hypothesis HK : (0 < K)%nat.
Hypothesis Hrows : Forall (λ m : mat, length m = K) ehs.

(** The keys the attention is computed over have [K] positions. *)
Lemma key_rows :
  Forall (λ m : mat, length m = K)
    (head_to_batch_dim attn
       (match processor attn with
        | Some p => tadd (linear (to_k attn) ehs) (tscale ls (linear (to_k_lora p) ehs))
        | None => linear (to_k attn) ehs
        end)).
Proof.
  apply head_to_batch_dim_rows. destruct (processor attn).
  - apply tadd_rows; [|apply tscale_rows]; apply linear_rows; exact Hrows.
  - apply linear_rows; exact Hrows.
Qed.

(** Without weights the two paths compute the same output. *)
Lemma unweighted_paths_agree :
  attn_with_weights true attn hs (Some ehs) None None ls
  = attn_with_weights false attn hs (Some ehs) None None ls.
Proof.
  unfold attn_with_weights, memory_efficient_attention, prepare_attention_mask, fused_bias,
    reference_probs, get_attention_scores.
  cbn [negb fmap option_fmap option_map]. rewrite Hnorm.
  rewrite fused_probs_unbiased; [reflexivity|].
  eapply Forall_impl; [apply key_rows|]. intros m Hm Hnil. simpl in Hm.
  rewrite Hnil in Hm. simpl in Hm. lia.
Qed.

(** On the reference path, weights that are all 1 change nothing. *)
Lemma unit_weights_reference :
  attn_with_weights false attn hs (Some ehs) None
    (Some (replicate (length hs) (replicate K 1))) ls
  = attn_with_weights false attn hs (Some ehs) None None ls.
Proof.
  unfold attn_with_weights, prepare_attention_mask, reference_probs.
  cbn [negb]. rewrite Hnorm.
  rewrite unit_weights_probs; [reflexivity| |].
  - apply scores_unit_rows; [exact HK | apply key_rows].
  - unfold get_attention_scores, baddbmm. rewrite length_map, length_zip_with.
    rewrite head_to_batch_dim_length.
    assert (length (match processor attn with
                    | Some p => tadd (linear (to_q attn) hs)
                                  (tscale ls (linear (to_q_lora p) hs))
                    | None => linear (to_q attn) hs
                    end) = length hs) as ->; [|lia].
    destruct (processor attn);
      [rewrite tadd_length; rewrite ?tscale_length, !linear_length; reflexivity
      | apply linear_length].
Qed.

End Keys.
End AttnNeutral.

Module AttnNeutralClaims.
Import Tensor Attn AttnFacts FusedPath Shapes FusedTensor FusedClaim AttnFinite AttnNeutral.
Local Open Scope R_scope.

(** X5: weights that are all 1 are neutral, up to rounding.  Over keys of
    [K > 0] positions, [attn_with_weights] with the weight tensor [ones] of
    shape (batch, K) returns what it returns without weights, on the
    reference path and on the fused path (where the bias is [log 1 = 0]).
    The equality is one of reals: on the reference path line 108 still
    divides every row by its sum, which floating point gives as 1 only up
    to rounding, so that the two outputs of the code agree up to rounding
    and not bit for bit. *)
Theorem unit_weights_are_neutral has_xformers attn hs ehs ls K :
  norm_cross attn = false → (0 < K)%nat →
  Forall (λ m : mat, length m = K) ehs → rectangular hs →
  attn_with_weights has_xformers attn hs (Some ehs) None
    (Some (replicate (length hs) (replicate K 1))) ls
  = attn_with_weights has_xformers attn hs (Some ehs) None None ls.
Proof.
  intros Hnorm HK Hrows Hrect. destruct has_xformers.
  - rewrite <- (attn_paths_agree attn _ hs (Some ehs) ls).
    + rewrite (unit_weights_reference attn hs ehs ls K Hnorm HK Hrows).
      symmetry. now apply (unweighted_paths_agree attn hs ehs ls K).
    + apply Forall_replicate, Forall_replicate. lra.
    + exact Hrect.
    + apply length_replicate.
  - now apply unit_weights_reference.
Qed.

(** A run of the theorem: one query, two keys. *)
Lemma unit_weights_are_neutral_witness :
  attn_with_weights true plain_attention [[[0]]] (Some [[[0]; [1]]]) None (Some [[1; 1]]) 1
  = attn_with_weights true plain_attention [[[0]]] (Some [[[0]; [1]]]) None None 1.
Proof.
  apply (unit_weights_are_neutral true plain_attention [[[0]]] [[[0]; [1]]] 1 2).
  - reflexivity.
  - lia.
  - repeat constructor.
  - repeat constructor.
Defined.

(** X6: without weights and without a mask, the fused kernel and the
    reference computation of [attn_with_weights] return the same output
    (over keys of [K > 0] positions). *)
Theorem unweighted_attention_paths_agree attn hs ehs ls K :
  norm_cross attn = false → (0 < K)%nat →
  Forall (λ m : mat, length m = K) ehs →
  attn_with_weights true attn hs (Some ehs) None None ls
  = attn_with_weights false attn hs (Some ehs) None None ls
  ∧ ∃ out, attn_with_weights false attn hs (Some ehs) None None ls = Some out.
Proof.
  intros Hnorm HK Hrows. split.
  - now apply (unweighted_paths_agree attn hs ehs ls K).
  - unfold attn_with_weights, reference_probs. cbn [negb mbind option_bind].
    eexists. reflexivity.
Qed.

Lemma unweighted_attention_paths_agree_witness :
  attn_with_weights true plain_attention [[[0]]] (Some [[[0]; [1]]]) None None 1
  = attn_with_weights false plain_attention [[[0]]] (Some [[[0]; [1]]]) None None 1.
Proof.
  refine (proj1 (unweighted_attention_paths_agree plain_attention [[[0]]] [[[0]; [1]]] 1 2
                   _ _ _)).
  - reflexivity.
  - lia.
  - repeat constructor.
Defined.

End AttnNeutralClaims.

(** ** Only the ratios of the weights matter *)

Module AttnScale.
Import Tensor Attn AttnFacts FusedPath Shapes FusedTensor FusedClaim.
Local Open Scope R_scope.

Lemma rsum_scaled c row : rsum (map (Rmult c) row) = c * rsum row.
Proof. induction row as [|x row IH]; simpl; [lra | rewrite IH; lra]. Qed.

Lemma renormalize_scaled c row :
  c ≠ 0 → renormalize (map (Rmult c) row) = renormalize row.
Proof.
  intros Hc. unfold renormalize. rewrite rsum_scaled.
  destruct (Req_dec_T (c * rsum row) 0) as [E|E], (Req_dec_T (rsum row) 0) as [E'|E'].
  - reflexivity.
  - exfalso. apply Rmult_integral in E as [?|?]; done.
  - exfalso. apply E. rewrite E'. lra.
  - f_equal. rewrite map_map. apply map_ext. intros x. field. split; assumption.
Qed.

Lemma zip_with_scaled (prow : list R) c w :
  zip_with Rmult prow (map (Rmult c) w) = map (Rmult c) (zip_with Rmult prow w).
Proof.
  revert w. induction prow as [|x prow IH]; intros [|y w]; simpl; try reflexivity.
  rewrite IH. f_equal. lra.
Qed.

Lemma repeat_interleave_map {A B} (f : A → B) h (l : list A) :
  repeat_interleave h (map f l) = map f (repeat_interleave h l).
Proof.
  unfold repeat_interleave. induction l as [|x l IH]; simpl; [reflexivity|].
  rewrite map_app, IH. f_equal. change (map f ?l) with (f <$> l).
  now rewrite fmap_replicate.
Qed.

Lemma mul_weights_scaled probs c ws :
  mul_weights probs (map (map (Rmult c)) ws)
  = map (map (map (Rmult c))) (mul_weights probs ws).
Proof.
  assert (∀ ws', zip_with (λ p w, map (λ prow, zip_with Rmult prow w) p) probs
                   (map (map (Rmult c)) ws')
                 = map (map (map (Rmult c)))
                     (zip_with (λ p w, map (λ prow, zip_with Rmult prow w) p) probs ws'))
    as Hzip.
  { induction probs as [|p probs IH]; intros [|w ws']; simpl; try reflexivity.
    rewrite IH. f_equal. rewrite map_map. apply map_ext. intros prow.
    apply zip_with_scaled. }
  unfold mul_weights. destruct ws as [|w [|w' ws]].
  - apply (Hzip []).
  - cbn [map]. rewrite map_map. apply map_ext. intros p. rewrite map_map.
    apply map_ext. intros prow. apply zip_with_scaled.
  - apply (Hzip (w :: w' :: ws)).
Qed.

Lemma mapM_map_ext {A B C} (f : B → option C) (g : A → B) (h : A → option C) l :
  (∀ x, f (g x) = h x) → mapM f (map g l) = mapM h l.
Proof.
  intros Hfg. induction l as [|x l IH]; simpl; [reflexivity|]. now rewrite Hfg, IH.
Qed.

(** Multiplying every weight by the same [c ≠ 0] does not change the
    renormalised probabilities. *)
Lemma weighted_probs_scaled attn probs c ws :
  c ≠ 0 →
  weighted_attention_probs attn probs (map (map (Rmult c)) ws)
  = weighted_attention_probs attn probs ws.
Proof.
  intros Hc. unfold weighted_attention_probs. rewrite length_map.
  assert ((if decide (length ws ≠ 1%nat)
           then repeat_interleave (heads attn) (map (map (Rmult c)) ws)
           else map (map (Rmult c)) ws)
          = map (map (Rmult c))
              (if decide (length ws ≠ 1%nat) then repeat_interleave (heads attn) ws else ws))
    as -> by (case_decide; [apply repeat_interleave_map | reflexivity]).
  rewrite mul_weights_scaled.
  apply mapM_map_ext. intros m. apply mapM_map_ext. intros row.
  now apply renormalize_scaled.
Qed.

Lemma reference_scaled attn hs ehs mask c ws ls :
  c ≠ 0 →
  attn_with_weights false attn hs ehs mask (Some (map (map (Rmult c)) ws)) ls
  = attn_with_weights false attn hs ehs mask (Some ws) ls.
Proof.
  intros Hc. unfold attn_with_weights, reference_probs. cbn [negb].
  now rewrite weighted_probs_scaled.
Qed.

End AttnScale.

Module AttnScaleClaims.
Import Tensor Attn AttnFacts FusedPath Shapes FusedTensor FusedClaim AttnScale.
Local Open Scope R_scope.

(** X7: only the ratios of the weights matter.  Multiplying every weight by
    the same positive factor [c] leaves the output of [attn_with_weights]
    unchanged: on the reference path for any weights, mask and shapes
    (there any [c ≠ 0] will do, as the renormalisation divides the factor
    out), on the fused path for non-negative weights given per batch
    entry. *)
Theorem weights_scale_invariant attn c :
  0 < c →
  (∀ hs ehs mask ws ls,
     attn_with_weights false attn hs ehs mask (Some (map (map (Rmult c)) ws)) ls
     = attn_with_weights false attn hs ehs mask (Some ws) ls)
  ∧ (∀ hs ehs ws ls,
       Forall (Forall (Rle 0)) ws → rectangular hs → length ws = length hs →
       attn_with_weights true attn hs ehs None (Some (map (map (Rmult c)) ws)) ls
       = attn_with_weights true attn hs ehs None (Some ws) ls).
Proof.
  intros Hc. split.
  - intros hs ehs mask ws ls. apply reference_scaled. lra.
  - intros hs ehs ws ls Hw Hrect Hlen.
    rewrite <- (attn_paths_agree attn (map (map (Rmult c)) ws) hs ehs ls).
    + rewrite <- (attn_paths_agree attn ws hs ehs ls Hw Hrect Hlen).
      apply reference_scaled. lra.
    + apply Forall_map. eapply Forall_impl; [exact Hw|]. intros w Hw0. simpl.
      apply Forall_map. eapply Forall_impl; [exact Hw0|]. intros x Hx. simpl.
      apply Rmult_le_pos; lra.
    + exact Hrect.
    + now rewrite length_map.
Qed.

(** A run of the theorem: the weights [1; 1/2] doubled. *)
Lemma weights_scale_invariant_witness :
  attn_with_weights false plain_attention [[[0]]] (Some [[[0]; [1]]]) None
    (Some (map (map (Rmult 2)) [[1; 1 / 2]])) 1
  = attn_with_weights false plain_attention [[[0]]] (Some [[[0]; [1]]]) None
      (Some [[1; 1 / 2]]) 1.
Proof.
  refine (proj1 (weights_scale_invariant plain_attention 2 _) _ _ _ _ _). lra.
Defined.

End AttnScaleClaims.

(** ** The default bottleneck scale *)

Module UniformWeights.
Import Tensor Py Schedule Net ScheduleFacts.
Local Open Scope R_scope.

Lemma ramp_flat (w : R) D k : ramp (w, w * 1) D k = w.
Proof. unfold ramp. simpl. replace (w * 1 - w) with 0 by lra. unfold Rdiv. lra. Qed.

Lemma block_weights_flat (w : R) D : Forall (λ x, x = w) (block_weights (w, w * 1) D).
Proof.
  unfold block_weights. rewrite local_weights_eq.
  assert (Forall (λ x, x = w) (map (ramp (w, w * 1) D) (seq 0 D))) as Hl.
  { apply Forall_map, Forall_forall. intros k _. simpl. apply ramp_flat. }
  apply Forall_app. split; [exact Hl|]. apply Forall_app. split.
  - repeat constructor. simpl. lra.
  - now apply Forall_reverse.
Qed.

(** X8: with the default bottleneck scales (1.0) the injection weights do
    not depend on depth: every block is paired with the step's weight for
    the liked references and with [weight * neg_scale] for the disliked
    ones. *)
Theorem default_scales_give_uniform_weights (unet : UNet) (weight neg_scale : R) :
  Forall (λ entry : list nat * (R * R), entry.2 = (weight, weight * neg_scale))
    (weighted_blocks unet (pos_ws weight 1) (neg_ws weight neg_scale 1)).
Proof.
  unfold weighted_blocks, pos_ws, neg_ws.
  pose proof (block_weights_flat weight (length (down_blocks unet))) as Hp.
  pose proof (block_weights_flat (weight * neg_scale) (length (down_blocks unet))) as Hn.
  revert Hp Hn.
  generalize (block_weights (weight, weight * 1) (length (down_blocks unet))) as ps.
  generalize (block_weights (weight * neg_scale, weight * neg_scale * 1)
                (length (down_blocks unet))) as ns.
  generalize (down_blocks unet ++ [mid_block unet] ++ up_blocks unet) as blocks.
  intros blocks ns ps Hp. revert blocks ns.
  induction Hp as [|p ps Hp0 _ IH]; intros blocks ns Hn.
  - destruct blocks; constructor.
  - destruct Hn as [|n ns Hn0 Hn]; [destruct blocks; constructor|].
    destruct blocks as [|b blocks]; [constructor|].
    cbn [zip zip_with]. constructor; [simpl; congruence|]. now apply IH.
Qed.

End UniformWeights.

(** ** More on the instrumented passes *)

Module PassHeap.
Import Tensor Attn Py Schedule Net NetFacts PassFacts RunFacts RestoreFacts RestoreClaim PassTrace.
Local Open Scope R_scope.

Lemma foreach_patch_heap c l : ∀ st st',
  foreach l (patch c) st = (Returns (), st') → heap st' = heap st.
Proof.
  induction l as [|m l IH]; intros st st' E.
  - now injection E as <-.
  - cbn [foreach] in E. destruct (patch_spec c m st) as (st1 & E1 & Hh & _).
    rewrite (bind_returns _ _ _ _ _ E1) in E. rewrite (IH st1 st' E). exact Hh.
Qed.

Lemma foreach_restore_heap l : ∀ st st',
  foreach l restore st = (Returns (), st') → heap st' = heap st.
Proof.
  induction l as [|m l IH]; intros st st' E.
  - now injection E as <-.
  - cbn [foreach] in E. pose proof (restore_spec m st) as Hr.
    destruct (old_forward_of m st) as [c|].
    + destruct Hr as (st1 & E1 & Hh & _).
      rewrite (bind_returns _ _ _ _ _ E1) in E. rewrite (IH st1 st' E). exact Hh.
    + rewrite (bind_raises _ _ _ _ _ Hr) in E. discriminate.
Qed.

(** The restore loop stops with [AttributeError] at the first module that
    carries no [old_forward]. *)
Lemma foreach_restore_raises l m : ∀ st,
  m ∈ l → old_forward_of m st = None →
  ∃ st', foreach l restore st = (Raises AttributeError, st').
Proof.
  induction l as [|m0 l IH]; intros st Hin Hold; [inversion Hin|].
  cbn [foreach]. pose proof (restore_spec m0 st) as Hr.
  destruct (old_forward_of m0 st) as [c|] eqn:E0.
  - destruct Hr as (st1 & E1 & _ & _ & _ & Hother).
    rewrite (bind_returns _ _ _ _ _ E1).
    apply elem_of_cons in Hin as [->|Hin]; [congruence|].
    apply IH; [exact Hin|].
    destruct (decide (m = m0)) as [->|Hne]; [congruence|].
    unfold old_forward_of. now rewrite (Hother m Hne).
  - exists st. now apply bind_raises.
Qed.

Section Caching.
Variable has_xformers : bool.
Variable unet : UNet.
Variable recursion_limit : nat.

(** The caching pass appends the input of every call to a module of [L]
    to the list [l], in order, and touches no other list. *)
Lemma run_caching_heap {A} (p : prog A) (L : list nat) l : ∀ st,
  (2 ≤ recursion_limit)%nat →
  (∀ m, m ∈ L → forward_of m st = CachingForward l
                ∧ old_forward_of m st = Some OrdinaryForward) →
  (∀ m, m ∉ L → forward_of m st = OrdinaryForward) →
  ∃ st', run has_xformers unet recursion_limit p st = (Returns (plain_run unet p), st')
         ∧ attrs st' = attrs st
         ∧ list_at l st' = list_at l st ++ attn1_inputs unet L p
         ∧ (∀ l', l' ≠ l → heap st' !! l' = heap st !! l').
Proof.
  intros st Hlim. destruct recursion_limit as [|[|d]] eqn:El; [lia..|].
  revert st. induction p as [a|m h k IH]; intros st Hin Hout.
  - exists st. split; [reflexivity|]. split; [reflexivity|].
    split; [cbn; now rewrite app_nil_r | done].
  - cbn [run plain_run attn1_inputs].
    rewrite (bind_returns _ _ st _ _
               (eq_refl : getattr_forward m st = (Returns (forward_of m st), st))).
    destruct (decide (m ∈ L)) as [Hm|Hm].
    + destruct (Hin m Hm) as [Hf Ho]. rewrite Hf.
      set (st1 := {| attrs := attrs st; heap := <[l := list_at l st ++ [h]]> (heap st) |}).
      assert (attrs st1 = attrs st) as E1 by reflexivity.
      assert (call has_xformers unet (S (S d)) m (CachingForward l) h st
              = (Returns (attn1_forward unet m h), st1)) as Hcall.
      { cbn [call]. unfold caching_new_forward.
        rewrite (bind_returns _ _ st _ _ (eq_refl : list_append l h st = (Returns (), st1))).
        apply old_forward_ordinary.
        fold (old_forward_of m st1). unfold old_forward_of.
        rewrite (instance_dict_attrs m st st1 E1). exact Ho. }
      rewrite (bind_returns _ _ _ _ _ Hcall).
      destruct (IH (attn1_forward unet m h) st1) as (st' & E' & Ha' & Hl' & Hother').
      * intros m' Hm'. unfold forward_of, old_forward_of.
        rewrite (instance_dict_attrs m' st st1 E1). now apply Hin.
      * intros m' Hm'. rewrite (forward_of_attrs m' st st1 E1). now apply Hout.
      * exists st'. split; [exact E'|]. split; [now rewrite Ha'|]. split.
        -- rewrite Hl'. unfold list_at at 1, st1. cbn [heap].
           rewrite lookup_insert_eq. cbn [default].
           symmetry. apply (app_assoc (list_at l st) [h]).
        -- intros l' Hne. rewrite (Hother' l' Hne). unfold st1. cbn [heap].
           now rewrite lookup_insert_ne.
    + rewrite (Hout m Hm).
      rewrite (bind_returns _ _ st _ _
                 (eq_refl : call has_xformers unet (S (S d)) m OrdinaryForward h st
                            = (Returns (attn1_forward unet m h), st))).
      cbn [app]. now apply IH.
Qed.

End Caching.
End PassHeap.

Module PassClaims.
Import Tensor Attn Py Schedule Net NetFacts PassFacts RunFacts RestoreFacts RestoreClaim.
Import PassTrace PassHeap Toy.
Local Open Scope R_scope.

(** X9: what the caching pass returns.  On a network that carries no
    instrumentation, [get_unet_hidden_states] returns a list object that
    did not exist before, and when it returns that list holds the hidden
    states that the forward pass hands to [attn1] of the transformer blocks,
    one per call and in the order of the calls; no other list object is
    touched. *)
Theorem caching_pass_records_inputs has_xformers unet recursion_limit z t e st :
  NoDup (modules unet) → (∀ m, forward_of m st = OrdinaryForward) →
  (2 ≤ recursion_limit)%nat →
  ∃ l st',
    get_unet_hidden_states has_xformers unet recursion_limit z t e st = (Returns l, st')
    ∧ heap st !! l = None
    ∧ list_at l st' = attn1_inputs unet (modules unet) (unet_forward unet z t e)
    ∧ (∀ l', l' ≠ l → heap st' !! l' = heap st !! l').
Proof.
  intros Hnd Hord Hlim. unfold get_unet_hidden_states.
  set (l0 := fresh (dom (heap st))).
  set (st1 := {| attrs := attrs st; heap := <[l0 := []]> (heap st) |}).
  rewrite (bind_returns _ _ st _ _ (eq_refl : list_new [] st = (Returns l0, st1))).
  destruct (foreach_patch (CachingForward l0) (modules unet) st [] st1
              (patched_from_start st st1 eq_refl) Hnd) as (st2 & Epatch & [Hold Hrest] & Hfwd).
  { intros m _ Hin. inversion Hin. }
  rewrite (bind_returns _ _ _ _ _ Epatch).
  pose proof (foreach_patch_heap _ _ _ _ Epatch) as Hh2.
  destruct (run_caching_heap has_xformers unet recursion_limit (unet_forward unet z t e)
              (modules unet) l0 st2 Hlim) as (st3 & Erun & Ha3 & Hl3 & Hother3).
  { intros m Hm. split; [now apply Hfwd|].
    rewrite Hold by (apply elem_of_app; now left). now rewrite Hord. }
  { intros m Hm. unfold forward_of. rewrite Hrest.
    - apply Hord.
    - rewrite app_nil_r. exact Hm. }
  rewrite (bind_returns _ _ _ _ _ Erun).
  destruct (foreach_restore_returns (modules unet) Hnd st3) as (st4 & Erest).
  { intros m Hm. unfold old_forward_of. rewrite (instance_dict_attrs m st2 st3 Ha3).
    fold (old_forward_of m st2). rewrite Hold by (apply elem_of_app; now left). eauto. }
  rewrite (bind_returns _ _ _ _ _ Erest).
  pose proof (foreach_restore_heap _ _ _ Erest) as Hh4.
  exists l0, st4. split; [reflexivity|]. split; [|split].
  - apply not_elem_of_dom. apply is_fresh.
  - unfold list_at at 1. rewrite Hh4. fold (list_at l0 st3). rewrite Hl3.
    unfold list_at. rewrite Hh2. unfold st1. cbn [heap]. rewrite lookup_insert_eq.
    reflexivity.
  - intros l' Hne. rewrite Hh4, (Hother3 l' Hne), Hh2. unfold st1. cbn [heap].
    now rewrite lookup_insert_ne.
Qed.

(** A run of the theorem on the three-block network. *)
Lemma caching_pass_records_inputs_witness :
  ∃ l st',
    get_unet_hidden_states false toy_unet 2 [] 0 [] fresh_state = (Returns l, st')
    ∧ list_at l st' = attn1_inputs toy_unet (modules toy_unet) (unet_forward toy_unet [] 0 []).
Proof.
  destruct (caching_pass_records_inputs false toy_unet 2 [] 0 [] fresh_state)
    as (l & st' & E & _ & Hl & _).
  - unfold modules. cbn.
    repeat (apply NoDup_cons; split; [rewrite ?elem_of_cons, elem_of_nil; lia|]).
    apply NoDup_nil_2.
  - intros m. reflexivity.
  - lia.
  - exists l, st'. split; [exact E | exact Hl].
Defined.

(** X10: a transformer block that the injection pass does not patch.  The
    pass patches the blocks that [zip] pairs with a weight (those of
    [down_blocks], [mid_block] and as many [up_blocks] as there are weights
    left) but restores every transformer block of [unet.modules()].  When a
    block of the network is not among the patched ones, a call with a cache
    never returns: if the instrumented forward pass gets through, the
    restore loop raises [AttributeError] at [module.attn1.old_forward]. *)
Theorem unpatched_block_breaks_restore has_xformers unet recursion_limit z t e cp cn
    pws nws st m :
  NoDup (modules unet) → clean st →
  m ∈ modules unet → m ∉ concat ((weighted_blocks unet pws nws).*1) →
  is_Some cp ∨ is_Some cn →
  let pass :=
    unet_forward_with_cached_hidden_states has_xformers unet recursion_limit z t e
      cp cn pws nws in
  let instrumented_forward :=
    foreach (weighted_blocks unet pws nws)
      (λ '(block, (pos_weight, neg_weight)),
         foreach block (patch (InjectingForward cp cn pos_weight neg_weight)));;
    run has_xformers unet recursion_limit (unet_forward unet z t e) in
  (∀ out st', pass st ≠ (Returns out, st'))
  ∧ (∀ out st3, instrumented_forward st = (Returns out, st3) →
       ∃ st4, pass st = (Raises AttributeError, st4)).
Proof.
  intros Hnd Hclean Hm Hun Hsome pass instrumented_forward.
  assert (pass st
          = (out ← instrumented_forward;
             foreach (modules unet) restore;; mret out) st) as Hpass.
  { unfold pass, unet_forward_with_cached_hidden_states, instrumented_forward.
    destruct cp as [lp|], cn as [ln|];
      [| | |destruct Hsome as [[? ?]|[? ?]]; discriminate];
      unfold mbind, M_bind;
      match goal with |- context [foreach ?l ?f st] => destruct (foreach l f st) as [[[]|?|] ?] end;
      reflexivity. }
  assert (∀ out st3, instrumented_forward st = (Returns out, st3) →
            ∃ st4, foreach (modules unet) restore st3 = (Raises AttributeError, st4)) as Hraise.
  { intros out st3 E. unfold instrumented_forward in E.
    destruct (weighted_blocks_sub unet pws nws Hnd) as [Hnd' _].
    destruct (foreach_blocks_patch cp cn (weighted_blocks unet pws nws) st [] st
                (patched_from_start st st eq_refl) Hnd') as (st2 & Epatch & [_ Hrest]).
    { intros m' _ Hin. inversion Hin. }
    rewrite (bind_returns _ _ _ _ _ Epatch) in E.
    pose proof (run_attrs has_xformers unet recursion_limit (unet_forward unet z t e) st2) as Ha.
    rewrite E in Ha. cbn [snd] in Ha.
    apply (foreach_restore_raises (modules unet) m st3 Hm).
    unfold old_forward_of. rewrite (instance_dict_attrs m st2 st3 Ha).
    rewrite Hrest by (rewrite app_nil_r; exact Hun). apply Hclean. }
  split.
  - intros out st' E. rewrite Hpass in E.
    apply bind_returns_inv in E as (out' & st3 & Einstr & E).
    destruct (Hraise out' st3 Einstr) as (st4 & Er).
    rewrite (bind_raises _ _ _ _ _ Er) in E. discriminate.
  - intros out st3 E. destruct (Hraise out st3 E) as (st4 & Er).
    exists st4. rewrite Hpass. rewrite (bind_returns _ _ _ _ _ E).
    now apply bind_raises.
Qed.

(** A run of the theorem: block 3 of [loose_unet] is in no group. *)
Lemma unpatched_block_breaks_restore_witness :
  ∃ st4, unet_forward_with_cached_hidden_states false loose_unet 2 [] 0 []
           (Some 0%nat) None (1, 1) (1, 1) fresh_state = (Raises AttributeError, st4).
Proof.
  refine (proj2 (unpatched_block_breaks_restore false loose_unet 2 [] 0 [] (Some 0%nat) None
                   (1, 1) (1, 1) fresh_state 3 _ _ _ _ _) [] _ _).
  - unfold modules. cbn.
    repeat (apply NoDup_cons; split; [rewrite ?elem_of_cons, elem_of_nil; lia|]).
    apply NoDup_nil_2.
  - intros m. reflexivity.
  - unfold modules. cbn. rewrite !elem_of_cons. tauto.
  - unfold weighted_blocks. rewrite zip_fst_take. cbn [loose_unet down_blocks mid_block
      up_blocks app]. intros Hin.
    assert (∀ j, (3%nat) ∉ concat (take j [[0%nat]; [1%nat]; [2%nat]])) as Hno.
    { intros [|[|[|[|j]]]]; cbn; rewrite ?elem_of_cons, ?elem_of_nil; lia. }
    exact (Hno _ Hin).
  - left. eauto.
  - vm_compute. reflexivity.
Defined.

(** X11: patching a module and restoring it is a round trip on its
    [forward], whatever [forward] was: [patch] followed by [restore] always
    returns, the module has its former [forward] and no [old_forward], and
    the other modules and the list objects are untouched. *)
Theorem patch_then_restore c m st :
  ∃ st', (patch c m;; restore m) st = (Returns (), st')
         ∧ forward_of m st' = forward_of m st
         ∧ old_forward_of m st' = None
         ∧ heap st' = heap st
         ∧ (∀ m', m' ≠ m → instance_dict m' st' = instance_dict m' st).
Proof.
  destruct (patch_spec c m st) as (st1 & E1 & Hh1 & _ & Hold1 & Hother1).
  pose proof (restore_spec m st1) as Hr. rewrite Hold1 in Hr.
  destruct Hr as (st2 & E2 & Hh2 & Hf2 & Hold2 & Hother2).
  exists st2. split; [|split; [|split; [|split]]].
  - rewrite (bind_returns _ _ _ _ _ E1). exact E2.
  - exact Hf2.
  - exact Hold2.
  - now rewrite Hh2.
  - intros m' Hne. now rewrite (Hother2 m' Hne), (Hother1 m' Hne).
Qed.

End PassClaims.

(** ** The calls of a run of [generate] *)

Module GenerateEffects.
Import Tensor Attn Py Schedule Imaging Net Generate NetFacts PassFacts RunFacts RestoreFacts.
Import RestoreClaim GenerateFacts GenerateTrace.
Local Open Scope R_scope.

Section WithPipeline.
Context `{Pipeline}.

Lemma restored_refl st : clean st → restored st st.
Proof. intros Hc. split; [reflexivity | exact Hc]. Qed.

Lemma restored_trans st1 st2 st3 :
  restored st1 st2 → restored st2 st3 → restored st1 st3.
Proof.
  intros [Hf1 _] [Hf2 Hc]. split; [|exact Hc]. intros m. now rewrite Hf2, Hf1.
Qed.

Lemma effects_refl st : effects st st [] 0.
Proof.
  split; [now rewrite app_nil_r|]. split; [lia|]. intros _. apply restored_refl.
Qed.

Lemma effects_trans st1 st2 st3 e1 e2 k1 k2 :
  effects st1 st2 e1 k1 → effects st2 st3 e2 k2 → effects st1 st3 (e1 ++ e2) (k1 + k2).
Proof.
  intros (Ht1 & Hp1 & Hn1) (Ht2 & Hp2 & Hn2). split; [|split].
  - now rewrite Ht2, Ht1, app_assoc.
  - lia.
  - intros Hnd Hc. specialize (Hn1 Hnd Hc). eapply restored_trans; [exact Hn1|].
    apply (Hn2 Hnd). apply Hn1.
Qed.

(** A part that leaves the attributes of the modules alone. *)
Lemma effects_frame st st' evs k :
  trace st' = trace st ++ evs → pbar st' = (pbar st + k)%nat →
  attrs (net st') = attrs (net st) → effects st st' evs k.
Proof.
  intros Ht Hp Ha. split; [exact Ht|]. split; [exact Hp|].
  intros _ Hc. now apply restored_same_attrs.
Qed.

Lemma zoom_inv {A} (m : M Net.state A) st v st' :
  zoom m st = (Returns v, st') →
  m (net st) = (Returns v, net st')
  ∧ trace st' = trace st ∧ pbar st' = pbar st ∧ sched st' = sched st ∧ gen st' = gen st.
Proof.
  unfold zoom. destruct (m (net st)) as [o s]. intros [= -> <-]. now cbn.
Qed.

Lemma emit_inv e st v st' :
  emit e st = (Returns v, st') → st' = log e st.
Proof. unfold emit. now intros [= _ <-]. Qed.

Lemma with_sched_inv {A} e (f : scheduler → A * scheduler) st v st' :
  with_sched e f st = (Returns v, st') →
  v = (f (sched st)).1 ∧ sched st' = (f (sched st)).2
  ∧ trace st' = trace st ++ [e] ∧ pbar st' = pbar st ∧ net st' = net st.
Proof.
  unfold with_sched. destruct (f (sched st)) as [x s]. intros [= <- <-]. now cbn.
Qed.

Lemma read_sched_inv {A} (f : scheduler → A) st v st' :
  read_sched f st = (Returns v, st') → v = f (sched st) ∧ st' = st.
Proof. unfold read_sched. now intros [= <- <-]. Qed.

Lemma torch_randn_inv n d st v st' :
  torch_randn n d st = (Returns v, st') →
  trace st' = trace st ++ [EvRandn n] ∧ pbar st' = pbar st ∧ net st' = net st
  ∧ sched st' = sched st.
Proof.
  unfold torch_randn. destruct (randn n d (gen st)) as [x g]. intros [= _ <-]. now cbn.
Qed.

Lemma step_scheduler_inv noise_pred t z st v st' :
  step_scheduler noise_pred t z st = (Returns v, st') →
  trace st' = trace st ++ [EvSchedulerStep] ∧ pbar st' = pbar st ∧ net st' = net st.
Proof.
  unfold step_scheduler.
  destruct (scheduler_step noise_pred t z (sched st) (gen st)) as [[z' s] g].
  intros [= _ <-]. now cbn.
Qed.

Lemma chunk2_inv {A S} (x : list A) (st : S) v st' :
  chunk2 x st = (Returns v, st') → st' = st.
Proof. unfold chunk2. case_decide; [discriminate|]. now intros [= _ <-]. Qed.

(** *** Before the loop *)

Lemma seed_and_sample_effects a st z st' :
  seed_and_sample a st = (Returns z, st') →
  effects st st' (seed_events a) 0 ∧ sched st' = sched st.
Proof.
  unfold seed_and_sample, seed_events. intros E.
  apply bind_returns_inv in E as ([] & st1 & E1 & E).
  apply torch_randn_inv in E as (Ht & Hp & Hn & Hs).
  assert (trace st1 = trace st ++ match seed a with Some _ => [EvManualSeed] | None => [] end
          ∧ pbar st1 = pbar st ∧ net st1 = net st ∧ sched st1 = sched st) as (Ht1 & Hp1 & Hn1 & Hs1).
  { destruct (seed a) as [s|].
    - unfold torch_manual_seed in E1. injection E1 as <-. now cbn.
    - injection E1 as <-. now rewrite app_nil_r. }
  split; [|congruence]. apply effects_frame.
  - now rewrite Ht, Ht1, app_assoc.
  - lia.
  - now rewrite Hn, Hn1.
Qed.

Lemma for_each_to_tensor_effects images : ∀ st tensors st',
  for_each images to_tensor st = (Returns tensors, st') →
  length tensors = length images
  ∧ trace st' = trace st ++ replicate (length images) EvImageToTensor
  ∧ pbar st' = pbar st ∧ net st' = net st ∧ sched st' = sched st.
Proof.
  induction images as [|img images IH]; intros st tensors st' E.
  - injection E as <- <-. now rewrite app_nil_r.
  - cbn [for_each] in E. apply bind_returns_inv in E as (y & st1 & E1 & E).
    apply bind_returns_inv in E as (ys & st2 & E2 & E). injection E as <- <-.
    unfold to_tensor in E1. injection E1 as _ <-.
    destruct (IH _ _ _ E2) as (Hl & Ht & Hp & Hn & Hs).
    split; [cbn; now rewrite Hl|]. split; [|now rewrite Hp, Hn, Hs].
    rewrite Ht. cbn. now rewrite <- app_assoc.
Qed.

Lemma encode_references_effects images st latents st' :
  encode_references images st = (Returns latents, st') →
  effects st st' (reference_events images) 0 ∧ sched st' = sched st
  ∧ ((∀ ts g, length (vae_encode_sample ts g).1 = length ts) →
     length latents = length images).
Proof.
  intros E. destruct images as [|img images].
  - injection E as <- <-. split; [apply effects_refl|]. now split.
  - unfold encode_references in E.
    apply bind_returns_inv in E as (tensors & st1 & E1 & E).
    apply bind_returns_inv in E as (sample & st2 & E2 & E). injection E as <- <-.
    destruct (for_each_to_tensor_effects _ _ _ _ E1) as (Hl & Ht & Hp & Hn & Hs).
    unfold vae_sample in E2.
    destruct (vae_encode_sample tensors (gen st1)) as [s g] eqn:Ev.
    injection E2 as <- <-. cbn [sched]. split; [|split; [exact Hs|]].
    + apply effects_frame; cbn [trace pbar net log].
      * rewrite Ht, Hl. unfold reference_events. now rewrite <- app_assoc.
      * lia.
      * now rewrite Hn.
    + intros Hvae. unfold mscale. rewrite length_map.
      specialize (Hvae tensors (gen st1)). rewrite Ev in Hvae. cbn in Hvae. congruence.
Qed.

Lemma prompt_list_inv p n (st : gstate) l st' :
  prompt_list p n st = (Returns l, st') → st' = st ∧ length l = n.
Proof.
  destruct p as [s|l0]; cbn [prompt_list].
  - intros [= <- <-]. split; [reflexivity | apply length_replicate].
  - unfold assert. case_bool_decide as Hl; [|discriminate].
    intros [= <- <-]. now split.
Qed.

(** *** One step of the loop *)

Lemma report_progress_effects i n w st st' :
  report_progress i n w st = (Returns (), st') →
  ∃ k, effects st st' [] k
       ∧ ((∀ s, order s = 1%nat) → k = if progress_step n w i then 1%nat else 0%nat).
Proof.
  assert (∀ st0 st1, pbar_update st0 = (Returns (), st1) → effects st0 st1 [] 1) as Hup.
  { intros st0 st1 [= <-]. apply effects_frame; cbn; [now rewrite app_nil_r | lia | reflexivity]. }
  unfold report_progress, progress_step. intros E. case_bool_decide as Hlast.
  - exists 1%nat. split; [now apply Hup | reflexivity].
  - cbn [orb]. case_bool_decide as Hwarm.
    + apply bind_returns_inv in E as (o & st1 & E1 & E).
      apply read_sched_inv in E1 as [-> ->].
      case_bool_decide as Ho; [discriminate|].
      case_bool_decide as Hmod.
      * exists 1%nat. split; [now apply Hup | reflexivity].
      * injection E as <-. exists 0%nat. split; [apply effects_refl|].
        intros Horder. exfalso. apply Hmod. rewrite Horder. apply Nat.mod_1_r.
    + injection E as <-. exists 0%nat. split; [apply effects_refl | reflexivity].
Qed.

Lemma guide_and_step_effects a t z unet_out st z' st' :
  guide_and_step a t z unet_out st = (Returns z', st') →
  effects st st' [EvSchedulerStep] 0.
Proof.
  unfold guide_and_step. intros E.
  apply bind_returns_inv in E as ([cond uncond] & st1 & E1 & E).
  apply chunk2_inv in E1 as ->.
  apply step_scheduler_inv in E as (Ht & Hp & Hn).
  apply effects_frame; [exact Ht | lia | now rewrite Hn].
Qed.

Lemma reference_caches_effects a t alpha_hat pos neg npe st caches st' :
  reference_caches a t alpha_hat pos neg npe st = (Returns caches, st') →
  effects st st'
    ([EvRandn (length (pos ++ neg))] ++ (if is_euler_ancestral then [] else [EvAddNoise])
     ++ [EvUNet]) 0.
Proof.
  unfold reference_caches. intros E.
  apply bind_returns_inv in E as (noise & st1 & E1 & E).
  apply torch_randn_inv in E1 as (Ht1 & Hp1 & Hn1 & _).
  apply bind_returns_inv in E as (z_ref_noised & st2 & E2 & E).
  assert (effects st1 st2 (if is_euler_ancestral then [] else [EvAddNoise]) 0) as H2.
  { destruct is_euler_ancestral.
    - injection E2 as _ <-. apply effects_refl.
    - apply with_sched_inv in E2 as (_ & _ & Ht & Hp & Hn).
      apply effects_frame; [exact Ht | lia | now rewrite Hn]. }
  apply bind_returns_inv in E as (l & st3 & E3 & E).
  apply bind_returns_inv in E3 as ([] & st2' & Eemit & E3).
  apply emit_inv in Eemit as ->.
  apply zoom_inv in E3 as (Ecache & Ht3 & Hp3 & _ & _).
  assert (effects st2 st3 [EvUNet] 0) as H3.
  { split; [exact Ht3|]. split; [rewrite Hp3; cbn; lia|]. cbn [net log] in Ecache.
    intros Hnd Hc. eapply caching_pass_restores; [exact Hnd | exact Hc | exact Ecache]. }
  apply bind_returns_inv in E as (cached & st4 & E4 & E).
  apply zoom_inv in E4 as (E4 & Ht4 & Hp4 & _ & _).
  apply bind_returns_inv in E as (lp & st5 & E5 & E).
  apply zoom_inv in E5 as (E5 & Ht5 & Hp5 & _ & _).
  apply bind_returns_inv in E as (ln & st6 & E6 & E).
  apply zoom_inv in E6 as (E6 & Ht6 & Hp6 & _ & _).
  injection E as _ <-.
  assert (effects st3 st6 [] 0) as H4.
  { apply effects_frame.
    - now rewrite Ht6, Ht5, Ht4, app_nil_r.
    - lia.
    - unfold list_read in E4. injection E4 as _ E4.
      unfold list_new in E5, E6. injection E5 as _ E5. injection E6 as _ E6.
      rewrite <- E6. cbn [attrs]. rewrite <- E5. cbn [attrs]. now rewrite <- E4. }
  assert (effects st st1 [EvRandn (length (pos ++ neg))] 0) as H1
    by (apply effects_frame; [exact Ht1 | lia | now rewrite Hn1]).
  pose proof (effects_trans _ _ _ _ _ _ _ H1
                (effects_trans _ _ _ _ _ _ _ H2 (effects_trans _ _ _ _ _ _ _ H3 H4))) as Hall.
  now rewrite app_nil_r in Hall.
Qed.

Lemma denoising_step_effects a n w rs re pos neg bpe npe i t z st z' st' :
  denoising_step a n w rs re pos neg bpe npe i t z st = (Returns z', st') →
  ∃ k, effects st st' (step_events a (length (pos ++ neg)) rs re i) k
       ∧ ((∀ s, order s = 1%nat) → k = if progress_step n w i then 1%nat else 0%nat).
Proof.
  unfold denoising_step. intros E.
  apply bind_returns_inv in E as (sigma & st0 & E0 & E).
  unfold step_sigma in E0. apply read_sched_inv in E0 as [_ ->].
  apply bind_returns_inv in E as (z_single & st1 & E1 & E).
  apply with_sched_inv in E1 as (_ & _ & Ht1 & Hp1 & Hn1).
  assert (effects st st1 [EvScaleModelInput] 0) as H1
    by (apply effects_frame; [exact Ht1 | lia | now rewrite Hn1]).
  apply bind_returns_inv in E as ([cp cn] & st2 & E2 & E).
  assert (effects st1 st2
            (if feedback_step a (length (pos ++ neg)) rs re i
             then [EvRandn (length (pos ++ neg))]
                  ++ (if is_euler_ancestral then [] else [EvAddNoise]) ++ [EvUNet]
             else []) 0) as H2.
  { unfold feedback_step.
    destruct (bool_decide (0 < length (pos ++ neg))%nat
              && rltb 0 (step_weight rs re i (min_weight a) (max_weight a))).
    - now apply reference_caches_effects in E2.
    - injection E2 as _ _ <-. apply effects_refl. }
  apply bind_returns_inv in E as (unet_out & st3 & E3 & E).
  apply bind_returns_inv in E3 as ([] & st2' & Eemit & E3).
  apply emit_inv in Eemit as ->.
  apply zoom_inv in E3 as (Einj & Ht3 & Hp3 & _ & _).
  assert (effects st2 st3 [EvUNet] 0) as H3.
  { split; [exact Ht3|]. split; [rewrite Hp3; cbn; lia|]. cbn [net log] in Einj.
    intros Hnd Hc. eapply injection_pass_restores; [exact Hnd | exact Hc | exact Einj]. }
  apply bind_returns_inv in E as (z2 & st4 & E4 & E).
  apply guide_and_step_effects in E4 as H4.
  apply bind_returns_inv in E as ([] & st5 & E5 & E). injection E as _ <-.
  destruct (report_progress_effects _ _ _ _ _ E5) as (k & H5 & Hk).
  exists k. split; [|exact Hk].
  pose proof (effects_trans _ _ _ _ _ _ _ H1
                (effects_trans _ _ _ _ _ _ _ H2
                   (effects_trans _ _ _ _ _ _ _ H3
                      (effects_trans _ _ _ _ _ _ _ H4 H5)))) as Hall.
  unfold step_events. rewrite app_nil_r in Hall.
  replace (0 + (0 + (0 + (0 + k))))%nat with k in Hall by lia. exact Hall.
Qed.

(** *** The loop *)

Lemma enumerate_from_effects a n w rs re pos neg bpe npe ts : ∀ i z st z' st',
  enumerate_from (denoising_step a n w rs re pos neg bpe npe) i ts z st = (Returns z', st') →
  ∃ k, effects st st'
         (concat (map (step_events a (length (pos ++ neg)) rs re) (seq i (length ts)))) k
       ∧ ((∀ s, order s = 1%nat) →
          k = length (filter (λ j, progress_step n w j = true) (seq i (length ts)))).
Proof.
  induction ts as [|t ts IH]; intros i z st z' st' E.
  - injection E as _ <-. exists 0%nat. split; [apply effects_refl | reflexivity].
  - cbn [enumerate_from] in E. apply bind_returns_inv in E as (z1 & st1 & E1 & E).
    destruct (denoising_step_effects _ _ _ _ _ _ _ _ _ _ _ _ _ _ _ E1) as (k1 & H1 & Hk1).
    destruct (IH _ _ _ _ _ E) as (k2 & H2 & Hk2).
    exists (k1 + k2)%nat. split.
    + cbn [length seq map concat]. eapply effects_trans; [exact H1 | exact H2].
    + intros Horder. rewrite (Hk1 Horder), (Hk2 Horder). cbn [length seq].
      rewrite filter_cons. destruct (progress_step n w i) eqn:Ep.
      * rewrite decide_True by reflexivity. reflexivity.
      * rewrite decide_False by discriminate. reflexivity.
Qed.

(** *** The whole call *)

Lemma generate_effects a st imgs st' :
  generate a st = (Returns imgs, st') →
  let ts := timesteps (set_timesteps (denoising_steps a) (sched st)) in
  ∃ k n_ref,
    effects st st' (generate_events a n_ref (length ts)) k
    ∧ ((∀ ts g, length (vae_encode_sample ts g).1 = length ts) →
       n_ref = (length (liked a) + length (disliked a))%nat)
    ∧ ((∀ s, order s = 1%nat) →
       k = length (filter (λ j, progress_step (length ts)
                                  (Z.of_nat (length ts) - Z.of_nat (denoising_steps a * 1)) j
                                = true)
                     (seq 0 (length ts)))).
Proof.
  intros E ts. unfold generate in E.
  apply bind_returns_inv in E as (z & st1 & E1 & E).
  apply seed_and_sample_effects in E1 as [H1 Hs1].
  apply bind_returns_inv in E as (pos & st2 & E2 & E).
  apply encode_references_effects in E2 as (H2 & Hs2 & Hl2).
  apply bind_returns_inv in E as (neg & st3 & E3 & E).
  apply encode_references_effects in E3 as (H3 & Hs3 & Hl3).
  apply bind_returns_inv in E as (p & st4 & E4 & E).
  apply prompt_list_inv in E4 as [-> Hp].
  apply bind_returns_inv in E as (np & st5 & E5 & E).
  apply prompt_list_inv in E5 as [-> Hnp].
  unfold sample_with in E.
  apply bind_returns_inv in E as (embs & st6 & E6 & E).
  unfold initialize_prompts in E6.
  apply bind_returns_inv in E6 as ([] & st6' & Eemit & E6).
  apply emit_inv in Eemit as ->. injection E6 as _ <-.
  apply bind_returns_inv in E as ([] & st7 & E7 & E).
  apply with_sched_inv in E7 as (_ & Hs7 & Ht7 & Hp7 & Hn7).
  apply bind_returns_inv in E as (ts' & st8 & E8 & E).
  apply read_sched_inv in E8 as [-> ->].
  apply bind_returns_inv in E as (sigma0 & st9 & E9 & E).
  apply read_sched_inv in E9 as [-> ->].
  apply bind_returns_inv in E as (o & st10 & E10 & E).
  apply read_sched_inv in E10 as [-> ->].
  apply bind_returns_inv in E as (zf & st11 & E11 & E).
  apply bind_returns_inv in E as ([] & st12 & Eemit & E).
  apply emit_inv in Eemit as ->. injection E as _ <-.
  assert (timesteps (sched st7) = ts) as Hts.
  { unfold ts. rewrite Hs7. cbn [sched log snd]. now rewrite Hs3, Hs2, Hs1. }
  rewrite Hts in E11.
  destruct (enumerate_from_effects _ _ _ _ _ _ _ _ _ _ _ _ _ _ _ E11) as (k & H11 & Hk).
  assert (effects st3 st7 [EvTextEncode (2 * n_images a + 1); EvSetTimesteps] 0) as H7.
  { apply effects_frame.
    - rewrite Ht7. cbn [trace log]. rewrite <- app_assoc. cbn [app].
      rewrite !length_app, Hp, Hnp. cbn [length].
      replace (n_images a + (n_images a + 1))%nat with (2 * n_images a + 1)%nat by lia.
      reflexivity.
    - rewrite Hp7. cbn. lia.
    - now rewrite Hn7. }
  assert (effects st11 (log EvDecode st11) [EvDecode] 0) as H12
    by (apply effects_frame; cbn; [reflexivity | lia | reflexivity]).
  exists k, (length (pos ++ neg)). split; [|split].
  - pose proof (effects_trans _ _ _ _ _ _ _ H1
                  (effects_trans _ _ _ _ _ _ _ H2
                     (effects_trans _ _ _ _ _ _ _ H3
                        (effects_trans _ _ _ _ _ _ _ H7
                           (effects_trans _ _ _ _ _ _ _ H11 H12))))) as Hall.
    unfold generate_events.
    replace (0 + (0 + (0 + (0 + (k + 0)))))%nat with k in Hall by lia.
    exact Hall.
  - intros Hvae. rewrite length_app, (Hl2 Hvae), (Hl3 Hvae). reflexivity.
  - intros Horder. rewrite (Hk Horder). now rewrite (Horder (sched st7)).
Qed.

Lemma filter_all {A} (P : A → Prop) `{∀ x, Decision (P x)} (l : list A) :
  Forall P l → filter P l = l.
Proof.
  induction 1 as [|x l Hx _ IH]; [reflexivity|].
  rewrite filter_cons_True by exact Hx. now rewrite IH.
Qed.

Lemma madd_scaled_difference c (cond uncond : mat) :
  Forall2 (λ x y : vec, length x = length y) cond uncond →
  madd uncond (mscale c (msub cond uncond))
  = zip_with (zip_with (λ x y, y + c * (x - y))) cond uncond.
Proof.
  unfold madd, mscale, msub, vadd, vscale.
  induction 1 as [|x y cond uncond Hxy _ IH]; [reflexivity|].
  cbn [zip_with map]. rewrite IH. f_equal.
  clear -Hxy. revert y Hxy. induction x as [|a x IHx]; intros [|b y] Hxy; simplify_eq/=;
    try reflexivity.
  now rewrite IHx.
Qed.

Lemma zip_with_pointwise (f : R → R → R) (g : R → R → R) (cond uncond : mat) :
  (∀ x y, f x y = g x y) →
  zip_with (zip_with f) cond uncond = zip_with (zip_with g) cond uncond.
Proof.
  intros Hfg. revert uncond. induction cond as [|x cond IH]; intros [|y uncond];
    try reflexivity.
  cbn [zip_with]. rewrite IH. f_equal.
  revert y. induction x as [|a x IHx]; intros [|b y]; try reflexivity.
  cbn [zip_with]. now rewrite Hfg, IHx.
Qed.

Lemma zip_with_fst_same (cond uncond : mat) :
  Forall2 (λ x y : vec, length x = length y) cond uncond →
  zip_with (zip_with (λ x _, x)) cond uncond = cond
  ∧ zip_with (zip_with (λ _ y, y)) cond uncond = uncond.
Proof.
  induction 1 as [|x y cond uncond Hxy _ [IH1 IH2]]; [now split|].
  cbn [zip_with]. rewrite IH1, IH2.
  assert (zip_with (λ x _ : R, x) x y = x ∧ zip_with (λ _ y : R, y) x y = y) as [-> ->];
    [|now split].
  clear -Hxy. revert y Hxy. induction x as [|a x IHx]; intros [|b y] Hxy; simplify_eq/=;
    [now split|].
  destruct (IHx y Hxy) as [-> ->]. now split.
Qed.

End WithPipeline.
End GenerateEffects.

Module GenerateExtras.
Import Tensor Attn Py Schedule Imaging Net Generate NetFacts PassFacts RunFacts RestoreFacts.
Import RestoreClaim GenerateFacts GenerateTrace GenerateEffects InjectionClaim Toy.
Local Open Scope R_scope.

(** X12: the calls of a run.  A call of [generate] that returns has made,
    in this order: the seeding (when a seed is given) and the sampling of
    the initial latents; for the liked and then the disliked images, one
    conversion per image and one VAE encoding; one text encoding of
    [2 * n_images + 1] prompts; the set-up of the scheduler; for every
    timestep the scaling of the input, on a feedback step (reference
    latents present and a positive weight) the noise for the references and
    one network evaluation that caches, then the network evaluation proper
    and one scheduler step; and the decoding.  The VAE is taken to give one
    latent per image. *)
Theorem generate_calls `{Pipeline} (a : args) (st : gstate) imgs st' :
  (∀ ts g, length (vae_encode_sample ts g).1 = length ts) →
  generate a st = (Returns imgs, st') →
  trace st'
  = trace st
    ++ generate_events a (length (liked a) + length (disliked a))
         (length (timesteps (set_timesteps (denoising_steps a) (sched st)))).
Proof.
  intros Hvae E.
  destruct (generate_effects a st imgs st' E) as (k & n_ref & (Ht & _) & Hn & _).
  now rewrite <- (Hn Hvae).
Qed.

(** A run of three steps without reference images: ten calls of the
    scheduler and the network between the set-up and the decoding. *)
Lemma generate_calls_witness :
  ∃ imgs st',
    generate three_steps counting_state = (Returns imgs, st')
    ∧ trace st' = trace counting_state ++ generate_events three_steps 0 3.
Proof.
  destruct (generate three_steps counting_state) as [[imgs|e|] st'] eqn:E;
    [|vm_compute in E; discriminate..].
  exists imgs, st'. split; [reflexivity|].
  apply (generate_calls three_steps counting_state imgs st'); [|exact E].
  intros ts g. exact (length_map (λ _ : tensor, ([] : vec)) ts).
Defined.

(** X13: a call of [generate] that returns leaves the network as it found
    it: on a network without instrumentation, every [attn1] has the
    [forward] it had before the call and no [old_forward], whatever the
    number of steps and of feedback steps.  A run with feedback steps is
    [generate_restores_network_witness], further down. *)
Theorem generate_restores_network `{Pipeline} (a : args) (st : gstate) imgs st' :
  NoDup (modules unet) → clean (net st) →
  generate a st = (Returns imgs, st') →
  restored (net st) (net st').
Proof.
  intros Hnd Hclean E.
  destruct (generate_effects a st imgs st' E) as (k & n_ref & (_ & _ & Hnet) & _).
  now apply Hnet.
Qed.

(** X14: the progress bar.  With a scheduler of order 1 that gives as many
    timesteps as denoising steps were asked for, a call of [generate] that
    returns has advanced the progress bar once per step: it ends at its
    total, [denoising_steps]. *)
Theorem progress_bar_reaches_total `{Pipeline} (a : args) (st : gstate) imgs st' :
  (∀ s, order s = 1%nat) →
  (∀ n s, length (timesteps (set_timesteps n s)) = n) →
  generate a st = (Returns imgs, st') →
  pbar st' = (pbar st + denoising_steps a)%nat.
Proof.
  intros Horder Hlen E.
  destruct (generate_effects a st imgs st' E) as (k & n_ref & (_ & Hp & _) & _ & Hk).
  rewrite Hp, (Hk Horder), Hlen. f_equal.
  replace (Z.of_nat (denoising_steps a) - Z.of_nat (denoising_steps a * 1))%Z with 0%Z by lia.
  transitivity (length (seq 0 (denoising_steps a))); [|apply length_seq]. f_equal.
  apply filter_all, Forall_forall. intros j _. cbn beta. unfold progress_step.
  rewrite (bool_decide_true (0 < Z.of_nat (j + 1))%Z) by lia. apply orb_true_r.
Qed.

Lemma progress_bar_reaches_total_witness :
  ∃ imgs st',
    generate three_steps counting_state = (Returns imgs, st')
    ∧ pbar st' = 3%nat.
Proof.
  destruct (generate three_steps counting_state) as [[imgs|e|] st'] eqn:E;
    [|vm_compute in E; discriminate..].
  exists imgs, st'. split; [reflexivity|].
  apply (progress_bar_reaches_total three_steps counting_state imgs st'); [| |exact E].
  - reflexivity.
  - intros n s. apply length_replicate.
Defined.

(** X15: a step whose weight is not positive runs no reference pass.  When
    the weight of step [i] is zero or negative (for instance [min_weight = 0]
    outside the feedback window), the step is the plain guided step even
    with reference latents: no noise is drawn for them, nothing is cached
    and the network is evaluated once, without instrumentation. *)
Theorem nonpositive_weight_skips_feedback `{Pipeline} (a : args) n w rs re pos neg bpe npe
    i t z (st : gstate) :
  step_weight rs re i (min_weight a) (max_weight a) <= 0 →
  denoising_step a n w rs re pos neg bpe npe i t z st = plain_cfg_step a n w bpe i t z st.
Proof.
  intros Hw. unfold denoising_step.
  assert (rltb 0 (step_weight rs re i (min_weight a) (max_weight a)) = false) as ->.
  { unfold rltb. destruct (Rlt_dec _ _); [lra | reflexivity]. }
  rewrite andb_false_r. reflexivity.
Qed.

(** A run of the theorem: step 0 lies before the window and [min_weight]
    is 0. *)
Lemma nonpositive_weight_skips_feedback_witness :
  denoising_step three_steps 3 0 1 2 [[0]] [] [] [] 0 0 [[]] counting_state
  = plain_cfg_step three_steps 3 0 [] 0 0 [[]] counting_state.
Proof.
  apply (nonpositive_weight_skips_feedback three_steps 3 0 1 2 [[0]] [] [] [] 0 0 [[]]
           counting_state).
  exact (Rle_refl 0).
Defined.

(** X16: the guidance scale.  The two halves of the network output are
    combined as [uncond + guidance_scale * (cond - uncond)]: with a guidance
    scale of 1 the scheduler is stepped with the conditional prediction
    alone, with 0 with the unconditional one. *)
Theorem guidance_scale_one_and_zero `{Pipeline} (a : args) t z (cond uncond : mat)
    (st : gstate) :
  Forall2 (λ x y : vec, length x = length y) cond uncond →
  (guidance_scale a = 1 →
     guide_and_step a t z (cond ++ uncond) st = step_scheduler cond t z st)
  ∧ (guidance_scale a = 0 →
       guide_and_step a t z (cond ++ uncond) st = step_scheduler uncond t z st).
Proof.
  intros Hshape. pose proof (Forall2_length _ _ _ Hshape) as Hlen.
  assert (∀ g, guidance_scale a = g →
            guide_and_step a t z (cond ++ uncond) st
            = step_scheduler (zip_with (zip_with (λ x y, y + g * (x - y))) cond uncond) t z st)
    as Hstep.
  { intros g Hg. unfold guide_and_step.
    assert (length (cond ++ uncond) ≠ 1%nat) as Hne by (rewrite length_app; lia).
    rewrite (bind_returns _ _ _ _ _ (chunk2_returns (cond ++ uncond) st Hne)).
    assert (((length (cond ++ uncond) + 1) / 2)%nat = length cond) as ->.
    { rewrite length_app, <- Hlen.
      replace (length cond + length cond + 1)%nat with (2 * length cond + 1)%nat by lia.
      apply midpoint. }
    rewrite take_app_length, drop_app_length, Hg.
    now rewrite madd_scaled_difference. }
  destruct (zip_with_fst_same cond uncond Hshape) as [Hc Hu]. split; intros Hg.
  - rewrite (Hstep 1 Hg). rewrite (zip_with_pointwise _ (λ x _, x)); [now rewrite Hc|].
    intros x y. lra.
  - rewrite (Hstep 0 Hg). rewrite (zip_with_pointwise _ (λ _ y, y)); [now rewrite Hu|].
    intros x y. lra.
Qed.

(** A run of the theorem with a guidance scale of 1. *)
Lemma guidance_scale_one_and_zero_witness :
  guide_and_step unit_guidance 0 [[0]] ([[1]] ++ [[2]]) counting_state
  = step_scheduler [[1]] 0 [[0]] counting_state.
Proof.
  refine (proj1 (guidance_scale_one_and_zero unit_guidance 0 [[0]] [[1]] [[2]]
                   counting_state _) _).
  - repeat constructor.
  - reflexivity.
Defined.

End GenerateExtras.

(** ** A negative weight on the fused path *)

Module FusedNegative.
Import Tensor Attn AttnFacts FusedPath Shapes FusedTensor FusedClaim FusedCounterexample.
Import AttnFinite.
Local Open Scope R_scope.

Lemma mapM_None_elem {A B} (f : A → option B) l x :
  x ∈ l → f x = None → mapM f l = None.
Proof.
  intros Hin Hx. induction l as [|y l IH]; [inversion Hin|].
  apply elem_of_cons in Hin as [<-|Hin]; simpl.
  - now rewrite Hx.
  - rewrite (IH Hin). now destruct (f y).
Qed.

Lemma lookup_repeat_interleave {A} h (l : list A) b x :
  (0 < h)%nat → l !! b = Some x → repeat_interleave h l !! (b * h)%nat = Some x.
Proof.
  intros Hh. unfold repeat_interleave. revert b.
  induction l as [|y l IH]; intros b Hb; [discriminate|]. cbn [map concat].
  destruct b as [|b].
  - injection Hb as ->. rewrite lookup_app_l by (rewrite length_replicate; lia).
    apply lookup_replicate_2. lia.
  - rewrite lookup_app_r by (rewrite length_replicate; cbn; lia).
    rewrite length_replicate. replace (S b * h - h)%nat with (b * h)%nat by (cbn; lia).
    now apply IH.
Qed.

(** A row of logits with a [nan] bias has no finite softmax. *)
Lemma fused_row_nan alpha qrow (k : mat) (brow : list xreal) j :
  (j < length k)%nat → brow !! j = Some NaN →
  fused_row alpha qrow k (Some brow) = None.
Proof.
  intros Hj Hb. unfold fused_row.
  destruct (lookup_lt_is_Some_2 k j Hj) as [krow Hk].
  rewrite (mapM_None_elem xexp _ NaN); [reflexivity| |reflexivity].
  apply list_elem_of_lookup. exists j. apply lookup_zip_with_Some.
  exists krow, NaN. split; [reflexivity|]. now split.
Qed.

Lemma fused_batch_nan alpha n (qm km : mat) (brow : list xreal) j :
  (0 < n)%nat → qm ≠ [] → (j < length km)%nat → brow !! j = Some NaN →
  fused_batch alpha (replicate n brow, (qm, km)) = None.
Proof.
  intros Hn Hq Hj Hb. unfold fused_batch.
  destruct n as [|n]; [lia|]. destruct qm as [|qrow qm]; [done|].
  simpl.
  now rewrite (fused_row_nan alpha qrow km brow j Hj Hb).
Qed.

Lemma head_to_batch_dim_lookup attn (t : tensor) S b :
  (0 < heads attn)%nat → (b < length t)%nat → Forall (λ m : mat, length m = S) t →
  ∃ m, head_to_batch_dim attn t !! (b * heads attn)%nat = Some m ∧ length m = S.
Proof.
  intros HH Hb Hrows.
  destruct (lookup_lt_is_Some_2 (head_to_batch_dim attn t) (b * heads attn)) as [m Hm].
  { rewrite head_to_batch_dim_length. nia. }
  exists m. split; [exact Hm|].
  exact (proj1 (Forall_lookup _ _) (head_to_batch_dim_rows attn t S Hrows) _ _ Hm).
Qed.

End FusedNegative.

Module FusedNegativeClaim.
Import Tensor Attn AttnFacts FusedPath Shapes FusedTensor FusedClaim FusedCounterexample.
Import AttnFinite FusedNegative.
Local Open Scope R_scope.

(** X17: a negative weight on the fused path.  The fused branch takes the
    logarithm of the weights; when the weight row of some batch entry has a
    negative entry at a key position, [attn_with_weights] on that branch
    has no finite output (the logarithm is nan), whatever the other
    weights are. *)
Theorem negative_weight_is_not_finite_when_fused attn hs ehs (w : list (list R)) ls
    (S K b j : nat) row x :
  (0 < heads attn)%nat → norm_cross attn = false → (0 < S)%nat →
  Forall (λ m : mat, length m = S) hs → Forall (λ m : mat, length m = K) ehs →
  (b < length hs)%nat → (b < length ehs)%nat →
  w !! b = Some row → row !! j = Some x → (j < K)%nat → x < 0 →
  attn_with_weights true attn hs (Some ehs) None (Some w) ls = None.
Proof.
  intros HH Hnorm HS Hhs Hehs Hb Hbe Hw Hrow Hj Hx.
  unfold attn_with_weights, memory_efficient_attention, prepare_attention_mask, fused_bias.
  cbn [negb]. rewrite Hnorm.
  set (qt := match processor attn with Some p => _ | None => linear (to_q attn) hs end).
  set (kt := match processor attn with Some p => _ | None => linear (to_k attn) ehs end).
  set (query := head_to_batch_dim attn qt).
  set (key := head_to_batch_dim attn kt).
  assert (length qt = length hs ∧ Forall (λ m : mat, length m = S) qt) as [Hql Hqr].
  { subst qt. destruct (processor attn).
    - split.
      + rewrite tadd_length; rewrite ?tscale_length, !linear_length; reflexivity.
      + apply tadd_rows; [|apply tscale_rows]; apply linear_rows; exact Hhs.
    - split; [apply linear_length | apply linear_rows; exact Hhs]. }
  assert (length kt = length ehs ∧ Forall (λ m : mat, length m = K) kt) as [Hkl Hkr].
  { subst kt. destruct (processor attn).
    - split.
      + rewrite tadd_length; rewrite ?tscale_length, !linear_length; reflexivity.
      + apply tadd_rows; [|apply tscale_rows]; apply linear_rows; exact Hehs.
    - split; [apply linear_length | apply linear_rows; exact Hehs]. }
  destruct (head_to_batch_dim_lookup attn qt S b HH ltac:(lia) Hqr) as (qm & Hqm & Hqml).
  destruct (head_to_batch_dim_lookup attn kt K b HH ltac:(lia) Hkr) as (km & Hkm & Hkml).
  fold query in Hqm. fold key in Hkm.
  assert (size1 query = S) as Hsize.
  { pose proof (head_to_batch_dim_rows attn qt S Hqr) as Hall. fold query in Hall.
    destruct query as [|m0 query']; [discriminate|].
    now apply Forall_cons in Hall as [Hm0 _]. }
  assert (fused_probs (scale attn) query key (Some (log_bias attn w (size1 query))) = None)
    as ->; [|reflexivity].
  unfold fused_probs.
  change (mapM (λ '(b, (q, k)),
                  mapM (λ '(brow, qrow), fused_row (scale attn) qrow k (Some brow)) (zip b q)))
    with (mapM (fused_batch (scale attn))).
  apply (mapM_None_elem _ _ (replicate S (map torch_log row), (qm, km))).
  - apply list_elem_of_lookup. exists (b * heads attn)%nat.
    apply lookup_zip_with_Some. eexists _, (qm, km). split; [reflexivity|]. split.
    + unfold log_bias. rewrite Hsize, list_lookup_fmap.
      now rewrite (lookup_repeat_interleave (heads attn) w b row HH Hw).
    + apply lookup_zip_with_Some. eexists _, _. split; [reflexivity|]. now split.
  - apply (fused_batch_nan _ _ _ _ _ j HS).
    + intros ->. cbn in Hqml. lia.
    + lia.
    + rewrite list_lookup_fmap, Hrow. cbn. now rewrite torch_log_neg.
Qed.

(** A run of the theorem: the weights [2; -1] over two keys. *)
Lemma negative_weight_is_not_finite_when_fused_witness :
  attn_with_weights true plain_attention [[[0]]] (Some [[[0]; [0]]]) None (Some [[2; -1]]) 1
  = None.
Proof.
  apply (negative_weight_is_not_finite_when_fused plain_attention [[[0]]] [[[0]; [0]]]
           [[2; -1]] 1 1 2 0 1 [2; -1] (-1)).
  - cbn. lia.
  - reflexivity.
  - lia.
  - repeat constructor.
  - repeat constructor.
  - cbn. lia.
  - cbn. lia.
  - reflexivity.
  - reflexivity.
  - lia.
  - lra.
Defined.

End FusedNegativeClaim.

(** ** The caches built from the reference latents *)

Module ReferenceCaches.
Import Tensor Attn Py Schedule Imaging Net Generate NetFacts PassFacts RunFacts RestoreFacts.
Import RestoreClaim GenerateFacts GenerateTrace GenerateEffects PassTrace PassHeap PassClaims.
Local Open Scope R_scope.

Section WithPipeline.
Context `{Pipeline}.

Lemma zoom_returns {A} (m : M Net.state A) st v s :
  m (net st) = (Returns v, s) →
  zoom m st
  = (Returns v, {| net := s; gen := gen st; sched := sched st; pbar := pbar st;
                   trace := trace st |}).
Proof. intros E. unfold zoom. now rewrite E. Qed.

Lemma torch_randn_returns n d st :
  ∃ v st', torch_randn n d st = (Returns v, st') ∧ net st' = net st.
Proof.
  unfold torch_randn. destruct (randn n d (gen st)) as [x g]. eexists _, _.
  split; reflexivity.
Qed.

Lemma with_sched_returns {A} e (f : scheduler → A * scheduler) st :
  ∃ v st', with_sched e f st = (Returns v, st') ∧ net st' = net st.
Proof.
  unfold with_sched. destruct (f (sched st)) as [x s]. eexists _, _. split; reflexivity.
Qed.

End WithPipeline.
End ReferenceCaches.

Module ReferenceCachesClaim.
Import Tensor Attn Py Schedule Imaging Net Generate NetFacts PassFacts RunFacts RestoreFacts.
Import RestoreClaim GenerateFacts GenerateTrace GenerateEffects PassTrace PassHeap PassClaims.
Import ReferenceCaches Toy.
Local Open Scope R_scope.

(** X18: the caches of a feedback step.  On a network without
    instrumentation the reference pass of a step returns, and it hands the
    injection pass two list objects, distinct from each other: for every
    [attn1] call of the network on the noised reference latents, in call
    order, the list of the liked references holds the hidden states of the
    liked latents (the first [n_pos] batch entries) concatenated along the
    sequence dimension and repeated for each of the [n_images] requested
    images, and the list of the disliked references the same for the
    remaining entries.  The cache of a kind without latents is [None]. *)
Theorem reference_caches_content `{Pipeline} (a : args) t alpha_hat (pos neg : mat)
    (npe : tensor) (st : gstate) :
  NoDup (modules unet) → (∀ m, forward_of m (net st) = OrdinaryForward) →
  (2 ≤ recursion_limit)%nat →
  ∃ cp cn st' z_ref_noised,
    reference_caches a t alpha_hat pos neg npe st = (Returns (cp, cn), st')
    ∧ let inputs :=
        attn1_inputs unet (modules unet)
          (unet_forward unet z_ref_noised t
             (concat (replicate (length pos + length neg) npe))) in
      match cp with
      | Some lp =>
          pos ≠ []
          ∧ list_at lp (net st')
            = map (λ hs : tensor, replicate (n_images a) (concat (take (length pos) hs)))
                inputs
      | None => pos = []
      end
      ∧ match cn with
        | Some ln =>
            neg ≠ []
            ∧ list_at ln (net st')
              = map (λ hs : tensor, replicate (n_images a) (concat (drop (length pos) hs)))
                  inputs
        | None => neg = []
        end
      ∧ match cp, cn with Some lp, Some ln => lp ≠ ln | _, _ => True end.
Proof.
  intros Hnd Hord Hlim. unfold reference_caches.
  destruct (torch_randn_returns (length (pos ++ neg))
              (match pos ++ neg with [] => 0%nat | x :: _ => length x end) st)
    as (noise & st1 & E1 & Hn1).
  rewrite (bind_returns _ _ _ _ _ E1).
  assert (∃ zr st2,
            (if is_euler_ancestral
             then mret (madd (mscale (sqrt alpha_hat) (pos ++ neg))
                          (mscale (sqrt (1 - alpha_hat)) noise))
             else with_sched EvAddNoise (λ s, (add_noise (pos ++ neg) noise t s, s))) st1
            = (Returns zr, st2) ∧ net st2 = net st1) as (zr & st2 & E2 & Hn2).
  { destruct is_euler_ancestral; [eexists _, _; split; reflexivity|].
    apply with_sched_returns. }
  rewrite (bind_returns _ _ _ _ _ E2).
  destruct (caching_pass_records_inputs has_xformers unet recursion_limit zr t
              (concat (replicate (length pos + length neg) npe)) (net st) Hnd Hord Hlim)
    as (l & s3 & E3 & _ & Hl3 & _).
  assert (net (log EvUNet st2) = net st) as Hn3 by (cbn; congruence).
  rewrite <- Hn3 in E3.
  set (st3 := {| net := s3; gen := gen (log EvUNet st2); sched := sched (log EvUNet st2);
                 pbar := pbar (log EvUNet st2); trace := trace (log EvUNet st2) |}).
  assert ((emit EvUNet;;
           zoom (get_unet_hidden_states has_xformers unet recursion_limit zr t
                   (concat (replicate (length pos + length neg) npe)))) st2
          = (Returns l, st3)) as E3'.
  { rewrite (bind_returns _ _ st2 _ _
               (eq_refl : emit EvUNet st2 = (Returns (), log EvUNet st2))).
    now apply zoom_returns. }
  rewrite (bind_returns _ _ _ _ _ E3').
  rewrite (bind_returns _ _ st3 _ _
             (zoom_returns (list_read l) st3 (list_at l s3) s3 eq_refl)).
  set (st3' := {| net := s3; gen := gen st3; sched := sched st3; pbar := pbar st3;
                  trace := trace st3 |}).
  rewrite Hl3.
  set (inputs := attn1_inputs unet (modules unet)
                   (unet_forward unet zr t (concat (replicate (length pos + length neg) npe)))).
  set (cached_pos := map (λ hs : tensor, replicate (n_images a) (concat (take (length pos) hs)))
                       inputs).
  set (cached_neg := map (λ hs : tensor, replicate (n_images a) (concat (drop (length pos) hs)))
                       inputs).
  set (lp := fresh (dom (heap s3))).
  set (s4 := {| attrs := attrs s3; heap := <[lp := cached_pos]> (heap s3) |}).
  rewrite (bind_returns _ _ st3' _ _
             (zoom_returns (list_new cached_pos) st3' lp s4 eq_refl)).
  set (st4 := {| net := s4; gen := gen st3'; sched := sched st3'; pbar := pbar st3';
                 trace := trace st3' |}).
  set (ln := fresh (dom (heap s4))).
  set (s5 := {| attrs := attrs s4; heap := <[ln := cached_neg]> (heap s4) |}).
  rewrite (bind_returns _ _ st4 _ _
             (zoom_returns (list_new cached_neg) st4 ln s5 eq_refl)).
  assert (lp ≠ ln) as Hne.
  { intros Heq. apply (is_fresh (dom (heap s4))). fold ln. rewrite <- Heq.
    unfold s4. cbn [heap]. rewrite dom_insert. apply elem_of_union. left.
    now apply elem_of_singleton. }
  assert (list_at lp s5 = cached_pos) as Hlp.
  { unfold list_at, s5, s4. cbn [heap].
    rewrite lookup_insert_ne by congruence. now rewrite lookup_insert_eq. }
  assert (list_at ln s5 = cached_neg) as Hln.
  { unfold list_at, s5. cbn [heap]. now rewrite lookup_insert_eq. }
  eexists _, _, _, zr. split; [reflexivity|]. cbv zeta. fold inputs cached_pos cached_neg.
  cbn [net]. split; [|split].
  - case_decide as Hp.
    + now apply nil_length_inv.
    + split; [|exact Hlp]. intros ->. now apply Hp.
  - case_decide as Hq.
    + now apply nil_length_inv.
    + split; [|exact Hln]. intros ->. now apply Hq.
  - repeat case_decide; try exact I. exact Hne.
Qed.

(** A run of the theorem: one liked latent, no disliked one. *)
Lemma reference_caches_content_witness :
  ∃ cp cn st',
    reference_caches three_steps 0 1 [[0]] [] [] counting_state = (Returns (cp, cn), st')
    ∧ match cn with Some _ => False | None => True end.
Proof.
  destruct (reference_caches_content three_steps 0 1 [[0]] [] [] counting_state)
    as (cp & cn & st' & z & E & _ & Hcn & _).
  - unfold modules. cbn.
    repeat (apply NoDup_cons; split; [rewrite ?elem_of_cons, elem_of_nil; lia|]).
    apply NoDup_nil_2.
  - intros m. reflexivity.
  - cbn. lia.
  - exists cp, cn, st'. split; [exact E|]. destruct cn as [ln|]; [|exact I].
    now destruct Hcn as [Hne _].
Defined.

End ReferenceCachesClaim.

(** ** A LoRA scale of zero *)

Module LoraScale.
Import Tensor Attn NoLora.
Local Open Scope R_scope.

Lemma vadd_zero (u v : vec) : length v = length u → vadd u (vscale 0 v) = u.
Proof.
  unfold vadd, vscale. revert v. induction u as [|x u IH]; intros [|y v] Hl; simplify_eq/=;
    [reflexivity|].
  rewrite IH by exact Hl. f_equal. lra.
Qed.

Lemma tadd_lora_zero (f g : vec → vec) (t : tensor) :
  (∀ v, length (g v) = length (f v)) →
  tadd (linear f t) (tscale 0 (linear g t)) = linear f t.
Proof.
  intros Hfg. unfold tadd, tscale, linear.
  induction t as [|m t IH]; [reflexivity|]. cbn [map zip_with]. rewrite IH. f_equal.
  clear IH. induction m as [|v m IH]; [reflexivity|]. cbn [map zip_with]. rewrite IH.
  f_equal. now apply vadd_zero.
Qed.

(** X19: a LoRA scale of zero.  With [lora_scale = 0] the LoRA layers of the
    processor contribute nothing: [attn_with_weights] returns what it
    returns for the same module without a LoRA processor, on both paths and
    for any weights and mask (the LoRA layers have the output sizes of the
    layers they are added to). *)
Theorem lora_scale_zero_disables_lora has_xformers attn p hs ehs mask w :
  processor attn = Some p →
  (∀ v, length (to_q_lora p v) = length (to_q attn v)) →
  (∀ v, length (to_k_lora p v) = length (to_k attn v)) →
  (∀ v, length (to_v_lora p v) = length (to_v attn v)) →
  (∀ v, length (to_out_lora p v) = length (to_out_0 attn v)) →
  attn_with_weights has_xformers attn hs ehs mask w 0
  = attn_with_weights has_xformers (without_lora attn) hs ehs mask w 0.
Proof.
  intros Hp Hq Hk Hv Ho. unfold attn_with_weights. rewrite Hp.
  cbn [without_lora processor].
  rewrite !(tadd_lora_zero _ _ _ Hq), !(tadd_lora_zero _ _ _ Hk), !(tadd_lora_zero _ _ _ Hv).
  match goal with
  | |- ?m ≫= _ = ?m' ≫= _ => change m' with m; destruct m as [h|]; [|reflexivity]
  end.
  cbn [mbind option_bind]. now rewrite (tadd_lora_zero _ _ _ Ho).
Qed.

(** A run of the theorem with a LoRA processor of identity layers. *)
Lemma lora_scale_zero_disables_lora_witness :
  attn_with_weights false lora_attention [[[1]]] None None None 0
  = attn_with_weights false (without_lora lora_attention) [[[1]]] None None None 0.
Proof.
  apply (lora_scale_zero_disables_lora false lora_attention identity_lora);
    first [reflexivity | intros v; reflexivity].
Defined.

End LoraScale.

(** ** The renormalised probabilities, entry by entry *)

Module Renormalised.
Import Tensor Attn AttnFacts AttnRows.
Local Open Scope R_scope.












End Renormalised.

(** ** One row of weights for a batch of several entries *)

Module FusedBroadcast.
Import Tensor Attn AttnFacts Shapes FusedPath FusedTensor AttnFinite AttnRows.
Local Open Scope R_scope.




End FusedBroadcast.

(** ** [generate] without reference images is plain guided sampling *)

Module PlainRefinementFacts.
Import Tensor Attn Py Schedule Imaging Net Generate NetFacts RunFacts GenerateFacts.
Import PlainSampling.
Local Open Scope R_scope.

Lemma guided_row g (c u : list R) :
  vadd u (vscale g (zip_with Rminus c u)) = zip_with (λ c u, u + g * (c - u)) c u.
Proof.
  unfold vadd, vscale. revert u. induction c as [|x c IH]; intros [|y u]; try reflexivity.
  simpl. now rewrite IH.
Qed.

(** Lines 489-491 compute the guidance formula. *)
Lemma madd_guided g (cond uncond : mat) :
  madd uncond (mscale g (msub cond uncond)) = guided g cond uncond.
Proof.
  unfold madd, mscale, msub, guided. revert uncond.
  induction cond as [|c cond IH]; intros [|u uncond]; try reflexivity.
  simpl. now rewrite IH, guided_row.
Qed.

Lemma half_of_double n : ((2 * n + 1) / 2)%nat = n ∧ (2 * n / 2)%nat = n.
Proof.
  split.
  - symmetry. apply (Nat.div_unique (2 * n + 1) 2 n 1); lia.
  - symmetry. apply (Nat.div_unique (2 * n) 2 n 0); lia.
Qed.

Section WithPipeline.
Context `{Pipeline}.

Lemma prompt_list_returns p n (st : gstate) :
  (∀ l, p = inr l → length l = n) →
  prompt_list p n st = (Returns (strings_of p n), st).
Proof.
  intros Hp. destruct p as [s|l]; [reflexivity|].
  unfold prompt_list, assert. rewrite bool_decide_eq_true_2 by now apply Hp.
  reflexivity.
Qed.

Lemma strings_of_length p n :
  (∀ l, p = inr l → length l = n) → length (strings_of p n) = n.
Proof.
  intros Hp. destruct p as [s|l]; [apply length_replicate | now apply Hp].
Qed.

(** Reporting progress touches the progress bar only. *)
Lemma report_progress_returns i n w (st : gstate) :
  (∀ s, order s ≠ 0%nat) →
  ∃ st', report_progress i n w st = (Returns (), st')
         ∧ net st' = net st ∧ gen st' = gen st ∧ sched st' = sched st
         ∧ trace st' = trace st.
Proof.
  intros Ho. unfold report_progress.
  case_bool_decide; [eexists; split; [reflexivity|]; now repeat split|].
  case_bool_decide; [|eexists; split; [reflexivity|]; now repeat split].
  unfold read_sched, mbind, M_bind.
  rewrite bool_decide_eq_false_2 by apply Ho.
  case_bool_decide; eexists; (split; [reflexivity|]); now repeat split.
Qed.

(** One step of the loop without reference images is one step of the
    sampler. *)
Lemma plain_step_refines a n w bpe i t z (st : gstate) :
  (∀ m, forward_of m (net st) = OrdinaryForward) → (0 < recursion_limit)%nat →
  (∀ z t c, length (network z t c) = length z) →
  (∀ s, order s ≠ 0%nat) →
  let s' := cfg_step (guidance_scale a) bpe
              {| latents := z; generator := gen st; numerical_scheduler := sched st |} t in
  ∃ st', plain_cfg_step a n w bpe i t z st = (Returns (latents s'), st')
         ∧ gen st' = generator s' ∧ sched st' = numerical_scheduler s'
         ∧ net st' = net st
         ∧ trace st' = trace st ++ [EvScaleModelInput; EvUNet; EvSchedulerStep].
Proof.
  intros Hord Hlim Hnet Ho s'. subst s'. unfold cfg_step, plain_cfg_step.
  cbn [latents generator numerical_scheduler].
  destruct (scale_model_input z t (sched st)) as [input sch] eqn:Es.
  set (output := network (input ++ input) t bpe).
  assert (length output = (2 * length input)%nat) as Hlen.
  { subst output. rewrite Hnet, length_app. lia. }
  destruct (half_of_double (length input)) as [Hh1 Hh2].
  rewrite Hlen, Hh2.
  destruct (scheduler_step
              (guided (guidance_scale a) (take (length input) output)
                 (drop (length input) output)) t z sch (gen st))
    as [[next sch'] g] eqn:Est.
  cbn [latents generator numerical_scheduler].
  set (st1 := log EvScaleModelInput
                {| net := net st; gen := gen st; sched := sch; pbar := pbar st;
                   trace := trace st |}).
  assert (with_sched EvScaleModelInput (scale_model_input z t) st = (Returns input, st1))
    as E1 by (unfold with_sched; now rewrite Es).
  rewrite (bind_returns _ _ _ _ _ E1).
  set (st2 := log EvUNet st1).
  assert ((emit EvUNet;;
           zoom (run has_xformers unet recursion_limit
                   (unet_forward unet (input ++ input) t bpe))) st1
          = (Returns output, st2)) as E2.
  { assert (emit EvUNet st1 = (Returns (), st2)) as Ee by reflexivity.
    rewrite (bind_returns _ _ _ _ _ Ee). unfold zoom.
    rewrite (run_plain has_xformers unet recursion_limit _ (net st2)); [reflexivity| |exact Hlim].
    exact Hord. }
  rewrite (bind_returns _ _ _ _ _ E2).
  set (st3 := log EvSchedulerStep
                {| net := net st2; gen := g; sched := sch'; pbar := pbar st2;
                   trace := trace st2 |}).
  assert (guide_and_step a t z output st2 = (Returns next, st3)) as E3.
  { unfold guide_and_step.
    assert (length output ≠ 1%nat) as Hne by lia.
    rewrite (bind_returns _ _ _ _ _ (chunk2_returns output st2 Hne)).
    rewrite Hlen, Hh1, madd_guided. unfold step_scheduler.
    change (sched st2) with sch. change (gen st2) with (gen st). now rewrite Est. }
  rewrite (bind_returns _ _ _ _ _ E3).
  destruct (report_progress_returns i n w st3 Ho) as (st4 & E4 & Hn4 & Hg4 & Hs4 & Ht4).
  rewrite (bind_returns _ _ _ _ _ E4).
  exists st4. split; [reflexivity|]. split; [exact Hg4|]. split; [exact Hs4|].
  split; [exact Hn4|]. rewrite Ht4. cbn. now rewrite <- !app_assoc.
Qed.

(** The loop is the fold of the sampler's step over the timesteps. *)
Lemma plain_loop_refines a n w bpe ts : ∀ i z (st : gstate),
  (∀ m, forward_of m (net st) = OrdinaryForward) → (0 < recursion_limit)%nat →
  (∀ z t c, length (network z t c) = length z) →
  (∀ s, order s ≠ 0%nat) →
  let final := foldl (cfg_step (guidance_scale a) bpe)
                 {| latents := z; generator := gen st; numerical_scheduler := sched st |}
                 ts in
  ∃ st', enumerate_from (plain_cfg_step a n w bpe) i ts z st = (Returns (latents final), st')
         ∧ gen st' = generator final ∧ sched st' = numerical_scheduler final
         ∧ net st' = net st
         ∧ trace st' = trace st
                       ++ concat (replicate (length ts)
                                    [EvScaleModelInput; EvUNet; EvSchedulerStep]).
Proof.
  induction ts as [|t ts IH]; intros i z st Hord Hlim Hnet Ho.
  - exists st. cbn. rewrite app_nil_r. now repeat split.
  - destruct (plain_step_refines a n w bpe i t z st Hord Hlim Hnet Ho)
      as (st1 & E1 & Hg1 & Hs1 & Hn1 & Ht1).
    set (s1 := cfg_step (guidance_scale a) bpe
                 {| latents := z; generator := gen st; numerical_scheduler := sched st |} t)
      in *.
    destruct (IH (S i) (latents s1) st1) as (st2 & E2 & Hg2 & Hs2 & Hn2 & Ht2);
      [now rewrite Hn1 | exact Hlim | exact Hnet | exact Ho |].
    rewrite Hg1, Hs1 in E2, Hg2, Hs2.
    assert ({| latents := latents s1; generator := generator s1;
               numerical_scheduler := numerical_scheduler s1 |} = s1) as Eta
      by now destruct s1.
    rewrite Eta in E2, Hg2, Hs2.
    exists st2. cbn [enumerate_from foldl]. fold s1.
    rewrite (bind_returns _ _ _ _ _ E1).
    split; [exact E2|]. split; [exact Hg2|]. split; [exact Hs2|].
    split; [now rewrite Hn2|]. rewrite Ht2, Ht1. cbn. now rewrite <- !app_assoc.
Qed.

(** Seeding and sampling, with what they leave. *)
Lemma seed_and_sample_value a (st : gstate) :
  let g := match seed a with Some s => manual_seed s | None => gen st end in
  ∃ st1, seed_and_sample a st = (Returns (randn (n_images a) (4 * 64 * 64) g).1, st1)
         ∧ gen st1 = (randn (n_images a) (4 * 64 * 64) g).2
         ∧ sched st1 = sched st ∧ net st1 = net st
         ∧ trace st1 = trace st
                       ++ match seed a with Some _ => [EvManualSeed] | None => [] end
                       ++ [EvRandn (n_images a)].
Proof.
  unfold seed_and_sample, torch_manual_seed, torch_randn, mbind, M_bind, mret, M_ret.
  destruct (seed a) as [s|]; cbv beta iota zeta.
  - cbn [gen log net sched pbar trace].
    destruct (randn (n_images a) (4 * 64 * 64) (manual_seed s)) as [x g].
    eexists. split; [reflexivity|]. cbn. rewrite <- app_assoc. now repeat split.
  - destruct (randn (n_images a) (4 * 64 * 64) (gen st)) as [x g].
    eexists. split; [reflexivity|]. now repeat split.
Qed.

End WithPipeline.
End PlainRefinementFacts.

Module PlainRefinement.
Import Tensor Attn Py Schedule Imaging Net Generate NetFacts RunFacts GenerateFacts.
Import GenerateClaims PlainSampling PlainRefinementFacts GenerateTrace.
Local Open Scope R_scope.

(** C5: with no liked and no disliked image, on a network without
    instrumentation, [generate] returns the images of plain
    classifier-free-guided sampling as the specification describes it: the
    latents are drawn, scaled, and at each timestep the network is
    evaluated directly on the doubled batch, the two halves of its output
    are combined as [uncond + guidance_scale * (cond - uncond)] and the
    scheduler advances the latents.  The generator and the scheduler end in
    the sampler's final state, the modules and the lists are what they were
    (nothing was intercepted and nothing injected), and the calls made are
    those of plain sampling, one evaluation of the network per step.  The
    prompt lists have [n_images] entries, the network returns one prediction
    per latent, and the scheduler's order is not 0. *)
Theorem no_feedback_refines_plain_cfg `{Pipeline} (a : args) (st : gstate) :
  liked a = [] → disliked a = [] →
  (∀ l, prompt a = inr l → length l = n_images a) →
  (∀ l, negative_prompt a = inr l → length l = n_images a) →
  (∀ m, forward_of m (net st) = OrdinaryForward) →
  (0 < recursion_limit)%nat →
  (∀ z t c, length (network z t c) = length z) →
  (∀ s, order s ≠ 0%nat) →
  let reference := cfg_sampling a (gen st) (sched st) in
  let n_steps := length (timesteps (set_timesteps (denoising_steps a) (sched st))) in
  ∃ st', generate a st = (Returns reference.1, st')
         ∧ gen st' = generator reference.2
         ∧ sched st' = numerical_scheduler reference.2
         ∧ net st' = net st
         ∧ trace st' = trace st ++ cfg_events a n_steps.
Proof.
  intros Hl Hd Hp Hnp Hord Hlim Hnet Ho reference n_steps.
  rewrite (generate_plain_steps a st Hl Hd). unfold plain_cfg_sampling.
  destruct (seed_and_sample_value a st) as (st1 & E1 & Hg1 & Hs1 & Hn1 & Ht1).
  rewrite (bind_returns _ _ _ _ _ E1).
  rewrite (bind_returns _ _ _ _ _ (prompt_list_returns _ _ st1 Hp)).
  rewrite (bind_returns _ _ _ _ _ (prompt_list_returns _ _ st1 Hnp)).
  subst reference. unfold cfg_sampling.
  set (g := match seed a with Some s => manual_seed s | None => gen st end) in *.
  destruct (randn (n_images a) (4 * 64 * 64) g) as [noise g1]. cbn [fst snd] in *.
  set (prompts := strings_of (prompt a) (n_images a)
                  ++ strings_of (negative_prompt a) (n_images a) ++ [""%string]).
  assert (length prompts = (2 * n_images a + 1)%nat) as Hpl.
  { subst prompts. rewrite !length_app, !strings_of_length by assumption. cbn. lia. }
  set (sch := set_timesteps (denoising_steps a) (sched st)) in *.
  set (conditioning := take (2 * n_images a) (encode prompts)).
  unfold sample_with.
  set (st2 := log (EvTextEncode (length prompts)) st1).
  assert (initialize_prompts prompts st1 = (Returns (encode prompts), st2)) as E2
    by reflexivity.
  rewrite (bind_returns _ _ _ _ _ E2).
  set (st3 := log EvSetTimesteps
                {| net := net st2; gen := gen st2; sched := sch; pbar := pbar st2;
                   trace := trace st2 |}).
  assert (with_sched EvSetTimesteps (λ s, ((), set_timesteps (denoising_steps a) s)) st2
          = (Returns (), st3)) as E3.
  { unfold with_sched. change (sched st2) with (sched st1). rewrite Hs1. reflexivity. }
  rewrite (bind_returns _ _ _ _ _ E3).
  unfold read_sched at 1 2 3. unfold mbind at 1 2 3, M_bind.
  change (sched st3) with sch.
  assert (take (n_images a) (encode prompts)
          ++ take (n_images a) (drop (n_images a) (encode prompts)) = conditioning) as Hc.
  { subst conditioning. rewrite take_take_drop. f_equal. lia. }
  rewrite Hc.
  destruct (plain_loop_refines a (length (timesteps sch))
              (Z.of_nat (length (timesteps sch))
               - Z.of_nat (denoising_steps a * order sch))%Z
              conditioning (timesteps sch) 0%nat
              (mscale (init_noise_sigma sch) noise) st3)
    as (st4 & E4 & Hg4 & Hs4 & Hn4 & Ht4);
    [intros m; change (net st3) with (net st1); rewrite Hn1; apply Hord
    | exact Hlim | exact Hnet | exact Ho |].
  change (gen st3) with (gen st1) in E4, Hg4, Hs4. rewrite Hg1 in E4, Hg4, Hs4.
  change (sched st3) with sch in E4, Hg4, Hs4.
  change (mscale (init_noise_sigma sch) noise)
    with (map (map (Rmult (init_noise_sigma sch))) noise) in E4, Hg4, Hs4.
  set (final := foldl (cfg_step (guidance_scale a) conditioning) _ (timesteps sch)) in *.
  rewrite (bind_returns _ _ _ _ _ E4).
  exists (log EvDecode st4). split; [reflexivity|].
  split; [exact Hg4|]. split; [exact Hs4|]. split.
  - cbn [log net]. rewrite Hn4. cbn. exact Hn1.
  - cbn [log trace]. rewrite Ht4. cbn [st3 st2 log trace]. rewrite Ht1, Hpl.
    unfold cfg_events. subst n_steps. fold sch.
    rewrite <- !app_assoc. reflexivity.
Qed.

(** A run of C5: one prompt for one image over three timesteps. *)
Lemma no_feedback_refines_plain_cfg_witness :
  ∃ st', generate three_steps counting_state
         = (Returns (cfg_sampling three_steps (gen counting_state) (sched counting_state)).1,
            st')
         ∧ gen st'
           = generator (cfg_sampling three_steps (gen counting_state) (sched counting_state)).2
         ∧ sched st'
           = numerical_scheduler
               (cfg_sampling three_steps (gen counting_state) (sched counting_state)).2
         ∧ net st' = net counting_state
         ∧ trace st'
           = [EvManualSeed; EvRandn 1; EvTextEncode 3; EvSetTimesteps;
              EvScaleModelInput; EvUNet; EvSchedulerStep;
              EvScaleModelInput; EvUNet; EvSchedulerStep;
              EvScaleModelInput; EvUNet; EvSchedulerStep;
              EvDecode].
Proof.
  apply (no_feedback_refines_plain_cfg three_steps counting_state).
  - reflexivity.
  - reflexivity.
  - intros l Hl. discriminate Hl.
  - intros l Hl. discriminate Hl.
  - intros m. reflexivity.
  - cbn. lia.
  - intros z t c. reflexivity.
  - intros s Hs. discriminate Hs.
Defined.

End PlainRefinement.

(** ** A run with feedback steps returns *)

Module FeedbackRunFacts.
Import Tensor Attn Py Schedule Imaging Net Generate NetFacts PassFacts RunFacts RestoreFacts.
Import RestoreClaim GenerateFacts GenerateTrace GenerateEffects InjectionClaim InjectionSpec.
Import InjectionBlock ScheduleFacts PassTrace PassHeap PassClaims ReferenceCaches.
Import PromptCheck PlainSampling PlainRefinementFacts FeedbackRun Toy.
Local Open Scope R_scope.

#[local] Existing Instance feedback_pipeline | 0.

Lemma one_call_modules_nodup : NoDup (modules one_call_unet).
Proof.
  unfold modules. cbn. apply NoDup_cons. split; [apply not_elem_of_nil | apply NoDup_nil_2].
Qed.

(** The injection pass on the one-block network, with the cache of the liked
    images holding one tensor: the block pops it, the pass returns what the
    network returns, and the modules are restored. *)
Lemma one_call_pass_returns z t e lp pws nws s :
  (∀ m, forward_of m s = OrdinaryForward) →
  list_at lp s = [[[[0]]]] → 0 <= pws.1 →
  ∃ s', unet_forward_with_cached_hidden_states false one_call_unet 2 z t e
          (Some lp) None pws nws s = (Returns z, s').
Proof.
  intros Hord Hl Hw. unfold unet_forward_with_cached_hidden_states, weighted_blocks,
    block_weights. rewrite !local_weights_eq.
  cbn [one_call_unet down_blocks mid_block up_blocks length seq map app reverse
       rev_append zip zip_with foreach].
  set (pw := ramp pws 1 0). set (nw := ramp nws 1 0).
  assert (0 <= pw) as Hpw.
  { subst pw. unfold ramp. cbn [INR]. lra. }
  destruct (patch_spec (InjectingForward (Some lp) None pw nw) 0 s)
    as (s1 & E1 & Hh1 & Hf1 & Ho1 & _).
  rewrite (bind_returns _ _ _ _ _ E1). 
  change ((mret () : M state ()) ≫= λ _ : (), ?k) with k.
  assert (list_at lp s1 = [[[[0]]]]) as Hl1 by (unfold list_at; now rewrite Hh1).
  destruct (half_finite false one_call_unet 0 [[[0]]] 1 1 1 pw [[[0]]]) as [out_pos Ep];
    [cbn; lia | reflexivity | lia | lia | exact Hpw | reflexivity | repeat constructor
    | reflexivity | repeat constructor |].
  assert (call false one_call_unet 2 0 (InjectingForward (Some lp) None pw nw)
            [[[0]]; [[0]]] s1
          = (Returns (cat0 out_pos [[[0]]]), pop_front None (pop_front (Some lp) s1)))
    as Ecall.
  { apply (call_injecting false one_call_unet 0 0 [[[0]]; [[0]]] (Some lp) None pw nw s1 1 1).
    - lia.
    - lia.
    - reflexivity.
    - repeat constructor.
    - exists [[[0]]], [], 1%nat. split; [exact Hl1|]. split; [reflexivity|].
      repeat constructor.
    - exact I.
    - intros ? ? _ Hn. discriminate Hn.
    - intros _. fold (old_forward_of 0 s1). rewrite Ho1. now rewrite Hord.
    - cbn [front_of]. rewrite Hl1. exact Ep.
    - reflexivity. }
  set (s2 := pop_front None (pop_front (Some lp) s1)) in *.
  assert (attrs s2 = attrs s1) as Ha2 by reflexivity.
  destruct (foreach_restore_returns (modules one_call_unet) one_call_modules_nodup s2)
    as (s3 & E3).
  { intros m Hm. unfold modules in Hm. cbn in Hm. apply list_elem_of_singleton in Hm as ->.
    unfold old_forward_of. rewrite (instance_dict_attrs 0 s1 s2 Ha2).
    fold (old_forward_of 0 s1). rewrite Ho1. eauto. }
  exists s3.
  assert (run false one_call_unet 2 (unet_forward one_call_unet z t e) s1 = (Returns z, s2))
    as Erun.
  { cbn [run unet_forward one_call_unet].
    rewrite (bind_returns _ _ s1 _ _
               (eq_refl : getattr_forward 0 s1 = (Returns (forward_of 0 s1), s1))).
    rewrite Hf1, (bind_returns _ _ _ _ _ Ecall). reflexivity. }
  rewrite (bind_returns _ _ _ _ _ Erun), (bind_returns _ _ _ _ _ E3). reflexivity.
Qed.

Lemma step_weight_pos rs re i lo hi : 0 < lo → 0 < hi → 0 < step_weight rs re i lo hi.
Proof. intros Hlo Hhi. unfold step_weight. now destruct (_ && _). Qed.

Lemma rltb_true x y : x < y → rltb x y = true.
Proof. intros H. unfold rltb. destruct (Rlt_dec x y); [reflexivity | lra]. Qed.

(** A network without instrumentation stays one over a part of [generate]
    that returns. *)
Lemma plain_net_effects (st st' : @gstate feedback_pipeline) evs k :
  plain_net st → effects st st' evs k → plain_net st'.
Proof.
  intros [Hord Hclean] (_ & _ & Hnet).
  destruct (Hnet one_call_modules_nodup Hclean) as [Hf Hc].
  split; [|exact Hc]. intros m. now rewrite Hf.
Qed.

Lemma plain_net_same (st st' : @gstate feedback_pipeline) :
  plain_net st → net st' = net st → plain_net st'.
Proof. intros H E. unfold plain_net. now rewrite E. Qed.

(** The caching pass on the one-block network returns a list that holds
    the input of the block's one call. *)
Lemma one_call_caching z t e s :
  (∀ m, forward_of m s = OrdinaryForward) →
  ∃ l s', get_unet_hidden_states false one_call_unet 2 z t e s = (Returns l, s')
          ∧ list_at l s' = [[[[0]]; [[0]]]].
Proof.
  intros Hord. unfold get_unet_hidden_states.
  set (l0 := fresh (dom (heap s))).
  set (s1 := {| attrs := attrs s; heap := <[l0 := []]> (heap s) |}).
  rewrite (bind_returns _ _ s _ _ (eq_refl : list_new [] s = (Returns l0, s1))).
  destruct (foreach_patch (CachingForward l0) (modules one_call_unet) s [] s1
              (patched_from_start s s1 eq_refl) one_call_modules_nodup)
    as (s2 & Epatch & [Hold Hrest] & Hfwd).
  { intros m _ Hin. inversion Hin. }
  rewrite (bind_returns _ _ _ _ _ Epatch).
  pose proof (foreach_patch_heap _ _ _ _ Epatch) as Hh2.
  destruct (run_caching_heap false one_call_unet 2 (unet_forward one_call_unet z t e)
              (modules one_call_unet) l0 s2) as (s3 & Erun & Ha3 & Hl3 & _).
  { lia. }
  { intros m Hm. split; [now apply Hfwd|].
    rewrite Hold by (apply elem_of_app; now left). now rewrite Hord. }
  { intros m Hm. unfold forward_of. rewrite Hrest.
    - apply Hord.
    - rewrite app_nil_r. exact Hm. }
  rewrite (bind_returns _ _ _ _ _ Erun).
  destruct (foreach_restore_returns (modules one_call_unet) one_call_modules_nodup s3)
    as (s4 & Erest).
  { intros m Hm. unfold old_forward_of. rewrite (instance_dict_attrs m s2 s3 Ha3).
    fold (old_forward_of m s2). rewrite Hold by (apply elem_of_app; now left). eauto. }
  rewrite (bind_returns _ _ _ _ _ Erest).
  pose proof (foreach_restore_heap _ _ _ Erest) as Hh4.
  exists l0, s4. split; [reflexivity|].
  unfold list_at at 1. rewrite Hh4. fold (list_at l0 s3). rewrite Hl3.
  unfold list_at. rewrite Hh2. unfold s1. cbn [heap]. rewrite lookup_insert_eq.
  cbn. destruct (decide (0%nat ∈ [0%nat])) as [_|Hn]; [reflexivity|].
  exfalso. apply Hn. now left.
Qed.

(** The reference pass of a step with one liked latent and no disliked
    one, for one requested image: the cache of the liked images holds one
    tensor of one entry and one position, and there is no other cache. *)
Lemma liked_cache (a : @args feedback_pipeline) t alpha_hat (pos : mat) npe
    (st : @gstate feedback_pipeline) :
  n_images a = 1%nat → length pos = 1%nat →
  (∀ m, forward_of m (net st) = OrdinaryForward) →
  ∃ lp st', reference_caches a t alpha_hat pos [] npe st = (Returns (Some lp, None), st')
            ∧ list_at lp (net st') = [[[[0]]]].
Proof.
  intros Hn Hpos Hord. unfold reference_caches.
  destruct (torch_randn_returns (length (pos ++ []))
              (match pos ++ [] with [] => 0%nat | x :: _ => length x end) st)
    as (noise & st1 & E1 & Hn1).
  rewrite (bind_returns _ _ _ _ _ E1).
  cbn [is_euler_ancestral feedback_pipeline].
  set (zr := madd (mscale (sqrt alpha_hat) (pos ++ [])) (mscale (sqrt (1 - alpha_hat)) noise)).
  rewrite (bind_returns _ _ st1 _ _ (eq_refl : (mret zr : M gstate mat) st1 = (Returns zr, st1))).
  destruct (one_call_caching zr t (concat (replicate (length pos + length ([] : mat)) npe))
              (net st1)) as (l & s3 & E3 & Hl3).
  { intros m. rewrite Hn1. apply Hord. }
  set (st3 := {| net := s3; gen := gen (log EvUNet st1); sched := sched (log EvUNet st1);
                 pbar := pbar (log EvUNet st1); trace := trace (log EvUNet st1) |}).
  assert ((emit EvUNet;;
           zoom (get_unet_hidden_states has_xformers unet recursion_limit zr t
                   (concat (replicate (length pos + length ([] : mat)) npe)))) st1
          = (Returns l, st3)) as E3'.
  { rewrite (bind_returns _ _ st1 _ _
               (eq_refl : emit EvUNet st1 = (Returns (), log EvUNet st1))).
    apply (zoom_returns _ (log EvUNet st1) l s3). exact E3. }
  rewrite (bind_returns _ _ _ _ _ E3').
  rewrite (bind_returns _ _ st3 _ _
             (zoom_returns (list_read l) st3 (list_at l s3) s3 eq_refl)).
  set (st3' := {| net := s3; gen := gen st3; sched := sched st3; pbar := pbar st3;
                  trace := trace st3 |}).
  rewrite Hl3, Hpos, Hn. cbn [map take concat app replicate length drop].
  set (lp := fresh (dom (heap s3))).
  set (s4 := {| attrs := attrs s3; heap := <[lp := [[[[0]]]]]> (heap s3) |}).
  rewrite (bind_returns _ _ st3' _ _
             (zoom_returns (list_new [[[[0]]]]) st3' lp s4 eq_refl)).
  set (st4 := {| net := s4; gen := gen st3'; sched := sched st3'; pbar := pbar st3';
                 trace := trace st3' |}).
  set (ln := fresh (dom (heap s4))).
  set (s5 := {| attrs := attrs s4; heap := <[ln := [[[[0]]]]]> (heap s4) |}).
  rewrite (bind_returns _ _ st4 _ _
             (zoom_returns (list_new [[[[0]]]]) st4 ln s5 eq_refl)).
  assert (lp ≠ ln) as Hne.
  { intros Heq. apply (is_fresh (dom (heap s4))). fold ln. rewrite <- Heq.
    unfold s4. cbn [heap]. rewrite dom_insert. apply elem_of_union. left.
    now apply elem_of_singleton. }
  eexists lp, _. split; [reflexivity|]. cbn [net].
  unfold list_at, s5, s4. cbn [heap].
  rewrite lookup_insert_ne by congruence. now rewrite lookup_insert_eq.
Qed.

(** A feedback step of the run returns. *)
Lemma feedback_step_returns (a : @args feedback_pipeline) n w rs re (pos : mat) bpe npe i t z
    (st : @gstate feedback_pipeline) :
  n_images a = 1%nat → 0 < min_weight a → 0 < max_weight a →
  length pos = 1%nat → plain_net st →
  ∃ z' st', denoising_step a n w rs re pos [] bpe npe i t z st = (Returns z', st').
Proof.
  intros Hn Hlo Hhi Hpos [Hord Hclean]. unfold denoising_step.
  rewrite (bind_returns _ _ st _ _ (eq_refl : step_sigma i t st = (Returns 0, st))).
  set (st1 := log EvScaleModelInput
                {| net := net st; gen := gen st; sched := sched st; pbar := pbar st;
                   trace := trace st |}).
  rewrite (bind_returns _ _ st _ _
             (eq_refl : with_sched EvScaleModelInput (scale_model_input z t) st
                        = (Returns z, st1))).
  set (weight := step_weight rs re i (min_weight a) (max_weight a)).
  assert (0 < weight) as Hw by now apply step_weight_pos.
  rewrite app_nil_r, Hpos, (rltb_true 0 weight Hw).
  cbn [bool_decide decide_rel andb].
  rewrite bool_decide_eq_true_2 by lia. cbn [andb].
  destruct (liked_cache a t (1 / (0 * 0 + 1)) pos npe st1 Hn Hpos Hord)
    as (lp & st2 & E2 & Hlp).
  pose proof (reference_caches_effects _ _ _ _ _ _ _ _ _ E2) as Heff.
  assert (plain_net st2) as [Hord2 Hclean2].
  { eapply plain_net_effects; [|exact Heff]. split; [exact Hord | exact Hclean]. }
  rewrite (bind_returns _ _ _ _ _ E2).
  destruct (one_call_pass_returns (z ++ z) t bpe lp (pos_ws weight (pos_bottleneck_scale a))
              (neg_ws weight (neg_scale a) (neg_bottleneck_scale a)) (net st2))
    as (s3 & E3); [exact Hord2 | exact Hlp | cbn; lra |].
  set (st3 := {| net := s3; gen := gen (log EvUNet st2); sched := sched (log EvUNet st2);
                 pbar := pbar (log EvUNet st2); trace := trace (log EvUNet st2) |}).
  assert ((emit EvUNet;;
           zoom (unet_forward_with_cached_hidden_states has_xformers unet recursion_limit
                   (z ++ z) t bpe (Some lp) None
                   (pos_ws weight (pos_bottleneck_scale a))
                   (neg_ws weight (neg_scale a) (neg_bottleneck_scale a)))) st2
          = (Returns (z ++ z), st3)) as E3'.
  { rewrite (bind_returns _ _ st2 _ _
               (eq_refl : emit EvUNet st2 = (Returns (), log EvUNet st2))).
    apply (zoom_returns _ (log EvUNet st2) (z ++ z) s3). exact E3. }
  rewrite (bind_returns _ _ _ _ _ E3').
  assert (∃ z' st4, guide_and_step a t z (z ++ z) st3 = (Returns z', st4)) as (z' & st4 & E4).
  { unfold guide_and_step.
    assert (length (z ++ z) ≠ 1%nat) as Hne by (rewrite length_app; lia).
    rewrite (bind_returns _ _ _ _ _ (chunk2_returns (z ++ z) st3 Hne)).
    eexists _, _. reflexivity. }
  rewrite (bind_returns _ _ _ _ _ E4).
  destruct (report_progress_returns i n w st4) as (st5 & E5 & _).
  { intros s0 Hs. discriminate Hs. }
  rewrite (bind_returns _ _ _ _ _ E5). eexists _, _. reflexivity.
Qed.

(** The loop of the run returns. *)
Lemma feedback_loop_returns (a : @args feedback_pipeline) n w rs re (pos : mat) bpe npe ts :
  n_images a = 1%nat → 0 < min_weight a → 0 < max_weight a → length pos = 1%nat →
  ∀ i z (st : @gstate feedback_pipeline), plain_net st →
  ∃ z' st', enumerate_from (denoising_step a n w rs re pos [] bpe npe) i ts z st
            = (Returns z', st').
Proof.
  intros Hn Hlo Hhi Hpos. induction ts as [|t ts IH]; intros i z st Hplain.
  - eexists _, _. reflexivity.
  - destruct (feedback_step_returns a n w rs re pos bpe npe i t z st Hn Hlo Hhi Hpos Hplain)
      as (z1 & st1 & E1).
    destruct (denoising_step_effects _ _ _ _ _ _ _ _ _ _ _ _ _ _ _ E1) as (k & Heff & _).
    destruct (IH (S i) z1 st1 (plain_net_effects _ _ _ _ Hplain Heff)) as (z' & st' & E).
    exists z', st'. cbn [enumerate_from]. now rewrite (bind_returns _ _ _ _ _ E1).
Qed.

(** The run: one liked image, two steps, both of them feedback steps. *)
Lemma one_liked_returns :
  ∃ imgs st', generate one_liked feedback_state = (Returns imgs, st').
Proof.
  unfold generate.
  destruct (seed_and_sample_value one_liked feedback_state) as (st1 & E1 & _ & _ & Hn1 & _).
  rewrite (bind_returns _ _ _ _ _ E1).
  assert (plain_net st1) as Hp1.
  { apply (plain_net_same feedback_state); [|exact Hn1]. split; intros m; reflexivity. }
  destruct (encode_references_returns (liked one_liked) st1) as (pos & st2 & E2).
  { intros img Hin. apply list_elem_of_singleton in Hin as ->. eexists. reflexivity. }
  rewrite (bind_returns _ _ _ _ _ E2).
  destruct (encode_references_effects _ _ _ _ E2) as (Heff2 & _ & Hl2).
  assert (length pos = 1%nat) as Hpos.
  { apply Hl2. intros ts g. exact (length_map (λ _ : tensor, ([] : vec)) ts). }
  pose proof (plain_net_effects _ _ _ _ Hp1 Heff2) as Hp2.
  cbn [disliked one_liked encode_references].
  rewrite (bind_returns _ _ st2 _ _ (eq_refl : (mret [] : M gstate mat) st2 = (Returns [], st2))).
  rewrite (bind_returns _ _ _ _ _ (prompt_list_returns _ _ st2
             (λ l (Hl : prompt one_liked = inr l), ltac:(discriminate Hl)))).
  rewrite (bind_returns _ _ _ _ _ (prompt_list_returns _ _ st2
             (λ l (Hl : negative_prompt one_liked = inr l), ltac:(discriminate Hl)))).
  unfold sample_with.
  set (prompts := strings_of (prompt one_liked) (n_images one_liked)
                  ++ strings_of (negative_prompt one_liked) (n_images one_liked)
                  ++ [""%string]).
  set (st3 := log (EvTextEncode (length prompts)) st2).
  assert (initialize_prompts prompts st2 = (Returns [], st3)) as E3 by reflexivity.
  rewrite (bind_returns _ _ _ _ _ E3).
  set (st4 := log EvSetTimesteps
                {| net := net st3; gen := gen st3; sched := 2%nat; pbar := pbar st3;
                   trace := trace st3 |}).
  assert (with_sched EvSetTimesteps
            (λ s, ((), set_timesteps (denoising_steps one_liked) s)) st3
          = (Returns (), st4)) as E4 by reflexivity.
  rewrite (bind_returns _ _ _ _ _ E4).
  unfold read_sched at 1 2 3. unfold mbind at 1 2 3, M_bind.
  assert (plain_net st4) as Hp4 by (apply (plain_net_same st2); [exact Hp2 | reflexivity]).
  match goal with
  | |- context [enumerate_from ?body 0%nat ?ts ?z] =>
      assert (∃ z' st5, enumerate_from body 0%nat ts z st4 = (Returns z', st5))
        as (z' & st5 & E5)
  end.
  { apply feedback_loop_returns; [reflexivity | cbn; lra | cbn; lra | exact Hpos | exact Hp4]. }
  rewrite (bind_returns _ _ _ _ _ E5). eexists _, _. reflexivity.
Qed.

End FeedbackRunFacts.


Module FeedbackRunClaim.
Import Tensor Attn Py Schedule Imaging Net Generate NetFacts GenerateTrace GenerateEffects.
Import GenerateExtras FeedbackRun FeedbackRunFacts.
Local Open Scope R_scope.

(** A run of X13 with feedback: one liked image, two steps, both inside
    the feedback window.  Each step draws the noise for the reference
    latent, runs the caching pass (which patches and restores the block)
    and the injection pass (which patches it again, pops the cached tensor
    and restores it); the call returns and the network is as it was. *)
Lemma generate_restores_network_witness :
  ∃ imgs st',
    generate one_liked feedback_state = (Returns imgs, st')
    ∧ trace st'
      = [EvManualSeed; EvRandn 1; EvImageToTensor; EvVaeEncode 1; EvTextEncode 3;
         EvSetTimesteps;
         EvScaleModelInput; EvRandn 1; EvUNet; EvUNet; EvSchedulerStep;
         EvScaleModelInput; EvRandn 1; EvUNet; EvUNet; EvSchedulerStep;
         EvDecode]
    ∧ restored (net feedback_state) (net st').
Proof.
  destruct one_liked_returns as (imgs & st' & E).
  exists imgs, st'. split; [exact E|]. split.
  - destruct (generate_effects one_liked feedback_state imgs st' E)
      as (k & n_ref & (Ht & _) & Hn & _).
    rewrite Ht, Hn by (intros ts g; exact (length_map (λ _ : tensor, ([] : vec)) ts)).
    unfold generate_events, step_events, feedback_step.
    cbn -[rltb].
    rewrite !rltb_true by (apply step_weight_pos; lra).
    rewrite !bool_decide_eq_true_2 by lia. reflexivity.
  - apply (generate_restores_network one_liked feedback_state imgs st');
      [exact one_call_modules_nodup | intros m; reflexivity | exact E].
Defined.

End FeedbackRunClaim.

(** ** Mismatched prompts and a missing reference image *)

Module PromptCheckRuns.
Import Tensor Attn Py Schedule Imaging Net Generate Toy ToyPipeline PromptRuns.
Local Open Scope R_scope.

(** With three prompts for two images and a liked image whose file does not
    open, the call fails while converting the image, before the lengths of
    the prompt lists are looked at. *)
Lemma unreadable_reference_raises_first :
  prompts_mismatch three_prompts_unreadable
  ∧ ∃ st', generate three_prompts_unreadable initial_state = (Raises FileNotFoundError, st')
           ∧ trace st' = [EvManualSeed; EvRandn 2; EvImageToTensor].
Proof.
  split.
  - left. exists ["a"; "b"; "c"]%string. split; [reflexivity|]. simpl. lia.
  - eexists. split; vm_compute; reflexivity.
Qed.

End PromptCheckRuns.
